(** * pySPR: Symbolic Pattern Recognition (SPR.py)

    A shallow embedding of the class [SPRanal] of [SPR.py] and the
    properties of its methods [MakenGrams], [BuildPTP], [BuildPTPs],
    [Predict], [Simulate] and [Distance].

    Conventions of the embedding.
    - A Python one-character string (a symbol) is an [ascii]; a Python
      string is a [list ascii]; comparison of symbols is comparison of
      character codes, as Python's [str] comparison.
    - Python integers are [Z] or [nat] (where the code only counts from
      zero upwards).
    - A Python or numpy float is the rational [Q] that the double
      denotes.  Every division and addition of floats that the methods
      of [SPRanal] carry out themselves is followed by the rounding
      [fl64] to the nearest double: the sparsity ratios and their
      comparison with the threshold, the relative frequencies of the
      matrices, the averages of [Predict] and the cumulated
      probabilities of [Simulate].  The numbers stay in [0, 2^53], so no
      overflow arises, and the integers divided are the exact values of
      the operands.  Only the sum of absolute differences that
      [Distance] obtains from [np.sum] is the exact sum: the order in
      which numpy adds the entries of an array is not modelled.
    - numpy stores strings at a fixed width padded with NUL; [np_str]
      and [np_strip] are the strings read back from such an array.
    - A raised exception is the left injection of [result]. *)

From Stdlib Require Import String Ascii List Arith ZArith QArith Qabs Lia Bool.
From Stdlib Require Import Qround Qpower Lqa.
From Stdlib Require Import Permutation Sorted.
Import ListNotations.

Set Implicit Arguments.

Open Scope nat_scope.

(** ** Exceptions *)

Inductive exn : Type :=
| IndexError
| ValueError
| ZeroDivisionError
| NameError.

Definition result (A : Type) : Type := (exn + A)%type.

Definition OK {A} (a : A) : result A := inr a.
Definition Err {A} (e : exn) : result A := inl e.

Definition bind {A B} (r : result A) (k : A -> result B) : result B :=
  match r with
  | inl e => inl e
  | inr a => k a
  end.

Notation "x <- r ;; k" := (bind r (fun x => k))
  (at level 61, r at next level, right associativity).
Notation "' p <- r ;; k" := (bind r (fun p => k))
  (at level 61, p pattern, r at next level, right associativity).

(** [map] with a fallible function, stopping at the first exception. *)
Fixpoint mapR {A B} (f : A -> result B) (l : list A) : result (list B) :=
  match l with
  | [] => OK []
  | a :: l' => b <- f a ;; bs <- mapR f l' ;; OK (b :: bs)
  end.

(** ** Symbols and strings *)

Abbreviation symbol := ascii (only parsing).
Abbreviation str := (list ascii) (only parsing).

Definition code (c : symbol) : nat := nat_of_ascii c.

Definition sym_eqb (a b : symbol) : bool := Ascii.eqb a b.
Definition sym_leb (a b : symbol) : bool := code a <=? code b.

Fixpoint str_eqb (u v : str) : bool :=
  match u, v with
  | [], [] => true
  | a :: u', b :: v' => sym_eqb a b && str_eqb u' v'
  | _, _ => false
  end.

(** ** Python list primitives *)

(** [l * k] *)
Definition list_mul {A} (l : list A) (k : nat) : list A := concat (repeat l k).

(** [l.sort()] on a list of symbols. *)
Fixpoint insert_sym (a : symbol) (l : list symbol) : list symbol :=
  match l with
  | [] => [a]
  | b :: l' => if sym_leb a b then a :: b :: l' else b :: insert_sym a l'
  end.

Fixpoint sort_syms (l : list symbol) : list symbol :=
  match l with
  | [] => []
  | a :: l' => insert_sym a (sort_syms l')
  end.

(** [hd_error] of every column, or [None] once a column is exhausted. *)
Fixpoint heads {A} (cols : list (list A)) : option (list A) :=
  match cols with
  | [] => Some []
  | c :: cs =>
      match c, heads cs with
      | x :: _, Some r => Some (x :: r)
      | _, _ => None
      end
  end.

(** At most [k] rows read off the columns, stopping at the shortest. *)
Fixpoint zip_rows {A} (k : nat) (cols : list (list A)) : list (list A) :=
  match k with
  | 0 => []
  | S k' =>
      match heads cols with
      | Some r => r :: zip_rows k' (map (@tl A) cols)
      | None => []
      end
  end.

(** The rows of [zip] applied to the unpacked columns: a list of columns
    read row by row; no column, no row. *)
Definition zip_star {A} (cols : list (list A)) : list (list A) :=
  match cols with
  | [] => []
  | c :: _ => zip_rows (length c) cols
  end.

(** [l.index(x)] on a list of strings. *)
Fixpoint index_str (x : str) (l : list str) : option nat :=
  match l with
  | [] => None
  | y :: l' => if str_eqb y x then Some 0 else option_map S (index_str x l')
  end.

(** [l[i] = v].  An index out of range leaves [l] alone: the only such
    write could be [PTP[j][i] = ...] in [BuildPTP], whose [IndexError]
    the surrounding [except IndexError: pass] swallows. *)
Fixpoint set_nth {A} (i : nat) (v : A) (l : list A) : list A :=
  match l, i with
  | [], _ => []
  | _ :: l', 0 => v :: l'
  | x :: l', S i' => x :: set_nth i' v l'
  end.

(** ** Binary64 arithmetic *)

Definition pow2 (e : Z) : Q := (2 ^ e)%Q.

(** The integer nearest to [q], a tie going to the even one. *)
Definition round_half_even (q : Q) : Z :=
  let f := Qfloor q in
  match Qcompare (q - inject_Z f) (1 # 2) with
  | Lt => f
  | Gt => (f + 1)%Z
  | Eq => if Z.even f then f else (f + 1)%Z
  end.

(** The integer part of the binary logarithm of a positive [q]. *)
Definition ilog2 (q : Q) : Z :=
  let d := (Z.log2 (Qnum q) - Z.log2 (Zpos (Qden q)))%Z in
  if Qle_bool (pow2 d) q then d else (d - 1)%Z.

(** The double nearest to a positive [q]: 53 significant bits, the
    exponent of the last one at least -1074 (below [2^-1022] the doubles
    are the multiples of [2^-1074]). *)
Definition fl64_pos (q : Q) : Q :=
  let e := Z.max (ilog2 q - 52) (-1074) in
  Qred (inject_Z (round_half_even (q / pow2 e)) * pow2 e).

(** The correctly rounded result of a float operation whose exact
    result is [q] (IEEE 754 binary64, round to nearest, ties to even),
    in lowest terms. *)
Definition fl64 (q : Q) : Q :=
  match Qcompare q 0 with
  | Eq => 0%Q
  | Gt => fl64_pos (Qred q)
  | Lt => (- fl64_pos (Qred (- q)))%Q
  end.

(** [sum(l)] on floats: the additions from left to right, each rounded.
    The elements here are numpy floats next to Python's [0.0], for which
    [sum] has no other way of adding. *)
Definition fsum (l : list Q) : Q := fold_left (fun s x => fl64 (s + x)) l 0%Q.

(** ** MakenGrams *)

Section MakenGrams.

Variable alpha : list symbol.

Let n_s := length alpha.

(** One pass of the loop over [cnt]: the column of the symbols at
    distance [cnt] from the right end of the patterns. *)
Definition ngram_column (maxn_p cnt : nat) : list symbol :=
  let letrepts := n_s ^ cnt in
  let arrrepts := n_s ^ (maxn_p - 1 - cnt) in
  let tmp := sort_syms (list_mul alpha letrepts) in
  list_mul tmp arrrepts.

(** The list built by [for cnt in range(maxn_p)]. *)
Definition ngram_columns (maxn_p : nat) : list (list symbol) :=
  map (ngram_column maxn_p) (seq 0 maxn_p).

(** The strings joined from the rows of the columns in reverse order. *)
Definition join_columns (cols : list (list symbol)) : list str :=
  zip_star (rev cols).

(** [MakenGrams(maxn_p, only=True)]; the default of [maxn_p] is the
    attribute of the object, which the callers pass. *)
Definition MakenGrams_only (maxn_p : Z) : list str :=
  join_columns (ngram_columns (Z.to_nat maxn_p)).

(** One pass of the tear-down loop [for cnt in range(maxn_p-1,1,-1)]. *)
Definition tear_down (st : list (list symbol) * list (list str)) (cnt : nat)
  : list (list symbol) * list (list str) :=
  let '(thisngrams, ngrams) := st in
  let thisngrams' := map (firstn (n_s ^ cnt)) (removelast thisngrams) in
  (thisngrams', ngrams ++ [join_columns thisngrams']).

(** The values of [range(maxn_p-1,1,-1)]: [maxn_p-1], ..., [2]. *)
Definition tear_down_range (maxn_p : Z) : list nat :=
  rev (seq 2 (Z.to_nat (maxn_p - 2))).

(** [MakenGrams(maxn_p, only=False)] *)
Definition MakenGrams_all (maxn_p : Z) : list (list str) :=
  let thisngrams := ngram_columns (Z.to_nat maxn_p) in
  let ngrams := [join_columns thisngrams] in
  let '(_, ngrams) :=
    fold_left tear_down (tear_down_range maxn_p) (thisngrams, ngrams) in
  let ngrams := ngrams ++ [map (fun c => [c]) alpha] in
  rev ngrams.

End MakenGrams.

(** The two shapes of the value returned by [MakenGrams]. *)
Inductive ngrams_value : Type :=
| OnlyList (l : list str)
| AllLists (ls : list (list str)).

Definition MakenGrams (alpha : list symbol) (maxn_p : Z) (only : bool)
  : ngrams_value :=
  if only then OnlyList (MakenGrams_only alpha maxn_p)
  else AllLists (MakenGrams_all alpha maxn_p).

(** ** HashSearch *)

(** Modelled from the spec: the function [HashSearch] of the module
    [HashSubstringSearch], which [SPR.py] imports and whose source is not
    part of the repository sources at hand.  The definitions of this
    section follow section 4.1 of the specification: the polynomial hash
    of the pattern and of every window of the pattern's length, the
    windows' hashes obtained by the rolling update, a window whose hash
    equals the pattern's being a candidate, and every candidate compared
    with the pattern symbol by symbol before it is accepted; a pattern of
    length zero or longer than the sequence has no match.  The modulus of
    the hash parameters is a positive integer, for which [mod] is
    Python's remainder. *)
Section HashSearch.

Variables p x : Z.

(** The polynomial hash of a window, leading symbol at the highest
    power, by Horner's rule modulo [p]. *)
Definition poly_hash (w : str) : Z :=
  fold_left (fun h c => ((h * x + Z.of_nat (code c)) mod p)%Z) w 0%Z.

(** Rolling update: remove the leading symbol's contribution, shift, add
    the trailing symbol, all modulo [p]; [xL] is [x^(L-1) mod p]. *)
Definition roll (xL h : Z) (lead trail : symbol) : Z :=
  (((h - Z.of_nat (code lead) * xL) * x + Z.of_nat (code trail)) mod p)%Z.

(** The hashes of the successive windows, from the hash [h] of the
    current one and the pairs (leading symbol, next trailing symbol). *)
Fixpoint window_hashes (xL h : Z) (slides : list (symbol * symbol))
  : list Z :=
  match slides with
  | [] => [h]
  | (lead, trail) :: slides' =>
      h :: window_hashes xL (roll xL h lead trail) slides'
  end.

(** [Sequence[i:i+L]] *)
Definition window (s : str) (i L : nat) : str := firstn L (skipn i s).

Definition HashSearch (s pattern : str) : list nat :=
  let L := length pattern in
  let N := length s in
  if (L =? 0) || (N <? L) then []
  else
    let xL := ((x ^ Z.of_nat (L - 1)) mod p)%Z in
    let pHash := poly_hash pattern in
    let hashes :=
      window_hashes xL (poly_hash (firstn L s)) (combine s (skipn L s)) in
    let candidates :=
      map fst
        (filter (fun ih => Z.eqb (snd ih) pHash)
           (combine (seq 0 (length hashes)) hashes)) in
    filter (fun i => str_eqb (window s i L) pattern) candidates.

End HashSearch.

(** ** The analysis object *)

(** The attributes set by [__init__] and [SetPTPParams]. *)
Record Config : Type := mkConfig {
  alpha : list symbol;
  sequence : str;
  maxn_p : Z;
  t_np : Q;
  hashP_p : Z;
  hashP_x : Z
}.

Definition n_s (c : Config) : nat := length (alpha c).
Definition n (c : Config) : nat := length (sequence c).

(** A PTP matrix: [n_s] columns of counts, the column of totals, [n_s]
    columns of relative frequencies, each with one entry per ngram.
    Counts are integers embedded in [Q]. *)
Abbreviation PTP := (list (list Q)) (only parsing).

(** The sparsity table [[Observed, Possible, SI]]. *)
Record SparsityTable : Type := mkSparsity {
  Observed : list Z;
  Possible : list Z;
  SI : list Q
}.

(** The attributes set by [__SetPTP__], next to the configuration. *)
Record Model : Type := mkModel {
  conf : Config;
  n_p : nat;
  PTPs : list PTP;
  ngrams : list (list str);
  sparsities : SparsityTable
}.

(** ** numpy helpers *)

(** Adjacent duplicates removed. *)
Fixpoint uniq_adjacent (l : list symbol) : list symbol :=
  match l with
  | [] => []
  | a :: l' =>
      match l' with
      | [] => [a]
      | b :: _ => if sym_eqb a b then uniq_adjacent l' else a :: uniq_adjacent l'
      end
  end.

(** [np.unique(chars)]: the sorted distinct symbols. *)
Definition np_unique (chars : list symbol) : list symbol :=
  uniq_adjacent (sort_syms chars).

(** An element of such an array read back as a Python string.  numpy
    stores one-character strings at a fixed width padded with NUL, so
    the NUL character comes back as the empty string; the comparison
    [freqs[0]==alph] of [BuildPTP] pads [alph] likewise, so that it is
    the comparison of the symbols. *)
Definition np_str (a : symbol) : str := if sym_eqb a zero then [] else [a].

(** The count [np.unique(chars, return_counts=True)] pairs with [a]. *)
Definition count_sym (a : symbol) (chars : list symbol) : nat :=
  length (filter (sym_eqb a) chars).

Definition mem_sym (a : symbol) (l : list symbol) : bool :=
  existsb (sym_eqb a) l.

Definition mem_str (u : str) (l : list str) : bool :=
  existsb (str_eqb u) l.

Fixpoint distinct_strs (l : list str) : list str :=
  match l with
  | [] => []
  | u :: l' => if mem_str u l' then distinct_strs l' else u :: distinct_strs l'
  end.

(** A string as an element of a numpy array of strings: the trailing
    NULs are one with the padding. *)
Fixpoint np_strip (u : str) : str :=
  match u with
  | [] => []
  | a :: u' =>
      match np_strip u' with
      | [] => np_str a
      | v => a :: v
      end
  end.

(** [np.unique(l).size] on a list of strings. *)
Definition unique_size (l : list str) : nat :=
  length (distinct_strs (map np_strip l)).

Definition Zsum (l : list Z) : Z := fold_right Z.add 0%Z l.
Definition Qsum (l : list Q) : Q := fold_right Qplus 0%Q l.

(** ** BuildPTP *)

Section BuildPTP.

Variable c : Config.

(** [[self.sequence[i+n_p] for i in indxs if i+n_p+1 <= self.n]] *)
Definition following_chars (np : nat) (indxs : list nat) : list symbol :=
  map (fun i => nth (i + np) (sequence c) zero)
    (filter (fun i => i + np + 1 <=? n c) indxs).

(** The loop over [enumerate(self.alpha)]: the count of every alphabet
    symbol present in the tabulation is written at row [i]. *)
Definition tabulate (i : nat) (chars : list symbol) (counts : list (list Z))
  : list (list Z) :=
  map (fun ac : symbol * list Z =>
         if mem_sym (fst ac) (np_unique chars)
         then set_nth i (Z.of_nat (count_sym (fst ac) chars)) (snd ac)
         else snd ac)
    (combine (alpha c) counts).

(** One pass of the loop over [zip(ngramsInd, searchMe)]. *)
Definition search_step (np : nat) (st : list (list Z) * list str)
  (ig : nat * str) : list (list Z) * list str :=
  let indxs := HashSearch (hashP_p c) (hashP_x c) (sequence c) (snd ig) in
  let chars := following_chars np indxs in
  match np_unique chars with
  | [] => st
  | freqs0 =>
      (tabulate (fst ig) chars (fst st),
       snd st ++ map (fun a => snd ig ++ np_str a) freqs0)
  end.

(** [[ngrams.index(i) for i in ngramsRed]] *)
Definition ngram_indices (ngrams ngramsRed : list str) : result (list nat) :=
  mapR (fun g => match index_str g ngrams with
                 | Some i => OK i
                 | None => Err ValueError
                 end) ngramsRed.

(** The first half of the matrix and the found patterns. *)
Definition BuildPTP_counts (ngrams : list str) (ngramsRed : option (list str))
  : result (list (list Z) * list str) :=
  let PTP0 := map (fun _ => repeat 0%Z (length ngrams)) (alpha c) in
  np <- match ngrams with
        | [] => Err IndexError
        | g :: _ => OK (length g)
        end ;;
  si <- match ngramsRed with
        | None => OK (ngrams, seq 0 (length ngrams))
        | Some red => inds <- ngram_indices ngrams red ;; OK (red, inds)
        end ;;
  OK (fold_left (search_step np) (combine (snd si) (fst si)) (PTP0, [])).

(** [[i/t if t != 0 else 0.0 for i,t in zip(col,tots)]] *)
Definition rel_freqs (col tots : list Z) : list Q :=
  map (fun it : Z * Z =>
         if Z.eqb (snd it) 0 then 0%Q
         else fl64 (inject_Z (fst it) / inject_Z (snd it)))
    (combine col tots).

Definition BuildPTP (ngrams : list str) (ngramsRed : option (list str))
  : result (PTP * list str) :=
  cf <- BuildPTP_counts ngrams ngramsRed ;;
  let counts := fst cf in
  let tots := map Zsum (zip_star counts) in
  let rel := map (fun col => rel_freqs col tots) counts in
  OK (map (map inject_Z) counts ++ [map inject_Z tots] ++ rel, snd cf).

End BuildPTP.

(** ** BuildPTPs *)

(** The local variables of [BuildPTPs] that its loop updates; [bs_i] is
    the loop variable, unbound until the loop has run once. *)
Record build_state : Type := mkBuild {
  bs_i : option nat;
  bs_sparsT : SparsityTable;
  bs_fnd : list str;
  bs_PTPs : list PTP
}.

(** [r < t] *)
Definition ratio_ltb (r t : Q) : bool := negb (Qle_bool t r).

Section BuildPTPs.

Variable c : Config.

Definition initial_sparsT : SparsityTable :=
  let k := Z.to_nat (maxn_p c) in
  mkSparsity (repeat 0%Z k)
    (map (fun i => Z.of_nat (n_s c ^ i)) (seq 1 k))
    (repeat 0%Q k).

(** The loop [for i in range(0,self.maxn_p)] over the remaining values
    [idxs] of [i]; [break] returns the state at once. *)
Fixpoint BuildPTPs_loop (ngramS : list (list str)) (idxs : list nat)
  (st : build_state) : result build_state :=
  match idxs with
  | [] => OK st
  | i :: idxs' =>
      let sT := bs_sparsT st in
      let obs := Z.of_nat (unique_size (map (@removelast ascii) (bs_fnd st))) in
      let poss := nth i (Possible sT) 0%Z in
      if Z.eqb poss 0 then Err ZeroDivisionError
      else
        let ratio := fl64 (inject_Z obs / inject_Z poss) in
        let sT' := mkSparsity (set_nth i obs (Observed sT)) (Possible sT)
                     (set_nth i ratio (SI sT)) in
        if ratio_ltb ratio (t_np c)
        then OK (mkBuild (Some i) sT' (bs_fnd st) (bs_PTPs st))
        else
          ng <- match nth_error ngramS i with
                | Some ng => OK ng
                | None => Err IndexError
                end ;;
          pf <- BuildPTP c ng (Some (bs_fnd st)) ;;
          BuildPTPs_loop ngramS idxs'
            (mkBuild (Some i) sT' (snd pf) (bs_PTPs st ++ [fst pf]))
  end.

(** The body of [BuildPTPs] up to the final increment of [i]: the
    retained count and the state of the local variables. *)
Definition BuildPTPs_run : result (nat * build_state) :=
  let ngramS := MakenGrams_all (alpha c) (maxn_p c) in
  let fnd_ip1 := map np_str (np_unique (sequence c)) in
  st <- BuildPTPs_loop ngramS (seq 0 (Z.to_nat (maxn_p c)))
          (mkBuild None initial_sparsT fnd_ip1 []) ;;
  match bs_i st with
  | None => Err NameError
  | Some i =>
      let passed := negb (ratio_ltb (nth i (SI (bs_sparsT st)) 0%Q) (t_np c)) in
      OK ((i + if passed then 1 else 0)%nat, st)
  end.

(** [BuildPTPs]: the object after [__SetPTP__]. *)
Definition BuildPTPs : result Model :=
  ist <- BuildPTPs_run ;;
  let i := fst ist in
  let sT := bs_sparsT (snd ist) in
  OK (mkModel c i (bs_PTPs (snd ist))
        (firstn i (MakenGrams_all (alpha c) (maxn_p c)))
        (mkSparsity (firstn i (Observed sT)) (firstn i (Possible sT))
           (firstn i (SI sT)))).

End BuildPTPs.

(** ** Predict *)

(** [s[-k:]]: the last [k] symbols, and the whole of [s] when [k] is
    zero or exceeds the length. *)
Definition last_syms (k : nat) (s : str) : str :=
  if k =? 0 then s else skipn (length s - k) s.

Definition get {A} (l : list A) (i : nat) : result A :=
  match nth_error l i with
  | Some a => OK a
  | None => Err IndexError
  end.

Fixpoint Qmax_list (q : Q) (l : list Q) : Q :=
  match l with
  | [] => q
  | r :: l' => Qmax_list (if Qle_bool r q then q else r) l'
  end.

(** [l.index(q)] on a list of numbers; [length l] when absent. *)
Fixpoint index_Q (q : Q) (l : list Q) : nat :=
  match l with
  | [] => 0
  | r :: l' => if Qeq_bool r q then 0 else S (index_Q q l')
  end.

Section Predict.

Variable m : Model.

Let c := conf m.

(** One pass of the loop over [range(w)]: the relative frequencies of
    the row just found are appended and [w] loses one when the row's
    total is zero. *)
Definition gather_step (predStart : str) (st : list (list Q) * Z) (i : nat)
  : result (list (list Q) * Z) :=
  let seqEnd := last_syms (i + 1) predStart in
  ng <- get (ngrams m) i ;;
  nxtRow <- match index_str seqEnd ng with
            | Some r => OK r
            | None => Err ValueError
            end ;;
  P <- get (PTPs m) i ;;
  row <- mapR (fun col => get col nxtRow) (skipn (n_s c + 1) P) ;;
  totcol <- get P (n_s c) ;;
  tot <- get totcol nxtRow ;;
  OK (fst st ++ [row], (snd st - if Qeq_bool tot 0 then 1 else 0)%Z).

Fixpoint gather (predStart : str) (idxs : list nat)
  (st : list (list Q) * Z) : result (list (list Q) * Z) :=
  match idxs with
  | [] => OK st
  | i :: idxs' =>
      st' <- gather_step predStart st i ;; gather predStart idxs' st'
  end.

(** [[sum(i)/w for i in zip( *alphaProbs)]].  When [w] is zero every row
    gathered had total zero, so [w] is still a Python integer and the
    sums are Python floats: the division raises [ZeroDivisionError]. *)
Definition average (rows : list (list Q)) (w : Z) : result (list Q) :=
  mapR (fun col => if Z.eqb w 0 then Err ZeroDivisionError
                   else OK (fl64 (fsum col / inject_Z w)))
    (zip_star rows).

Definition Predict (predStart : option str) : result (symbol * list Q) :=
  let pw := match predStart with
            | None => (last_syms (n_p m) (sequence c), n_p m)
            | Some ps => (ps, Nat.min (length ps) (n_p m))
            end in
  gw <- gather (fst pw) (seq 0 (snd pw)) ([], Z.of_nat (snd pw)) ;;
  alphaProbs <- average (fst gw) (snd gw) ;;
  match alphaProbs with
  | [] => Err ValueError
  | q :: qs =>
      a <- get (alpha c) (index_Q (Qmax_list q qs) alphaProbs) ;;
      OK (a, alphaProbs)
  end.

End Predict.

(** ** Simulate *)

(** [np.cumsum] on floats: every partial sum is rounded. *)
Fixpoint cumsum_from (acc : Q) (l : list Q) : list Q :=
  match l with
  | [] => []
  | q :: l' => fl64 (acc + q) :: cumsum_from (fl64 (acc + q)) l'
  end.

Definition cumsum (l : list Q) : list Q := cumsum_from 0%Q l.

(** The memo [subSeqs], a dictionary keyed by the subsequence. *)
Fixpoint lookup_str {A} (k : str) (d : list (str * A)) : option A :=
  match d with
  | [] => None
  | (k', v) :: d' => if str_eqb k' k then Some v else lookup_str k d'
  end.

Section Simulate.

Variable m : Model.

Let c := conf m.

(** The lambda [simOne]: the first symbol whose cumulated probability
    reaches [rnd]. *)
Definition simOne (rnd : Q) (prbs : list Q) : result symbol :=
  match filter (fun ap : symbol * Q => Qle_bool rnd (snd ap))
          (combine (alpha c) prbs) with
  | [] => Err IndexError
  | ap :: _ => OK (fst ap)
  end.

(** The loop [for i in range(1,nstar)] over the remaining values of [i]
    and of [rnds[i]]. *)
Fixpoint simulate_loop (irnds : list (nat * Q))
  (st : str * list (str * list Q)) : result str :=
  match irnds with
  | [] => OK (fst st)
  | (i, rnd) :: irnds' =>
      let subSeq := last_syms (Nat.min i (n_p m)) (fst st) in
      pd <- match lookup_str subSeq (snd st) with
            | Some probs => OK (probs, snd st)
            | None =>
                sp <- Predict m (Some subSeq) ;;
                OK (snd sp, (subSeq, snd sp) :: snd st)
            end ;;
      a <- simOne rnd (cumsum (fst pd)) ;;
      simulate_loop irnds' (fst st ++ [a], snd pd)
  end.

(** [Simulate(nstar)], the variates drawn by [np.random.rand(nstar)]
    being [rnds]; [nstar] is their number. *)
Definition Simulate (rnds : list Q) : result str :=
  let nstar := length rnds in
  sp <- Predict m None ;;
  rnd0 <- get rnds 0 ;;
  a <- simOne rnd0 (cumsum (snd sp)) ;;
  simulate_loop (combine (seq 1 (nstar - 1)) (tl rnds)) ([a], []).

End Simulate.

(** ** Distance *)

(** A numpy array of two dimensions, by rows. *)
Abbreviation matrix := (list (list Q)) (only parsing).

Definition zeros (rows cols : nat) : matrix := repeat (repeat 0%Q cols) rows.

Definition n_cols (a : matrix) : nat :=
  match a with
  | [] => 0
  | r :: _ => length r
  end.

Definition shape_eqb (a b : matrix) : bool :=
  (length a =? length b) && (n_cols a =? n_cols b).

(** [tmp[:r,:c] = a] on [tmp = zeros(rows, cols)], for [a] of shape
    [(r, c)]: the entries of [a] in the upper left corner. *)
Definition embed (rows cols : nat) (a : matrix) : matrix :=
  map (fun i =>
         map (fun j => nth j (nth i a []) 0%Q) (seq 0 cols))
    (seq 0 rows).

Definition sum_abs_diff (a b : matrix) : Q :=
  Qsum (map (fun rr : list Q * list Q =>
               Qsum (map (fun xy : Q * Q => Qabs (fst xy - snd xy))
                       (combine (fst rr) (snd rr))))
          (combine a b)).

Section Distance.

Variables self otherSPR : Model.

Let Ns := Nat.max (n_s (conf self)) (n_s (conf otherSPR)).
Let Np := Nat.max (n_p self) (n_p otherSPR).

(** The block of relative frequencies of scale [k] of [who], as the two
    [try] blocks compute it.  An absent matrix is a block of zeros (the
    [IndexError] is caught); an array that does not fit the block it is
    copied into, or is not rectangular, is a [ValueError]. *)
Definition rel_block (who : Model) (k : nat) : result matrix :=
  let cols := Ns ^ (k + 1) in
  match nth_error (PTPs who) k with
  | None => OK (zeros Ns cols)
  | Some P =>
      let mine := skipn (n_s (conf who) + 1) P in
      if negb (forallb (fun r => length r =? n_cols mine) mine)
      then Err ValueError
      else if n_s (conf who) <? Ns then
        match mine with
        | [] => OK (zeros Ns cols)
        | _ =>
            if (length mine <=? Ns) && (n_cols mine <=? cols)
            then OK (embed Ns cols mine)
            else Err ValueError
        end
      else OK mine
  end.

(** One pass of the loop over [range(Np)]. *)
Definition distance_step (diff : Q) (k : nat) : result Q :=
  mine <- rel_block self k ;;
  his <- rel_block otherSPR k ;;
  if shape_eqb his mine then OK (diff + sum_abs_diff his mine)%Q
  else Err ValueError.

Fixpoint distance_loop (ks : list nat) (diff : Q) : result Q :=
  match ks with
  | [] => OK diff
  | k :: ks' => d <- distance_step diff k ;; distance_loop ks' d
  end.

Definition Distance : result Q := distance_loop (seq 0 Np) 0%Q.

End Distance.

(** ** Vocabulary of the properties *)

(** All the strings of length [k] over the symbols [s], the first symbol
    varying slowest. *)
Fixpoint all_patterns (s : list symbol) (k : nat) : list str :=
  match k with
  | 0 => [[]]
  | S k' => flat_map (fun a => map (cons a) (all_patterns s k')) s
  end.

(** The position of a symbol in the declared order of an alphabet. *)
Fixpoint position (a : symbol) (al : list symbol) : nat :=
  match al with
  | [] => 0
  | b :: al' => if sym_eqb b a then 0 else S (position a al')
  end.

(** The lexicographic order on strings induced by the order of the
    symbols in [al]. *)
Fixpoint lex_ltb (al : list symbol) (u v : str) : bool :=
  match u, v with
  | _, [] => false
  | [], _ :: _ => true
  | a :: u', b :: v' =>
      if position a al <? position b al then true
      else if position b al <? position a al then false
      else lex_ltb al u' v'
  end.

Definition lex_lt (al : list symbol) (u v : str) : Prop :=
  lex_ltb al u v = true.

(** The prefixes of length [k] of the strings of [l], without
    duplicates. *)
Definition prefixes (k : nat) (l : list str) : list str :=
  distinct_strs (map (firstn k) l).

(** A list of symbols in ascending order of character codes. *)
Definition ascending (l : list symbol) : Prop :=
  StronglySorted (fun a b => code a <= code b) l.

(** The symbols of [s], each [k] times over. *)
Definition spread (k : nat) (s : list symbol) : list symbol :=
  flat_map (fun a => repeat a k) s.

(** The value of a window as a polynomial in [x], not reduced. *)
Definition poly_value (x : Z) (w : str) : Z :=
  fold_left (fun h c => (h * x + Z.of_nat (code c))%Z) w 0%Z.

(** The direct scan: the start indices [i] with [i + L <= N], in
    increasing order, at which the window equals the pattern. *)
Definition naive_search (s pattern : str) : list nat :=
  filter (fun i => str_eqb (window s i (length pattern)) pattern)
    (seq 0 (length s + 1 - length pattern)).

(** The cells of a PTP matrix for an alphabet of [S] symbols: the count
    of symbol [j] after ngram [r], the total of the row [r], and the
    relative frequency of symbol [j] after ngram [r]. *)
Definition count_at (P : PTP) (j r : nat) : Q := nth r (nth j P []) 0%Q.
Definition total_at (S : nat) (P : PTP) (r : nat) : Q := nth r (nth S P []) 0%Q.
Definition relfreq_at (S : nat) (P : PTP) (j r : nat) : Q :=
  nth r (nth (S + 1 + j) P []) 0%Q.

(** The shape of a PTP matrix for [S] symbols and [rows] ngrams. *)
Definition PTP_shape (S rows : nat) (P : PTP) : Prop :=
  length P = S + 1 + S /\ Forall (fun col => length col = rows) P.

(** The invariant of the row [r] of a PTP matrix: the counts are not
    negative and sum to the total; when the total is positive every
    relative frequency is the double nearest to the count over the total
    and lies between 0 and 1, and their sum is 1 up to [2^-53] (the
    total being at most [2^53], as the number of symbols of a sequence
    is); when the total is zero every relative frequency is zero. *)
Definition PTP_row_invariant (S : nat) (P : PTP) (r : nat) : Prop :=
  (Qsum (map (fun j => count_at P j r) (seq 0 S)) == total_at S P r)%Q
  /\ (forall j, j < S -> (0 <= count_at P j r)%Q)
  /\ ((0 < total_at S P r)%Q ->
      (forall j, j < S ->
         relfreq_at S P j r = fl64 (count_at P j r / total_at S P r)
         /\ (0 <= relfreq_at S P j r <= 1)%Q)
      /\ ((total_at S P r <= inject_Z (2 ^ 53))%Q ->
          (Qabs (Qsum (map (fun j => relfreq_at S P j r) (seq 0 S)) - 1)
           <= pow2 (-53))%Q))
  /\ ((total_at S P r == 0)%Q ->
      forall j, j < S -> relfreq_at S P j r = 0%Q).

(** The invariant of a PTP matrix for [S] symbols and [rows] ngrams: its
    shape and the invariant of each of its rows. *)
Definition PTP_invariant (S rows : nat) (P : PTP) : Prop :=
  PTP_shape S rows P /\ forall r, r < rows -> PTP_row_invariant S P r.

(** The shape of the first half of a PTP matrix. *)
Definition counts_shape (S rows : nat) (counts : list (list Z)) : Prop :=
  length counts = S /\ Forall (fun col => length col = rows) counts.

(** [P] is the matrix that [BuildPTP] returns for the [k]-th list of
    [ngramS]. *)
Definition built_from (c : Config) (ngramS : list (list str)) (k : nat)
  (P : PTP) : Prop :=
  exists ng red fnd,
    nth_error ngramS k = Some ng /\ BuildPTP c ng red = OK (P, fnd).

(** The outcome of the loop of [BuildPTPs] over the lengths [a+1] to
    [a+len]: left by [break] at index [b], or run to its end. *)
Definition loop_outcome (c : Config) (a len : nat) (st st' : build_state)
  : Prop :=
  let si := SI (bs_sparsT st') in
  (exists b, a <= b < a + len
             /\ bs_i st' = Some b
             /\ ratio_ltb (nth b si 0%Q) (t_np c) = true
             /\ (forall j, j < b -> ratio_ltb (nth j si 0%Q) (t_np c) = false)
             /\ length (bs_PTPs st') = b)
  \/ (bs_i st' = (if len =? 0 then bs_i st else Some (a + len - 1))
      /\ (forall j, j < a + len ->
                    ratio_ltb (nth j si 0%Q) (t_np c) = false)
      /\ length (bs_PTPs st') = a + len).

(** The symbols that follow the occurrences of [g] in the sequence,
    [np] symbols after their start. *)
Definition followers (c : Config) (np : nat) (g : str) : list symbol :=
  following_chars c np (HashSearch (hashP_p c) (hashP_x c) (sequence c) g).

(** A block of [rows] rows of [cols] entries. *)
Definition block_shape (rows cols : nat) (b : list (list Q)) : Prop :=
  length b = rows /\ Forall (fun r => length r = cols) b.

(** The rows of the sparsity table below [a]: each ratio is the double
    nearest to the observed count over the possible count, and the first
    observed count is that of the distinct empty prefixes. *)
Definition table_rows (c : Config) (st : build_state) (a : nat)
  : Prop :=
  (forall j, j < a ->
     nth j (SI (bs_sparsT st)) 0%Q
     = fl64 (inject_Z (nth j (Observed (bs_sparsT st)) 0%Z)
             / inject_Z (nth j (Possible (bs_sparsT st)) 0%Z)))
  /\ (1 <= a ->
      nth 0 (Observed (bs_sparsT st)) 0%Z
      = match sequence c with [] => 0%Z | _ => 1%Z end).

(** The number of distinct patterns of length [k] that occur in the
    sequence followed by a symbol: the observed count of the length
    [k+1], 1 for [k = 0] and a sequence that is not empty. *)
Definition observed_count (c : Config) (k : nat) : nat :=
  length (distinct_strs (map (fun i => window (sequence c) i k)
                           (seq 0 (n c - k)))).

(** The sparsity ratio of the length [k+1]: the observed count over
    [S^(k+1)], as the double that the division returns. *)
Definition sparsity_ratio (c : Config) (k : nat) : Q :=
  fl64 (inject_Z (Z.of_nat (observed_count c k))
        / inject_Z (Z.of_nat (n_s c ^ (k + 1)))).

(** Whether [BuildPTP] searches the ngram [g]: every ngram without
    [ngramsRed], the ngrams of [ngramsRed] with it. *)
Definition searched (ngramsRed : option (list str)) (g : str) : bool :=
  match ngramsRed with
  | None => true
  | Some red => mem_str g red
  end.

(** The number of windows of [s] that equal [u]. *)
Definition occurrences (s u : str) : nat := length (naive_search s u).

(** [u] is a window of [s]. *)
Definition occurs (s u : str) : Prop :=
  exists k, k + length u <= length s /\ window s k (length u) = u.

(** [P] is the matrix of the search of every ngram of the [k]-th list of
    [ngramS]. *)
Definition full_matrix (c : Config) (ngramS : list (list str)) (k : nat)
  (P : PTP) : Prop :=
  exists ng fnd,
    nth_error ngramS k = Some ng /\ BuildPTP c ng None = OK (P, fnd).

(** The loop of [Simulate] without the memo [subSeqs]: [Predict] is
    called at every pass. *)
Fixpoint simulate_direct (m : Model) (irnds : list (nat * Q)) (Sstar : str)
  : result str :=
  match irnds with
  | [] => OK Sstar
  | (i, rnd) :: irnds' =>
      sp <- Predict m (Some (last_syms (Nat.min i (n_p m)) Sstar)) ;;
      a <- simOne m rnd (cumsum (snd sp)) ;;
      simulate_direct m irnds' (Sstar ++ [a])
  end.

Definition Simulate_direct (m : Model) (rnds : list Q) : result str :=
  sp <- Predict m None ;;
  rnd0 <- get rnds 0 ;;
  a <- simOne m rnd0 (cumsum (snd sp)) ;;
  simulate_direct m (combine (seq 1 (length rnds - 1)) (tl rnds)) [a].

(** Every entry of the memo is what [Predict] returns for its key. *)
Definition memo_sound (m : Model) (memo : list (str * list Q)) : Prop :=
  forall k v, lookup_str k memo = Some v ->
              exists a, Predict m (Some k) = OK (a, v).

(** The relative frequency at row [i] (a symbol) and column [j] (an
    ngram) of scale [k] of a model; zero outside the matrix and for a
    scale that is not retained. *)
Definition rel_entry (who : Model) (k i j : nat) : Q :=
  match nth_error (PTPs who) k with
  | None => 0%Q
  | Some P => nth j (nth i (skipn (n_s (conf who) + 1) P) []) 0%Q
  end.

(** The absolute differences of the relative frequencies of two models
    summed over [Np] scales, [Ns] rows and [Ns^(k+1)] columns. *)
Definition box_distance (A B : Model) (Np Ns : nat) : Q :=
  Qsum (map (fun k =>
          Qsum (map (fun i =>
            Qsum (map (fun j =>
                         Qabs (rel_entry B k i j - rel_entry A k i j))
                    (seq 0 (Ns ^ (k + 1)))))
            (seq 0 Ns)))
    (seq 0 Np)).

(** ** Examples *)

(** The alphabet a, b and the sequence abab, lengths up to 3 and the
    threshold 1/3: the ratios are 1/2, 2/4 and 2/8, so the build stops at
    length 3. *)
Definition abab_config : Config :=
  mkConfig ["a"; "b"]%char ["a"; "b"; "a"; "b"]%char 3 (1 # 3) 4241 42.

Definition empty_model (c : Config) : Model :=
  mkModel c 0 [] [] (mkSparsity [] [] []).

Definition abab_model : Model :=
  Eval vm_compute in
    match BuildPTPs abab_config with
    | inr m => m
    | inl _ => empty_model abab_config
    end.

(** The alphabet a, b and a sequence in which b is followed once by the
    symbol x, which is not in the alphabet. *)
Definition foreign_config : Config :=
  mkConfig ["a"; "b"]%char ["a"; "b"; "x"; "a"; "b"; "a"]%char 2 (1 # 10) 4241 42.

Definition foreign_ngrams : list str := [["a"%char]; ["b"%char]].

Definition foreign_result : PTP * list str :=
  Eval vm_compute in
    match BuildPTP foreign_config foreign_ngrams None with
    | inr pf => pf
    | inl _ => ([], [])
    end.

(** The same matrix with the search restricted to the ngram a. *)
Definition foreign_pruned : PTP * list str :=
  Eval vm_compute in
    match BuildPTP foreign_config foreign_ngrams (Some [["a"%char]]) with
    | inr pf => pf
    | inl _ => ([], [])
    end.

(** The alphabet a, b and the sequence ab, one scale: the last symbol b
    is followed by nothing, so its row has total zero. *)
Definition degenerate_config : Config :=
  mkConfig ["a"; "b"]%char ["a"; "b"]%char 1 (1 # 10) 4241 42.

Definition degenerate_model : Model :=
  Eval vm_compute in
    match BuildPTPs degenerate_config with
    | inr m => m
    | inl _ => empty_model degenerate_config
    end.

(** The alphabet a, b and the sequence of b followed by NUL. *)
Definition nul_config : Config :=
  mkConfig ["a"; "b"]%char ["b"%char; zero] 1 (1 # 10) 4241 42.

(** The alphabet a, b, c and a sequence in which a is followed once by
    a, four times by b and once by c. *)
Definition sixths_config : Config :=
  mkConfig ["a"; "b"; "c"]%char
    (list_ascii_of_string "aababababac") 1 (1 # 10) 4241 42.

Definition sixths_ngrams : list str := [["a"%char]; ["b"%char]; ["c"%char]].

Definition sixths_result : PTP * list str :=
  Eval vm_compute in
    match BuildPTP sixths_config sixths_ngrams None with
    | inr pf => pf
    | inl _ => ([], [])
    end.

(** The alphabet a, b, c, d and a sequence that ends with a, in which a
    is followed once by a, four times by b, once by c and once by d. *)
Definition sevenths_config : Config :=
  mkConfig ["a"; "b"; "c"; "d"]%char
    (list_ascii_of_string "aababababacada") 1 (1 # 10) 4241 42.

Definition sevenths_model : Model :=
  Eval vm_compute in
    match BuildPTPs sevenths_config with
    | inr m => m
    | inl _ => empty_model sevenths_config
    end.

(** The demonstration of [SPR.py], with lengths up to 3. *)
Definition abc_config : Config :=
  mkConfig ["a"; "b"; "c"]%char
    (list_ascii_of_string "aabcabccbabcabcbaabc") 3 (1 # 10) 4241 42.

Definition abc_model : Model :=
  Eval vm_compute in
    match BuildPTPs abc_config with
    | inr m => m
    | inl _ => empty_model abc_config
    end.

(** The value of a distance that is computed. *)
Definition distance_value (r : result Q) : Q :=
  match r with
  | inr d => d
  | inl _ => 0%Q
  end.

(** * Properties *)

(** ** Binary64 arithmetic *)

Lemma pow2_pos (e : Z) : (0 < pow2 e)%Q.
Proof. apply Qpower_0_lt; reflexivity. Qed.

Lemma pow2_add (a b : Z) : (pow2 (a + b) == pow2 a * pow2 b)%Q.
Proof. apply Qpower_plus; discriminate. Qed.

Lemma pow2_le (a b : Z) : (a <= b)%Z -> (pow2 a <= pow2 b)%Q.
Proof. intros H; apply Qpower_le_compat_l; [exact H | discriminate]. Qed.

Lemma pow2_lt (a b : Z) : (a < b)%Z -> (pow2 a < pow2 b)%Q.
Proof. intros H; apply Qpower_lt_compat_l; [exact H | reflexivity]. Qed.

Lemma pow2_lt_inv (a b : Z) : (pow2 a < pow2 b)%Q -> (a < b)%Z.
Proof. intros H; apply (Qpower_lt_compat_l_inv 2); [exact H | reflexivity]. Qed.

Lemma pow2_Z (n : Z) : (0 <= n)%Z -> (pow2 n == inject_Z (2 ^ n))%Q.
Proof. intros H; unfold pow2; rewrite Zpower_Qpower by exact H; reflexivity. Qed.

Lemma pow2_succ (a : Z) : (pow2 (a + 1) == 2 * pow2 a)%Q.
Proof. rewrite pow2_add; change (pow2 1) with 2%Q; ring. Qed.

(** The quotient by a power of two, as a product. *)
Lemma div_pow2 (q : Q) (e : Z) : (q / pow2 e == q * pow2 (- e))%Q.
Proof.
  unfold Qdiv; apply Qmult_comp; [reflexivity|].
  unfold pow2; rewrite Qpower_opp; reflexivity.
Qed.

Lemma ilog2_spec (q : Q) :
  (0 < q)%Q -> (pow2 (ilog2 q) <= q)%Q /\ (q < pow2 (ilog2 q + 1))%Q.
Proof.
  intros Hq; destruct q as [a b].
  assert (Ha : (0 < a)%Z).
  { unfold Qlt in Hq; simpl in Hq; lia. }
  unfold ilog2; cbn [Qnum Qden].
  set (la := Z.log2 a); set (lb := Z.log2 (Z.pos b)).
  destruct (Z.log2_spec a Ha) as [Ha1 Ha2]; fold la in Ha1, Ha2.
  destruct (Z.log2_spec (Z.pos b) (Pos2Z.is_pos b)) as [Hb1 Hb2];
    fold lb in Hb1, Hb2.
  assert (Hla : (0 <= la)%Z) by apply Z.log2_nonneg.
  assert (Hlb : (0 <= lb)%Z) by apply Z.log2_nonneg.
  assert (Elow : (pow2 (la - lb - 1) < a # b)%Q).
  { assert (E : (pow2 la == pow2 (la - lb - 1) * pow2 (lb + 1))%Q).
    { rewrite <- pow2_add; apply Qpower_comp; [reflexivity | lia]. }
    rewrite pow2_Z in E by lia; rewrite (pow2_Z (n := lb + 1)) in E by lia.
    pose proof (pow2_pos (la - lb - 1)) as Hp.
    set (p := pow2 (la - lb - 1)) in *.
    assert (H1 : (inject_Z (2 ^ la) <= inject_Z a)%Q)
      by (rewrite <- Zle_Qle; exact Ha1).
    assert (H2 : (inject_Z (Z.pos b) < inject_Z (2 ^ (lb + 1)))%Q)
      by (rewrite <- Zlt_Qlt; unfold Z.succ in Hb2; exact Hb2).
    assert (H3 : (0 < inject_Z (Z.pos b))%Q) by reflexivity.
    rewrite (Qmake_Qdiv a b).
    apply Qlt_shift_div_l; [exact H3|].
    apply Qlt_le_trans with (p * inject_Z (2 ^ (lb + 1)))%Q.
    - apply Qmult_lt_l; [apply pow2_pos | exact H2].
    - rewrite <- E; exact H1. }
  assert (Ehigh : (a # b < pow2 (la - lb + 1))%Q).
  { assert (E : (pow2 (la + 1) == pow2 (la - lb + 1) * pow2 lb)%Q).
    { rewrite <- pow2_add; apply Qpower_comp; [reflexivity | lia]. }
    rewrite pow2_Z in E by lia; rewrite (pow2_Z (n := lb)) in E by lia.
    set (p := pow2 (la - lb + 1)) in *.
    assert (H1 : (inject_Z a < inject_Z (2 ^ (la + 1)))%Q)
      by (rewrite <- Zlt_Qlt; unfold Z.succ in Ha2; exact Ha2).
    assert (H2 : (inject_Z (2 ^ lb) <= inject_Z (Z.pos b))%Q)
      by (rewrite <- Zle_Qle; exact Hb1).
    assert (H3 : (0 < inject_Z (Z.pos b))%Q) by reflexivity.
    rewrite (Qmake_Qdiv a b).
    apply Qlt_shift_div_r; [exact H3|].
    apply Qlt_le_trans with (inject_Z (2 ^ (la + 1))); [exact H1|].
    rewrite E; apply Qmult_le_l; [apply pow2_pos | exact H2]. }
  destruct (Qle_bool (pow2 (la - lb)) (a # b)) eqn:Eb.
  - apply Qle_bool_iff in Eb; split; assumption.
  - assert (Hlt : (a # b < pow2 (la - lb))%Q).
    { apply Qnot_le_lt; intros H; apply Qle_bool_iff in H; congruence. }
    split.
    + apply Qlt_le_weak; exact Elow.
    + replace (la - lb - 1 + 1)%Z with (la - lb)%Z by lia; exact Hlt.
Qed.

Lemma ilog2_unique (q : Q) (l : Z) :
  (pow2 l <= q)%Q -> (q < pow2 (l + 1))%Q -> ilog2 q = l.
Proof.
  intros H1 H2.
  assert (Hq : (0 < q)%Q).
  { apply Qlt_le_trans with (pow2 l); [apply pow2_pos | exact H1]. }
  destruct (ilog2_spec Hq) as [H3 H4].
  assert (A : (l < ilog2 q + 1)%Z).
  { apply pow2_lt_inv; apply Qle_lt_trans with q; assumption. }
  assert (B : (ilog2 q < l + 1)%Z).
  { apply pow2_lt_inv; apply Qle_lt_trans with q; assumption. }
  lia.
Qed.

Lemma ilog2_mono (q q' : Q) : (0 < q)%Q -> (q <= q')%Q -> (ilog2 q <= ilog2 q')%Z.
Proof.
  intros Hq Hle.
  assert (Hq' : (0 < q')%Q) by (apply Qlt_le_trans with q; assumption).
  destruct (ilog2_spec Hq) as [H1 _]; destruct (ilog2_spec Hq') as [_ H2].
  assert (A : (ilog2 q < ilog2 q' + 1)%Z).
  { apply pow2_lt_inv; apply Qle_lt_trans with q; [exact H1|].
    apply Qle_lt_trans with q'; assumption. }
  lia.
Qed.

Lemma round_half_even_comp (q q' : Q) :
  (q == q')%Q -> round_half_even q = round_half_even q'.
Proof.
  intros E; unfold round_half_even.
  rewrite (Qfloor_comp _ _ E).
  assert (E' : (q - inject_Z (Qfloor q') == q' - inject_Z (Qfloor q'))%Q)
    by (rewrite E; reflexivity).
  rewrite (Qcompare_comp _ _ E' (1 # 2) (1 # 2) (Qeq_refl _)); reflexivity.
Qed.

Lemma round_half_even_Z (z : Z) : round_half_even (inject_Z z) = z.
Proof.
  unfold round_half_even; rewrite Qfloor_Z.
  assert (E : (inject_Z z - inject_Z z ?= 1 # 2)%Q = Lt).
  { apply Qlt_alt.
    assert (H : (inject_Z z - inject_Z z == 0)%Q) by ring.
    rewrite H; reflexivity. }
  rewrite E; reflexivity.
Qed.

Lemma round_half_even_floor (q : Q) :
  (Qfloor q <= round_half_even q <= Qfloor q + 1)%Z.
Proof.
  unfold round_half_even; destruct (Qcompare _ _); [|lia|lia].
  destruct (Z.even _); lia.
Qed.

Lemma round_half_even_mono (q q' : Q) :
  (q <= q')%Q -> (round_half_even q <= round_half_even q')%Z.
Proof.
  intros Hle.
  pose proof (Qfloor_resp_le _ _ Hle) as Hf.
  pose proof (round_half_even_floor q) as B.
  pose proof (round_half_even_floor q') as B'.
  destruct (Z.eq_dec (Qfloor q) (Qfloor q')) as [E|E]; [|lia].
  unfold round_half_even in *; rewrite <- E in *.
  set (f := Qfloor q) in *.
  assert (Hr : (q - inject_Z f <= q' - inject_Z f)%Q).
  { apply Qplus_le_l with (z := inject_Z f).
    ring_simplify; exact Hle. }
  destruct (Qcompare_spec (q - inject_Z f) (1 # 2)) as [C|C|C];
    destruct (Qcompare_spec (q' - inject_Z f) (1 # 2)) as [C'|C'|C'];
    try (destruct (Z.even f)); try lia; exfalso; lra.
Qed.

Lemma round_half_even_error (q : Q) :
  (Qabs (inject_Z (round_half_even q) - q) <= 1 # 2)%Q.
Proof.
  pose proof (Qfloor_le q) as H1; pose proof (Qlt_floor q) as H2.
  rewrite inject_Z_plus in H2; change (inject_Z 1) with 1%Q in H2.
  unfold round_half_even; set (f := Qfloor q) in *.
  apply Qabs_Qle_condition.
  destruct (Qcompare_spec (q - inject_Z f) (1 # 2)) as [C|C|C].
  - assert (Hq : (q == inject_Z f + (1 # 2))%Q) by (rewrite <- C; ring).
    destruct (Z.even f).
    + split; lra.
    + rewrite inject_Z_plus; change (inject_Z 1) with 1%Q; split; lra.
  - split; lra.
  - rewrite inject_Z_plus; change (inject_Z 1) with 1%Q; split; lra.
Qed.

Lemma round_half_even_nonneg (q : Q) : (0 <= q)%Q -> (0 <= round_half_even q)%Z.
Proof.
  intros H; rewrite <- (round_half_even_Z 0).
  apply round_half_even_mono; exact H.
Qed.

(** The exponent of the last place of the double nearest to [q]. *)
Lemma fl64_pos_eq (q : Q) :
  (fl64_pos q
   == inject_Z (round_half_even (q / pow2 (Z.max (ilog2 q - 52) (-1074))))
      * pow2 (Z.max (ilog2 q - 52) (-1074)))%Q.
Proof. unfold fl64_pos; cbv zeta; apply Qred_correct. Qed.

Lemma scaled_lt (q : Q) (e : Z) :
  (0 < q)%Q -> (ilog2 q - 52 <= e)%Z -> (q / pow2 e < pow2 53)%Q.
Proof.
  intros Hq He; destruct (ilog2_spec Hq) as [_ H].
  apply Qlt_shift_div_r; [apply pow2_pos|].
  rewrite <- pow2_add.
  apply Qlt_le_trans with (pow2 (ilog2 q + 1)); [exact H|].
  apply pow2_le; lia.
Qed.

Lemma scaled_ge (q : Q) :
  (0 < q)%Q -> (pow2 52 <= q / pow2 (ilog2 q - 52))%Q.
Proof.
  intros Hq; destruct (ilog2_spec Hq) as [H _].
  apply Qle_shift_div_l; [apply pow2_pos|].
  rewrite <- pow2_add.
  replace (52 + (ilog2 q - 52))%Z with (ilog2 q) by lia; exact H.
Qed.

Lemma mantissa_le (q : Q) (e : Z) :
  (0 < q)%Q -> (ilog2 q - 52 <= e)%Z ->
  (round_half_even (q / pow2 e) <= 2 ^ 53)%Z.
Proof.
  intros Hq He; rewrite <- (round_half_even_Z (2 ^ 53)).
  apply round_half_even_mono.
  rewrite <- pow2_Z by lia.
  apply Qlt_le_weak, scaled_lt; assumption.
Qed.

Lemma mantissa_ge (q : Q) :
  (0 < q)%Q -> (2 ^ 52 <= round_half_even (q / pow2 (ilog2 q - 52)))%Z.
Proof.
  intros Hq; rewrite <- (round_half_even_Z (2 ^ 52)) at 1.
  apply round_half_even_mono.
  rewrite <- pow2_Z by lia.
  apply scaled_ge; exact Hq.
Qed.

Lemma fl64_pos_nonneg (q : Q) : (0 < q)%Q -> (0 <= fl64_pos q)%Q.
Proof.
  intros Hq; rewrite fl64_pos_eq.
  apply Qmult_le_0_compat; [|apply Qlt_le_weak, pow2_pos].
  change 0%Q with (inject_Z 0); rewrite <- Zle_Qle.
  apply round_half_even_nonneg.
  apply Qle_shift_div_l; [apply pow2_pos|].
  rewrite Qmult_0_l; apply Qlt_le_weak; exact Hq.
Qed.

Lemma fl64_pos_mono (q q' : Q) :
  (0 < q)%Q -> (q <= q')%Q -> (fl64_pos q <= fl64_pos q')%Q.
Proof.
  intros Hq Hle.
  assert (Hq' : (0 < q')%Q) by (apply Qlt_le_trans with q; assumption).
  pose proof (ilog2_mono Hq Hle) as Hl.
  rewrite !fl64_pos_eq.
  set (e := Z.max (ilog2 q - 52) (-1074)).
  set (e' := Z.max (ilog2 q' - 52) (-1074)).
  destruct (Z.eq_dec e e') as [E|E].
  - rewrite <- E.
    apply Qmult_le_compat_r; [|apply Qlt_le_weak, pow2_pos].
    rewrite <- Zle_Qle; apply round_half_even_mono.
    apply Qmult_le_compat_r; [exact Hle|].
    apply Qlt_le_weak, Qinv_lt_0_compat, pow2_pos.
  - assert (He : (e < e')%Z) by (unfold e, e' in *; lia).
    assert (He' : e' = (ilog2 q' - 52)%Z) by (unfold e, e' in *; lia).
    apply Qle_trans with (pow2 53 * pow2 e)%Q.
    + apply Qmult_le_compat_r; [|apply Qlt_le_weak, pow2_pos].
      rewrite (@pow2_Z 53) by lia; rewrite <- Zle_Qle.
      apply mantissa_le; [exact Hq | unfold e; lia].
    + apply Qle_trans with (pow2 52 * pow2 e')%Q.
      * rewrite <- !pow2_add; apply pow2_le; lia.
      * apply Qmult_le_compat_r; [|apply Qlt_le_weak, pow2_pos].
        rewrite (@pow2_Z 52) by lia; rewrite <- Zle_Qle.
        rewrite He'; apply mantissa_ge; exact Hq'.
Qed.

Lemma fl64_comp (q q' : Q) : (q == q')%Q -> fl64 q = fl64 q'.
Proof.
  intros E; unfold fl64.
  rewrite (Qcompare_comp _ _ E 0%Q 0%Q (Qeq_refl 0%Q)).
  rewrite (Qred_complete _ _ E).
  assert (E' : (- q == - q')%Q) by (rewrite E; reflexivity).
  rewrite (Qred_complete _ _ E'); reflexivity.
Qed.

Lemma fl64_zero : fl64 0 = 0%Q.
Proof. reflexivity. Qed.

Lemma fl64_positive (q : Q) : (0 < q)%Q -> fl64 q = fl64_pos (Qred q).
Proof.
  intros Hq; unfold fl64.
  apply Qgt_alt in Hq; rewrite Hq; reflexivity.
Qed.

Lemma fl64_nonneg (q : Q) : (0 <= q)%Q -> (0 <= fl64 q)%Q.
Proof.
  intros Hq; apply Qle_lteq in Hq; destruct Hq as [Hq|Hq].
  - rewrite (fl64_positive Hq); apply fl64_pos_nonneg.
    rewrite Qred_correct; exact Hq.
  - rewrite <- (fl64_comp Hq); apply Qle_refl.
Qed.

Lemma fl64_mono (q q' : Q) :
  (0 <= q)%Q -> (q <= q')%Q -> (fl64 q <= fl64 q')%Q.
Proof.
  intros Hq Hle; apply Qle_lteq in Hq; destruct Hq as [Hq|Hq].
  - assert (Hq' : (0 < q')%Q) by (apply Qlt_le_trans with q; assumption).
    rewrite (fl64_positive Hq), (fl64_positive Hq').
    apply fl64_pos_mono; rewrite !Qred_correct; assumption.
  - rewrite <- (fl64_comp Hq); apply fl64_nonneg.
    rewrite Hq; exact Hle.
Qed.

(** The integers up to [2^53] are doubles. *)
Lemma fl64_Z (n : Z) :
  (0 <= n <= 2 ^ 53)%Z -> (fl64 (inject_Z n) == inject_Z n)%Q.
Proof.
  intros [H0 H1].
  destruct (Z.eq_dec n 0) as [->|Hn0]; [reflexivity|].
  destruct (Z.eq_dec n (2 ^ 53)) as [->|Hn1]; [vm_compute; reflexivity|].
  assert (Hn : (0 < n)%Z) by lia.
  assert (Hq : (0 < inject_Z n)%Q).
  { change 0%Q with (inject_Z 0); rewrite <- Zlt_Qlt; exact Hn. }
  rewrite (fl64_positive Hq), fl64_pos_eq.
  destruct (Z.log2_spec n Hn) as [L1 L2].
  assert (Hl0 : (0 <= Z.log2 n)%Z) by apply Z.log2_nonneg.
  assert (Hl1 : (Z.log2 n < 53)%Z).
  { apply Z.log2_lt_pow2; lia. }
  assert (El : ilog2 (Qred (inject_Z n)) = Z.log2 n).
  { apply ilog2_unique; rewrite Qred_correct, pow2_Z by lia.
    - rewrite <- Zle_Qle; exact L1.
    - rewrite <- Zlt_Qlt; unfold Z.succ in L2; exact L2. }
  rewrite El.
  replace (Z.max (Z.log2 n - 52) (-1074)) with (Z.log2 n - 52)%Z by lia.
  set (k := (52 - Z.log2 n)%Z).
  assert (Hk : (0 <= k)%Z) by (unfold k; lia).
  replace (Z.log2 n - 52)%Z with (- k)%Z by (unfold k; lia).
  assert (E : (Qred (inject_Z n) / pow2 (- k) == inject_Z (n * 2 ^ k))%Q).
  { rewrite Qred_correct, div_pow2, Z.opp_involutive, pow2_Z by exact Hk.
    rewrite inject_Z_mult; reflexivity. }
  rewrite (round_half_even_comp E), round_half_even_Z.
  rewrite inject_Z_mult, <- pow2_Z by exact Hk.
  rewrite <- Qmult_assoc, <- pow2_add.
  replace (k + - k)%Z with 0%Z by lia.
  change (pow2 0) with 1%Q; ring.
Qed.

Lemma fl64_one : fl64 1 = 1%Q.
Proof. reflexivity. Qed.

Lemma fl64_unit (q : Q) : (0 <= q <= 1)%Q -> (0 <= fl64 q <= 1)%Q.
Proof.
  intros [H0 H1]; split; [apply fl64_nonneg; exact H0|].
  apply Qle_trans with (fl64 1); [apply fl64_mono; assumption|].
  rewrite fl64_one; apply Qle_refl.
Qed.

(** The relative error of the rounding, in the range of the normal
    numbers. *)
Lemma fl64_error (q : Q) :
  (pow2 (-1022) <= q)%Q -> (Qabs (fl64 q - q) <= q * pow2 (-53))%Q.
Proof.
  intros Hn.
  assert (Hq : (0 < q)%Q).
  { apply Qlt_le_trans with (pow2 (-1022)); [apply pow2_pos | exact Hn]. }
  assert (Hr : (0 < Qred q)%Q) by (rewrite Qred_correct; exact Hq).
  rewrite (fl64_positive Hq), fl64_pos_eq.
  destruct (ilog2_spec Hr) as [L1 L2].
  assert (Hl : (-1022 <= ilog2 (Qred q))%Z).
  { assert (H : (-1022 < ilog2 (Qred q) + 1)%Z); [|lia].
    apply pow2_lt_inv; apply Qle_lt_trans with (Qred q); [|exact L2].
    rewrite Qred_correct; exact Hn. }
  replace (Z.max (ilog2 (Qred q) - 52) (-1074))
    with (ilog2 (Qred q) - 52)%Z by lia.
  set (e := (ilog2 (Qred q) - 52)%Z).
  pose proof (round_half_even_error (Qred q / pow2 e)) as He.
  set (m := inject_Z (round_half_even (Qred q / pow2 e))) in *.
  pose proof (pow2_pos e) as Hp.
  assert (E : (m * pow2 e - q == (m - Qred q / pow2 e) * pow2 e)%Q).
  { rewrite Qred_correct; field.
    intros H; rewrite H in Hp; exact (Qlt_irrefl 0%Q Hp). }
  rewrite E, Qabs_Qmult, (Qabs_pos (pow2 e)) by (apply Qlt_le_weak; exact Hp).
  apply Qle_trans with ((1 # 2) * pow2 e)%Q.
  - apply Qmult_le_compat_r; [exact He | apply Qlt_le_weak; exact Hp].
  - apply Qle_trans with (pow2 (ilog2 (Qred q)) * pow2 (-53))%Q.
    + rewrite <- pow2_add.
      replace (ilog2 (Qred q) + -53)%Z with (e + -1)%Z by (unfold e; lia).
      rewrite pow2_add; change (pow2 (-1)) with (1 # 2)%Q.
      rewrite Qmult_comm; apply Qle_refl.
    + apply Qmult_le_compat_r; [|apply Qlt_le_weak, pow2_pos].
      apply Qle_trans with (Qred q); [exact L1|].
      rewrite Qred_correct; apply Qle_refl.
Qed.

Lemma fl64_past_53 : fl64 (inject_Z (2 ^ 53) + 1) = inject_Z (2 ^ 53).
Proof. vm_compute; reflexivity. Qed.

(** ** Lists *)

Lemma sym_eqb_eq (a b : symbol) : sym_eqb a b = true <-> a = b.
Proof. apply Ascii.eqb_eq. Qed.

Lemma sym_eqb_refl (a : symbol) : sym_eqb a a = true.
Proof. apply Ascii.eqb_refl. Qed.

Lemma str_eqb_eq (u v : str) : str_eqb u v = true <-> u = v.
Proof.
  revert v; induction u as [|a u IH]; intros [|b v]; simpl;
    try solve [split; [discriminate | discriminate] | tauto].
  rewrite andb_true_iff, sym_eqb_eq, IH.
  split; [intros [-> ->]; reflexivity | intros H; inversion H; auto].
Qed.

Lemma str_eqb_refl (u : str) : str_eqb u u = true.
Proof. apply str_eqb_eq; reflexivity. Qed.

Lemma list_mul_succ {A} (l : list A) (k : nat) :
  list_mul l (S k) = l ++ list_mul l k.
Proof. reflexivity. Qed.

Lemma list_mul_add {A} (l : list A) (a b : nat) :
  list_mul l (a + b) = list_mul l a ++ list_mul l b.
Proof.
  induction a as [|a IH]; simpl; [reflexivity|].
  rewrite !list_mul_succ, IH, app_assoc; reflexivity.
Qed.

Lemma list_mul_mul {A} (l : list A) (a b : nat) :
  list_mul (list_mul l a) b = list_mul l (b * a).
Proof.
  induction b as [|b IH]; simpl; [reflexivity|].
  rewrite list_mul_succ, list_mul_add, IH; reflexivity.
Qed.

Lemma list_mul_length {A} (l : list A) (k : nat) :
  length (list_mul l k) = k * length l.
Proof.
  induction k as [|k IH]; simpl; [reflexivity|].
  rewrite list_mul_succ, length_app, IH; reflexivity.
Qed.

Lemma list_mul_one {A} (l : list A) : list_mul l 1 = l.
Proof. unfold list_mul; simpl; apply app_nil_r. Qed.

(** ** Sorting symbols *)

Lemma code_inj (a b : symbol) : code a = code b -> a = b.
Proof.
  unfold code; intros H.
  rewrite <- (ascii_nat_embedding a), <- (ascii_nat_embedding b), H.
  reflexivity.
Qed.

Lemma insert_sym_comm (a b : symbol) (l : list symbol) :
  insert_sym a (insert_sym b l) = insert_sym b (insert_sym a l).
Proof.
  induction l as [|x l IH]; simpl; unfold sym_leb.
  - destruct (Nat.leb_spec (code a) (code b)), (Nat.leb_spec (code b) (code a));
      try reflexivity; try lia.
    assert (a = b) by (apply code_inj; lia); subst; reflexivity.
  - destruct (Nat.leb_spec (code b) (code x)), (Nat.leb_spec (code a) (code x));
      simpl; unfold sym_leb;
      repeat match goal with
        | |- context [Nat.leb ?u ?v] => destruct (Nat.leb_spec u v)
        end; try reflexivity; try lia.
    + assert (a = b) by (apply code_inj; lia); subst; reflexivity.
    + rewrite IH; reflexivity.
Qed.

Lemma sort_syms_perm_eq (l l' : list symbol) :
  Permutation l l' -> sort_syms l = sort_syms l'.
Proof.
  induction 1; simpl; try congruence.
  apply insert_sym_comm.
Qed.

Lemma insert_sym_perm (a : symbol) (l : list symbol) :
  Permutation (insert_sym a l) (a :: l).
Proof.
  induction l as [|b l IH]; simpl; [reflexivity|].
  destruct (sym_leb a b); [reflexivity|].
  rewrite IH; apply perm_swap.
Qed.

Lemma sort_syms_perm (l : list symbol) : Permutation (sort_syms l) l.
Proof.
  induction l as [|a l IH]; simpl; [reflexivity|].
  rewrite insert_sym_perm, IH; reflexivity.
Qed.

Lemma insert_sym_ascending (a : symbol) (l : list symbol) :
  ascending l -> ascending (insert_sym a l).
Proof.
  unfold ascending; induction 1 as [|b l Hl IH Hb]; simpl.
  - repeat constructor.
  - unfold sym_leb; destruct (Nat.leb_spec (code a) (code b)).
    + constructor; [constructor; assumption|].
      constructor; [assumption|].
      eapply Forall_impl; [|exact Hb]; simpl; intros; lia.
    + constructor; [assumption|].
      eapply Permutation_Forall; [symmetry; apply insert_sym_perm|].
      constructor; [lia | assumption].
Qed.

Lemma sort_syms_ascending (l : list symbol) : ascending (sort_syms l).
Proof.
  induction l; simpl; [constructor | apply insert_sym_ascending; assumption].
Qed.

Lemma sort_syms_fixed (l : list symbol) : ascending l -> sort_syms l = l.
Proof.
  unfold ascending; induction 1 as [|a l Hl IH Ha]; simpl; [reflexivity|].
  rewrite IH; destruct l as [|b l]; [reflexivity|].
  simpl; unfold sym_leb.
  inversion Ha; subst.
  destruct (Nat.leb_spec (code a) (code b)); [reflexivity | lia].
Qed.

Lemma spread_length (k : nat) (s : list symbol) :
  length (spread k s) = length s * k.
Proof.
  unfold spread; induction s as [|a s IH]; simpl; [reflexivity|].
  rewrite length_app, repeat_length, IH; reflexivity.
Qed.

Lemma spread_ascending (k : nat) (s : list symbol) :
  ascending s -> ascending (spread k s).
Proof.
  unfold ascending, spread; induction 1 as [|a s Hs IH Ha]; simpl.
  - constructor.
  - generalize k at 1; intros j.
    induction j as [|j IHj]; simpl; [assumption|].
    constructor; [assumption|].
    apply Forall_app; split.
    + apply Forall_forall; intros b Hb.
      apply repeat_spec in Hb; subst; lia.
    + apply Forall_forall; intros b Hb.
      apply in_flat_map in Hb; destruct Hb as (b' & Hb' & Hb).
      apply repeat_spec in Hb; subst.
      rewrite Forall_forall in Ha; apply Ha; assumption.
Qed.

Lemma spread_perm (k : nat) (l : list symbol) :
  Permutation (list_mul l k) (spread k l).
Proof.
  induction k as [|k IH].
  - unfold spread; simpl; induction l; simpl; auto.
  - rewrite list_mul_succ, IH; clear IH.
    unfold spread; induction l as [|a l IHl]; simpl; [reflexivity|].
    constructor.
    rewrite <- IHl.
    rewrite !app_assoc; apply Permutation_app_tail.
    apply Permutation_app_comm.
Qed.

Lemma sort_list_mul (l : list symbol) (k : nat) :
  sort_syms (list_mul l k) = spread k (sort_syms l).
Proof.
  rewrite <- (sort_syms_fixed (spread_ascending k (sort_syms_ascending l))).
  apply sort_syms_perm_eq.
  rewrite spread_perm.
  unfold spread; apply Permutation_flat_map.
  symmetry; apply sort_syms_perm.
Qed.

(** ** Rows of columns *)

Lemma heads_app {A} (pqs : list (list A * list A)) :
  Forall (fun pq => fst pq <> []) pqs ->
  heads (map (fun pq => fst pq ++ snd pq) pqs) = heads (map fst pqs).
Proof.
  induction 1 as [|[u v] pqs Hu _ IH]; simpl; [reflexivity|].
  simpl in Hu; destruct u as [|a u]; [congruence|].
  simpl; rewrite IH; reflexivity.
Qed.

Lemma heads_some {A} (cols : list (list A)) :
  Forall (fun c => c <> []) cols -> exists r, heads cols = Some r.
Proof.
  induction 1 as [|c cols Hc _ [r IH]]; simpl; [eauto|].
  destruct c; [congruence|].
  rewrite IH; eauto.
Qed.

Lemma tl_app_map {A} (pqs : list (list A * list A)) :
  Forall (fun pq => fst pq <> []) pqs ->
  map (@tl A) (map (fun pq => fst pq ++ snd pq) pqs)
  = map (fun pq => fst pq ++ snd pq) (map (fun pq => (tl (fst pq), snd pq)) pqs).
Proof.
  induction 1 as [|[u v] pqs Hu _ IH]; simpl; [reflexivity|].
  simpl in Hu; destruct u as [|a u]; [congruence|].
  simpl; rewrite IH; reflexivity.
Qed.

Lemma zip_rows_app {A} (k1 k2 : nat) (pqs : list (list A * list A)) :
  Forall (fun pq => length (fst pq) = k1) pqs ->
  zip_rows (k1 + k2) (map (fun pq => fst pq ++ snd pq) pqs)
  = zip_rows k1 (map fst pqs) ++ zip_rows k2 (map snd pqs).
Proof.
  revert pqs; induction k1 as [|k1 IH]; intros pqs H.
  - simpl; f_equal.
    apply map_ext_in; intros [u v] Hin.
    rewrite Forall_forall in H; specialize (H _ Hin); simpl in *.
    destruct u; [reflexivity | discriminate].
  - assert (Hne : Forall (fun pq : list A * list A => fst pq <> []) pqs).
    { eapply Forall_impl; [|exact H]; intros [u v]; simpl.
      destruct u; [discriminate | congruence]. }
    simpl; rewrite heads_app by assumption.
    destruct (heads_some (cols := map fst pqs)) as [r Hr].
    { apply Forall_map; assumption. }
    rewrite Hr, tl_app_map by assumption.
    simpl; f_equal.
    rewrite IH.
    + rewrite !map_map; reflexivity.
    + apply Forall_map.
      eapply Forall_impl; [|exact H]; intros [u v]; simpl.
      destruct u; simpl; [discriminate | congruence].
Qed.

Lemma zip_rows_repeat {A} (a : A) (k : nat) (cs : list (list A)) :
  zip_rows k (repeat a k :: cs) = map (cons a) (zip_rows k cs).
Proof.
  revert cs; induction k as [|k IH]; intros cs; simpl; [reflexivity|].
  destruct (heads cs) as [r|]; simpl; [|reflexivity].
  rewrite IH; reflexivity.
Qed.

Lemma zip_rows_length {A} (k : nat) (cols : list (list A)) :
  Forall (fun c => length c = k) cols -> length (zip_rows k cols) = k.
Proof.
  revert cols; induction k as [|k IH]; intros cols H; simpl; [reflexivity|].
  destruct (heads_some (cols := cols)) as [r Hr].
  { eapply Forall_impl; [|exact H]; intros [|? ?]; simpl; congruence. }
  rewrite Hr; simpl; f_equal.
  apply IH, Forall_map.
  eapply Forall_impl; [|exact H]; intros [|? ?]; simpl; congruence.
Qed.

(** The rows of a column of [t], each symbol [k] times, put before
    columns of length [k] repeated as often as [t] has symbols. *)
Lemma zip_rows_blocks (t : list symbol) (k : nat) (cs : list (list symbol)) :
  Forall (fun c => length c = k) cs ->
  zip_rows (length t * k)
    (spread k t :: map (fun c => list_mul c (length t)) cs)
  = flat_map (fun a => map (cons a) (zip_rows k cs)) t.
Proof.
  intros H; induction t as [|a t IH]; simpl; [reflexivity|].
  rewrite <- IH, <- zip_rows_repeat.
  pose (pqs := (repeat a k, spread k t)
               :: map (fun c => (c, list_mul c (length t))) cs).
  assert (E1 : map fst pqs = repeat a k :: cs).
  { unfold pqs; simpl; rewrite map_map; simpl; rewrite map_id; reflexivity. }
  assert (E2 : map snd pqs
               = spread k t :: map (fun c => list_mul c (length t)) cs).
  { unfold pqs; simpl; rewrite map_map; reflexivity. }
  rewrite <- E1, <- E2, <- zip_rows_app.
  - unfold pqs; simpl; rewrite map_map; reflexivity.
  - unfold pqs; constructor; simpl; [apply repeat_length|].
    apply Forall_map; simpl; assumption.
Qed.

(** ** MakenGrams: the lists it builds *)

Section MakenGrams_facts.

Variable al : list symbol.

Let S_ := length al.
Let s := sort_syms al.

Lemma sorted_alphabet_length : length s = S_.
Proof. apply Permutation_length, sort_syms_perm. Qed.

Lemma ngram_column_eq (k cnt : nat) :
  ngram_column al k cnt = list_mul (spread (S_ ^ cnt) s) (S_ ^ (k - 1 - cnt)).
Proof. unfold ngram_column; rewrite sort_list_mul; reflexivity. Qed.

Lemma ngram_column_length (k cnt : nat) :
  cnt < k -> length (ngram_column al k cnt) = S_ ^ k.
Proof.
  intros H; rewrite ngram_column_eq, list_mul_length, spread_length.
  rewrite sorted_alphabet_length.
  replace k with ((k - 1 - cnt) + S cnt) at 2 by lia.
  rewrite Nat.pow_add_r; simpl; reflexivity.
Qed.

Lemma ngram_column_succ (k cnt : nat) :
  cnt < k -> ngram_column al (S k) cnt = list_mul (ngram_column al k cnt) S_.
Proof.
  intros H; rewrite !ngram_column_eq, list_mul_mul.
  replace (S k - 1 - cnt) with (S (k - 1 - cnt)) by lia.
  reflexivity.
Qed.

Lemma ngram_column_last (k : nat) :
  ngram_column al (S k) k = spread (S_ ^ k) s.
Proof.
  rewrite ngram_column_eq.
  replace (S k - 1 - k) with 0 by lia.
  apply list_mul_one.
Qed.

Lemma ngram_columns_succ (k : nat) :
  rev (ngram_columns al (S k))
  = spread (S_ ^ k) s
    :: map (fun c => list_mul c S_) (rev (ngram_columns al k)).
Proof.
  unfold ngram_columns.
  rewrite seq_S, map_app, rev_app_distr; simpl.
  rewrite ngram_column_last; f_equal.
  rewrite <- !map_rev, map_map.
  apply map_ext_in; intros cnt Hin.
  apply in_rev, in_seq in Hin.
  apply ngram_column_succ; lia.
Qed.

Lemma ngram_columns_lengths (k : nat) :
  Forall (fun c => length c = S_ ^ k) (ngram_columns al k).
Proof.
  unfold ngram_columns; apply Forall_map, Forall_forall; intros cnt Hin.
  apply in_seq in Hin.
  apply ngram_column_length; lia.
Qed.

Lemma rows_all_patterns (k : nat) :
  zip_rows (S_ ^ k) (rev (ngram_columns al k)) = all_patterns s k.
Proof.
  induction k as [|k IH]; [reflexivity|].
  rewrite ngram_columns_succ; simpl all_patterns.
  rewrite <- IH, <- sorted_alphabet_length.
  change (length s ^ S k) with (length s * length s ^ k).
  apply zip_rows_blocks.
  rewrite sorted_alphabet_length.
  apply Forall_rev, ngram_columns_lengths.
Qed.

Lemma join_columns_all_patterns (k : nat) :
  1 <= k -> join_columns (ngram_columns al k) = all_patterns s k.
Proof.
  destruct k as [|k]; [lia | intros _].
  rewrite <- rows_all_patterns.
  unfold join_columns; rewrite ngram_columns_succ.
  unfold zip_star.
  rewrite spread_length, sorted_alphabet_length.
  reflexivity.
Qed.

Lemma tear_down_columns (k : nat) :
  map (firstn (S_ ^ k)) (removelast (ngram_columns al (S k)))
  = ngram_columns al k.
Proof.
  unfold ngram_columns.
  rewrite seq_S, map_app; simpl.
  rewrite removelast_last, map_map.
  apply map_ext_in; intros cnt Hin.
  apply in_seq in Hin.
  rewrite ngram_column_succ by lia.
  rewrite <- (ngram_column_length (k := k) (cnt := cnt)) by lia.
  destruct S_ as [|j] eqn:E.
  - assert (Hl : length (ngram_column al k cnt) = 0).
    { rewrite ngram_column_length by lia. fold S_. rewrite E.
      apply Nat.pow_0_l; lia. }
    destruct (ngram_column al k cnt); [reflexivity | discriminate].
  - rewrite list_mul_succ, firstn_app, Nat.sub_diag, firstn_all; simpl.
    apply app_nil_r.
Qed.

Lemma tear_down_fold (k : nat) (acc : list (list str)) :
  fold_left (tear_down al) (rev (seq 2 k)) (ngram_columns al (2 + k), acc)
  = (ngram_columns al 2,
     acc ++ map (fun j => join_columns (ngram_columns al j)) (rev (seq 2 k))).
Proof.
  revert acc; induction k as [|k IH]; intros acc.
  - simpl; rewrite app_nil_r; reflexivity.
  - rewrite seq_S, rev_app_distr; simpl rev; simpl app.
    cbn [fold_left map].
    unfold tear_down at 2.
    change (2 + S k) with (S (2 + k)).
    rewrite tear_down_columns, IH, <- app_assoc; reflexivity.
Qed.

(** The value of [MakenGrams] in the all-lengths mode, for
    [maxn_p >= 2]: the alphabet as declared, then the patterns of
    lengths 2 to [maxn_p] over the sorted alphabet. *)
Lemma MakenGrams_all_eq (k : nat) :
  MakenGrams_all al (Z.of_nat (2 + k))
  = map (fun a => [a]) al
    :: map (all_patterns s) (seq 2 (S k)).
Proof.
  unfold MakenGrams_all, tear_down_range.
  replace (Z.to_nat (Z.of_nat (2 + k) - 2)) with k by lia.
  rewrite Nat2Z.id, tear_down_fold.
  rewrite rev_app_distr; simpl rev; simpl app.
  f_equal.
  rewrite <- map_rev, rev_involutive.
  rewrite seq_S, map_app; simpl.
  rewrite join_columns_all_patterns by lia.
  f_equal.
  apply map_ext_in; intros j Hin; apply in_seq in Hin.
  apply join_columns_all_patterns; lia.
Qed.

(** For [maxn_p = 1] the list of length 1 comes twice: as declared and
    sorted. *)
Lemma MakenGrams_all_1 :
  MakenGrams_all al 1 = [map (fun a => [a]) al; all_patterns s 1].
Proof.
  unfold MakenGrams_all, tear_down_range; simpl.
  change (Pos.to_nat 1) with 1.
  rewrite join_columns_all_patterns by lia; reflexivity.
Qed.

Lemma MakenGrams_all_nonpos (maxn : Z) :
  (maxn <= 0)%Z -> MakenGrams_all al maxn = [map (fun a => [a]) al; []].
Proof.
  intros H; unfold MakenGrams_all, tear_down_range.
  replace (Z.to_nat maxn) with 0 by lia.
  replace (Z.to_nat (maxn - 2)) with 0 by lia.
  reflexivity.
Qed.

Lemma MakenGrams_only_nonpos (maxn : Z) :
  (maxn <= 0)%Z -> MakenGrams_only al maxn = [].
Proof.
  intros H; unfold MakenGrams_only.
  replace (Z.to_nat maxn) with 0 by lia.
  reflexivity.
Qed.

End MakenGrams_facts.

(** ** All the patterns of a length *)

Lemma mem_str_In (u : str) (l : list str) : mem_str u l = true <-> In u l.
Proof.
  unfold mem_str; rewrite existsb_exists; split.
  - intros (v & Hv & E); apply str_eqb_eq in E; subst; assumption.
  - intros H; exists u; split; [assumption | apply str_eqb_refl].
Qed.

Lemma distinct_strs_In (u : str) (l : list str) :
  In u (distinct_strs l) <-> In u l.
Proof.
  induction l as [|v l IH]; simpl; [tauto|].
  destruct (mem_str v l) eqn:E; simpl; rewrite IH.
  - apply mem_str_In in E; split; [tauto|].
    intros [<-|H]; assumption.
  - tauto.
Qed.

Lemma distinct_strs_NoDup (l : list str) : NoDup (distinct_strs l).
Proof.
  induction l as [|v l IH]; simpl; [constructor|].
  destruct (mem_str v l) eqn:E; [assumption|].
  constructor; [|assumption].
  rewrite distinct_strs_In, <- mem_str_In, E; discriminate.
Qed.

Lemma all_patterns_length (s : list symbol) (k : nat) :
  length (all_patterns s k) = length s ^ k.
Proof.
  induction k as [|k IH]; simpl; [reflexivity|].
  rewrite <- IH; generalize (all_patterns s k); clear IH; intros l.
  induction s as [|a s IHs]; simpl; [reflexivity|].
  rewrite length_app, length_map; f_equal; exact IHs.
Qed.

Lemma in_all_patterns (s : list symbol) (k : nat) (u : str) :
  In u (all_patterns s k) <-> length u = k /\ Forall (fun a => In a s) u.
Proof.
  revert u; induction k as [|k IH]; intros u; simpl.
  - split.
    + intros [<-|[]]; auto.
    + intros [H _]; destruct u; [auto | discriminate].
  - rewrite in_flat_map; split.
    + intros (a & Ha & Hu); apply in_map_iff in Hu.
      destruct Hu as (v & <- & Hv); apply IH in Hv; destruct Hv as [Hl Hf].
      simpl; split; [congruence | constructor; assumption].
    + intros [Hl Hf]; destruct u as [|a v]; [discriminate|].
      inversion Hf; subst.
      exists a; split; [assumption|].
      apply in_map, IH; split; [simpl in Hl; lia | assumption].
Qed.

Lemma all_patterns_NoDup (s : list symbol) (k : nat) :
  NoDup s -> NoDup (all_patterns s k).
Proof.
  intros Hs; induction k as [|k IH]; simpl.
  - constructor; [intros [] | constructor].
  - revert IH; generalize (all_patterns s k); intros l Hl.
    induction Hs as [|a s Ha Hs IHs]; simpl; [constructor|].
    apply NoDup_app; [| assumption |].
    + apply Finite.Injective_map_NoDup; [|assumption].
      intros u v E; inversion E; reflexivity.
    + intros u Hu Hu'.
      apply in_map_iff in Hu; destruct Hu as (v & <- & _).
      apply in_flat_map in Hu'; destruct Hu' as (b & Hb & Hu').
      apply in_map_iff in Hu'; destruct Hu' as (w & E & _).
      inversion E; subst; contradiction.
Qed.

Lemma position_app (a : symbol) (pre l : list symbol) :
  ~ In a pre -> position a (pre ++ l) = length pre + position a l.
Proof.
  induction pre as [|b pre IH]; simpl; intros H; [reflexivity|].
  destruct (sym_eqb b a) eqn:E.
  - apply sym_eqb_eq in E; tauto.
  - rewrite IH by tauto; reflexivity.
Qed.

Lemma StronglySorted_app {A} (R : A -> A -> Prop) (l1 l2 : list A) :
  StronglySorted R l1 -> StronglySorted R l2 ->
  (forall x y, In x l1 -> In y l2 -> R x y) ->
  StronglySorted R (l1 ++ l2).
Proof.
  induction 1 as [|a l1 H1 IH Ha]; simpl; intros H2 H; [assumption|].
  constructor.
  - apply IH; [assumption | intros; apply H; simpl; auto].
  - apply Forall_app; split; [assumption|].
    apply Forall_forall; intros y Hy; apply H; simpl; auto.
Qed.

Lemma lex_lt_cons (al : list symbol) (a : symbol) (l : list str) :
  StronglySorted (lex_lt al) l -> StronglySorted (lex_lt al) (map (cons a) l).
Proof.
  assert (E : forall u v, lex_lt al u v -> lex_lt al (a :: u) (a :: v)).
  { unfold lex_lt; intros u v H; simpl.
    rewrite Nat.ltb_irrefl; destruct v; [destruct u; discriminate | exact H]. }
  induction 1 as [|u l Hl IH Hu]; simpl; constructor; [assumption|].
  apply Forall_map; eapply Forall_impl; [|exact Hu]; apply E.
Qed.

Lemma all_patterns_sorted (al : list symbol) (k : nat) :
  NoDup al -> StronglySorted (lex_lt al) (all_patterns al k).
Proof.
  intros Hal; induction k as [|k IH]; simpl.
  - repeat constructor.
  - assert (G : forall pre suf, al = pre ++ suf ->
                StronglySorted (lex_lt al)
                  (flat_map (fun a => map (cons a) (all_patterns al k)) suf)).
    { intros pre suf; revert pre; induction suf as [|a suf IHs]; intros pre E.
      - constructor.
      - simpl; apply StronglySorted_app.
        + apply lex_lt_cons; assumption.
        + apply (IHs (pre ++ [a])); rewrite <- app_assoc; exact E.
        + intros x y Hx Hy.
          apply in_map_iff in Hx; destruct Hx as (u & <- & _).
          apply in_flat_map in Hy; destruct Hy as (b & Hb & Hy).
          apply in_map_iff in Hy; destruct Hy as (v & <- & _).
          subst al; apply NoDup_app_remove_l in Hal as Hsuf.
          assert (Ha : ~ In a pre).
          { intros Hin; apply NoDup_remove_2 in Hal.
            apply Hal, in_or_app; auto. }
          assert (Hb' : ~ In b pre).
          { intros Hin.
            apply (NoDup_remove_2 pre suf a) in Hal as Hrm.
            clear - Hal Hin Hb.
            induction pre as [|c pre IHp]; [destruct Hin|].
            simpl in Hal; inversion Hal; subst.
            destruct Hin as [->|Hin]; [|apply IHp; assumption].
            apply H1, in_or_app; right; right; assumption. }
          assert (Hab : sym_eqb a b = false).
          { destruct (sym_eqb a b) eqn:E; [|reflexivity].
            apply sym_eqb_eq in E; subst.
            inversion Hsuf; contradiction. }
          unfold lex_lt; simpl.
          rewrite !position_app by assumption; simpl.
          rewrite sym_eqb_refl, Hab.
          replace (length pre + 0 <? length pre + S (position b suf)) with true
            by (symmetry; apply Nat.ltb_lt; lia).
          reflexivity. }
    apply (G []); reflexivity.
Qed.

Lemma all_patterns_prefixes (s : list symbol) (k : nat) (u : str) :
  1 <= k ->
  In u (prefixes k (all_patterns s (S k))) <-> In u (all_patterns s k).
Proof.
  intros Hk; unfold prefixes.
  rewrite distinct_strs_In, in_map_iff; split.
  - intros (v & <- & Hv).
    apply in_all_patterns in Hv; destruct Hv as [Hl Hf].
    apply in_all_patterns; split.
    + rewrite length_firstn; lia.
    + rewrite <- (firstn_skipn k v) in Hf.
      apply Forall_app in Hf; apply Hf.
  - intros Hu; apply in_all_patterns in Hu; destruct Hu as [Hl Hf].
    destruct u as [|a u]; [simpl in Hl; lia|].
    exists ((a :: u) ++ [a]); split.
    + rewrite <- Hl, firstn_app, Nat.sub_diag, firstn_all; simpl.
      rewrite app_nil_r; reflexivity.
    + apply in_all_patterns; split.
      * rewrite length_app; simpl in *; lia.
      * apply Forall_app; split; [assumption|].
        inversion Hf; subst; repeat constructor; assumption.
Qed.

(** ** MakenGrams: the claims *)

Lemma all_patterns_1 (al : list symbol) :
  all_patterns al 1 = map (fun a => [a]) al.
Proof.
  induction al as [|a al IH]; [reflexivity|].
  simpl in *; f_equal; exact IH.
Qed.

Lemma MakenGrams_all_nth (al : list symbol) (maxn : Z) (L : nat) :
  1 <= L -> (Z.of_nat L <= maxn)%Z ->
  nth (L - 1) (MakenGrams_all al maxn) []
  = if L =? 1 then all_patterns al 1 else all_patterns (sort_syms al) L.
Proof.
  intros HL Hm.
  destruct (Z.eq_dec maxn 1) as [->|Hne].
  - replace L with 1 by lia.
    rewrite MakenGrams_all_1, all_patterns_1; reflexivity.
  - replace maxn with (Z.of_nat (2 + Z.to_nat (maxn - 2))) by lia.
    rewrite MakenGrams_all_eq, all_patterns_1.
    destruct (Nat.eqb_spec L 1) as [->|HL1]; [reflexivity|].
    replace (L - 1) with (S (L - 2)) by lia.
    cbn [nth].
    rewrite (nth_indep _ [] (all_patterns (sort_syms al) 0))
      by (rewrite length_map, length_seq; lia).
    rewrite map_nth, seq_nth by lia.
    f_equal; lia.
Qed.

Lemma in_sort_syms (a : symbol) (al : list symbol) :
  In a (sort_syms al) <-> In a al.
Proof.
  split; apply Permutation_in;
    [apply sort_syms_perm | symmetry; apply sort_syms_perm].
Qed.

Lemma in_all_patterns_sorted (al : list symbol) (k : nat) (u : str) :
  In u (all_patterns (sort_syms al) k) <-> In u (all_patterns al k).
Proof.
  rewrite !in_all_patterns, !Forall_forall.
  split; intros [Hl Hf]; (split; [assumption|]); intros a Ha;
    apply in_sort_syms, Hf, Ha.
Qed.

(** C4, as amended: for an alphabet of [S] distinct symbols and
    [maxLength >= 1], the list that [MakenGrams] builds for a length [L]
    from 1 to [maxLength] has exactly [S^L] distinct elements, which are
    all the patterns of length [L] over the alphabet.  The list of
    length 1 is the alphabet as declared; the lists of lengths 2 and more
    are sorted in the lexicographic order induced by the alphabet put in
    ascending order of character codes (the order Python's sort gives),
    which is the declared order when the alphabet is declared in
    ascending order.  For [L >= 2] the prefixes of length [L-1] of the
    list of length [L], without duplicates, are as a set the list of
    length [L-1]. *)
Theorem MakenGrams_lists (al : list symbol) (maxn : Z) (L : nat) :
  NoDup al -> 1 <= L -> (Z.of_nat L <= maxn)%Z ->
  let l := nth (L - 1) (MakenGrams_all al maxn) [] in
  length l = length al ^ L
  /\ NoDup l
  /\ (forall u, In u l <-> length u = L /\ Forall (fun a => In a al) u)
  /\ (L = 1 -> l = map (fun a => [a]) al)
  /\ (2 <= L -> StronglySorted (lex_lt (sort_syms al)) l)
  /\ (sort_syms al = al -> StronglySorted (lex_lt al) l)
  /\ (2 <= L ->
      forall u, In u (prefixes (L - 1) l)
                <-> In u (nth (L - 2) (MakenGrams_all al maxn) [])).
Proof.
  intros Hal HL Hm l.
  assert (Hs : NoDup (sort_syms al)).
  { eapply Permutation_NoDup; [symmetry; apply sort_syms_perm | exact Hal]. }
  assert (El : l = if L =? 1 then all_patterns al 1
                   else all_patterns (sort_syms al) L).
  { apply MakenGrams_all_nth; assumption. }
  destruct (Nat.eqb_spec L 1) as [->|HL1]; rewrite El.
  - split; [apply all_patterns_length|].
    split; [apply all_patterns_NoDup; assumption|].
    split; [intros u; apply in_all_patterns|].
    split; [intros _; apply all_patterns_1|].
    split; [intros H; lia|].
    split; [intros _; apply all_patterns_sorted; assumption|].
    intros H; lia.
  - split.
    { rewrite all_patterns_length.
      f_equal; apply Permutation_length, sort_syms_perm. }
    split; [apply all_patterns_NoDup; assumption|].
    split; [intros u; rewrite in_all_patterns_sorted; apply in_all_patterns|].
    split; [intros H; lia|].
    split; [intros _; apply all_patterns_sorted; assumption|].
    split; [intros E; rewrite E; apply all_patterns_sorted; assumption|].
    intros _ u.
    replace (L - 2) with ((L - 1) - 1) by lia.
    rewrite MakenGrams_all_nth by lia.
    replace L with (S (L - 1)) at 2 by lia.
    rewrite all_patterns_prefixes by lia.
    destruct (Nat.eqb_spec (L - 1) 1) as [E|E]; [|reflexivity].
    rewrite E; apply in_all_patterns_sorted.
Qed.

Lemma MakenGrams_lists_witness :
  let al := ["a"; "b"]%char in
  let l := nth (2 - 1) (MakenGrams_all al 2) [] in
  length l = length al ^ 2
  /\ NoDup l
  /\ (forall u, In u l <-> length u = 2 /\ Forall (fun a => In a al) u)
  /\ (2 = 1 -> l = map (fun a => [a]) al)
  /\ (2 <= 2 -> StronglySorted (lex_lt (sort_syms al)) l)
  /\ (sort_syms al = al -> StronglySorted (lex_lt al) l)
  /\ (2 <= 2 ->
      forall u, In u (prefixes (2 - 1) l)
                <-> In u (nth (2 - 2) (MakenGrams_all al 2) [])).
Proof.
  apply (@MakenGrams_lists ["a"; "b"]%char 2%Z 2).
  - constructor; [intros [H|[]]; discriminate H|].
    constructor; [intros [] | constructor].
  - apply Nat.lt_le_incl, Nat.lt_succ_diag_r.
  - apply Z.le_refl.
Defined.

(** C4, as stated, fails on an alphabet that is not declared in ascending
    order: over the alphabet b, a the list of length 2 is aa, ab, ba, bb,
    which the order induced by the declared order (b before a) does not
    sort. *)
Lemma MakenGrams_declared_order_counterexample :
  NoDup ["b"; "a"]%char
  /\ ~ StronglySorted (lex_lt ["b"; "a"]%char)
        (nth (2 - 1) (MakenGrams_all ["b"; "a"]%char 2) []).
Proof.
  split.
  - constructor; [intros [H|[]]; discriminate H|].
    constructor; [intros [] | constructor].
  - intros H.
    inversion H as [|u l _ Hf]; subst.
    inversion Hf as [|v l' _ Hf']; subst.
    inversion Hf' as [|w l'' Hw _]; subst.
    discriminate Hw.
Qed.

(** C9, on the code: for [maxn_p <= 0] the single-length mode returns the
    empty list, and the all-lengths mode returns two lists, the alphabet
    and an empty list. *)
Theorem MakenGrams_nonpositive (al : list symbol) (maxn : Z) :
  (maxn <= 0)%Z ->
  MakenGrams al maxn true = OnlyList []
  /\ MakenGrams al maxn false = AllLists [map (fun a => [a]) al; []].
Proof.
  intros H; unfold MakenGrams; split.
  - rewrite MakenGrams_only_nonpos by assumption; reflexivity.
  - rewrite MakenGrams_all_nonpos by assumption; reflexivity.
Qed.

Lemma MakenGrams_nonpositive_witness :
  MakenGrams ["a"; "b"]%char 0 true = OnlyList []
  /\ MakenGrams ["a"; "b"]%char 0 false
     = AllLists [[["a"%char]; ["b"%char]]; []].
Proof.
  apply (@MakenGrams_nonpositive ["a"; "b"]%char 0%Z).
  apply Z.le_refl.
Defined.

(** ** HashSearch *)

Section HashSearch_facts.

Variables p x : Z.

Lemma fold_hash_mod (w : str) (h : Z) :
  fold_left (fun h c => ((h * x + Z.of_nat (code c)) mod p)%Z) w (h mod p)%Z
  = ((fold_left (fun h c => (h * x + Z.of_nat (code c))%Z) w h) mod p)%Z.
Proof.
  revert h; induction w as [|c w IH]; intros h; simpl; [reflexivity|].
  rewrite <- IH; f_equal.
  rewrite Zplus_mod, Zmult_mod_idemp_l, <- Zplus_mod; reflexivity.
Qed.

Lemma poly_hash_value (w : str) :
  poly_hash p x w = (poly_value x w mod p)%Z.
Proof.
  unfold poly_hash, poly_value.
  rewrite <- fold_hash_mod, Zmod_0_l; reflexivity.
Qed.

Lemma fold_value_shift (w : str) (h : Z) :
  fold_left (fun h c => (h * x + Z.of_nat (code c))%Z) w h
  = (h * x ^ Z.of_nat (length w) + poly_value x w)%Z.
Proof.
  unfold poly_value; revert h; induction w as [|c w IH]; intros h.
  - simpl; ring.
  - cbn [fold_left length].
    rewrite IH, (IH (0 * x + Z.of_nat (code c))%Z).
    rewrite Nat2Z.inj_succ, Z.pow_succ_r by lia.
    ring.
Qed.

Lemma poly_value_cons (a : symbol) (w : str) :
  poly_value x (a :: w)
  = (Z.of_nat (code a) * x ^ Z.of_nat (length w) + poly_value x w)%Z.
Proof.
  unfold poly_value at 1; simpl.
  rewrite fold_value_shift; reflexivity.
Qed.

Lemma poly_value_snoc (w : str) (b : symbol) :
  poly_value x (w ++ [b]) = (poly_value x w * x + Z.of_nat (code b))%Z.
Proof. unfold poly_value; rewrite fold_left_app; reflexivity. Qed.

(** The rolling update turns the hash of a window into the hash of the
    next one. *)
Lemma roll_next (a b : symbol) (w : str) :
  roll p x ((x ^ Z.of_nat (length w)) mod p)%Z (poly_hash p x (a :: w)) a b
  = poly_hash p x (w ++ [b]).
Proof.
  unfold roll; rewrite !poly_hash_value, poly_value_snoc, poly_value_cons.
  set (X := (x ^ Z.of_nat (length w))%Z).
  set (V := poly_value x w).
  set (ca := Z.of_nat (code a)).
  set (cb := Z.of_nat (code b)).
  rewrite Zplus_mod, Zmult_mod, Zminus_mod, (Zmult_mod ca (X mod p)).
  rewrite !Zmod_mod.
  rewrite <- (Zmult_mod ca X), <- Zminus_mod, <- Zmult_mod, <- Zplus_mod.
  f_equal; ring.
Qed.

Lemma window_succ (a : symbol) (s : str) (i L : nat) :
  window (a :: s) (S i) L = window s i L.
Proof. reflexivity. Qed.

Lemma firstn_snoc (s : str) (k : nat) (b : symbol) (rest : str) :
  skipn k s = b :: rest -> firstn (S k) s = firstn k s ++ [b].
Proof.
  revert s; induction k as [|k IH]; intros s E.
  - simpl in E; subst; reflexivity.
  - destruct s as [|c s]; [discriminate|].
    simpl in E.
    rewrite (firstn_cons (S k)), (firstn_cons k), (IH _ E); reflexivity.
Qed.

Lemma window_hashes_spec (L : nat) (s : str) :
  S L <= length s ->
  window_hashes p x ((x ^ Z.of_nat L) mod p)%Z (poly_hash p x (firstn (S L) s))
    (combine s (skipn (S L) s))
  = map (fun i => poly_hash p x (window s i (S L)))
      (seq 0 (length s + 1 - S L)).
Proof.
  induction s as [|a s IH]; intros H; [simpl in H; lia|].
  simpl in H.
  destruct (Nat.eq_dec (length s) L) as [E|E].
  - replace (length (a :: s) + 1 - S L) with 1 by (simpl; lia).
    rewrite skipn_all2 by (simpl; lia).
    rewrite combine_nil; reflexivity.
  - replace (length (a :: s) + 1 - S L) with (S (length s + 1 - S L))
      by (simpl; lia).
    cbn [seq map].
    rewrite <- seq_shift, map_map.
    change (map (fun i => poly_hash p x (window (a :: s) (S i) (S L)))
              (seq 0 (length s + 1 - S L)))
      with (map (fun i => poly_hash p x (window s i (S L)))
              (seq 0 (length s + 1 - S L))).
    rewrite <- IH by lia.
    rewrite skipn_cons.
    destruct (skipn L s) as [|b rest] eqn:Es.
    + apply (f_equal (@length _)) in Es.
      rewrite length_skipn in Es; simpl in Es; lia.
    + assert (Es' : skipn (S L) s = rest).
      { replace (S L) with (1 + L) by lia.
        rewrite <- skipn_skipn, Es; reflexivity. }
      rewrite Es'; cbn [combine window_hashes].
      f_equal.
      rewrite (@firstn_snoc s L b rest Es), firstn_cons.
      rewrite <- (roll_next a b (firstn L s)).
      rewrite length_firstn, Nat.min_l by lia.
      reflexivity.
Qed.

Lemma candidates_filter {A} (f : nat -> A) (g : A -> bool) (l : list nat) :
  map fst (filter (fun ih => g (snd ih)) (combine l (map f l)))
  = filter (fun i => g (f i)) l.
Proof.
  induction l as [|i l IH]; simpl; [reflexivity|].
  destruct (g (f i)); simpl; rewrite IH; reflexivity.
Qed.

Lemma filter_filter {A} (f g : A -> bool) (l : list A) :
  filter g (filter f l) = filter (fun a => f a && g a) l.
Proof.
  induction l as [|a l IH]; simpl; [reflexivity|].
  destruct (f a); simpl; [destruct (g a)|]; rewrite IH; reflexivity.
Qed.

(** The search returns what the direct scan returns, whatever the
    hashes: a window that equals the pattern has the pattern's hash,
    and a candidate is kept only if it equals the pattern. *)
Lemma HashSearch_naive (s pattern : str) :
  pattern <> [] -> HashSearch p x s pattern = naive_search s pattern.
Proof.
  intros Hp; unfold HashSearch, naive_search.
  destruct pattern as [|c pat]; [congruence|].
  set (pattern := c :: pat) in *.
  assert (HL : length pattern = S (length pat)) by reflexivity.
  rewrite HL; cbn [Nat.eqb orb].
  destruct (Nat.ltb_spec (length s) (S (length pat))) as [Hlt|Hge].
  - replace (length s + 1 - S (length pat)) with 0 by lia; reflexivity.
  - cbn [Nat.sub]; rewrite Nat.sub_0_r.
    rewrite window_hashes_spec by assumption.
    rewrite length_map, length_seq.
    rewrite (candidates_filter
               (fun i => poly_hash p x (window s i (S (length pat))))
               (fun h => Z.eqb h (poly_hash p x pattern))).
    rewrite filter_filter.
    apply filter_ext; intros i.
    destruct (str_eqb (window s i (S (length pat))) pattern) eqn:E.
    + apply str_eqb_eq in E; rewrite E, Z.eqb_refl; reflexivity.
    + apply andb_false_r.
Qed.

End HashSearch_facts.

Lemma seq_sorted (a k : nat) : StronglySorted lt (seq a k).
Proof.
  revert a; induction k as [|k IH]; intros a; simpl; constructor; [apply IH|].
  apply Forall_forall; intros i Hi; apply in_seq in Hi; lia.
Qed.

Lemma filter_sorted {A} (R : A -> A -> Prop) (f : A -> bool) (l : list A) :
  StronglySorted R l -> StronglySorted R (filter f l).
Proof.
  induction 1 as [|a l Hl IH Ha]; simpl; [constructor|].
  destruct (f a); [|assumption].
  constructor; [assumption|].
  rewrite Forall_forall in *; intros b Hb.
  apply filter_In in Hb; apply Ha, Hb.
Qed.

Lemma HashSearch_In (p x : Z) (s pattern : list ascii) (i : nat) :
  1 <= length pattern ->
  In i (HashSearch p x s pattern)
  <-> i + length pattern <= length s /\ window s i (length pattern) = pattern.
Proof.
  intros HL; rewrite HashSearch_naive
    by (destruct pattern; [simpl in HL; lia | discriminate]).
  unfold naive_search.
  rewrite filter_In, in_seq, str_eqb_eq; split.
  - intros [Hi Hw]; split; [lia | assumption].
  - intros [Hi Hw]; split; [lia | assumption].
Qed.

(** C1: for every sequence, every pattern of length [L >= 1] (the
    ngrams that [BuildPTP] searches are not empty) and every hash
    parameters, the search returns exactly the start indices [i] with
    [i + L <= N] at which [Sequence[i:i+L]] equals the pattern, in
    increasing order: the list of the direct scan, whatever the hashes
    collide on. *)
Theorem HashSearch_exact (p x : Z) (s pattern : str) :
  1 <= length pattern ->
  HashSearch p x s pattern = naive_search s pattern
  /\ StronglySorted lt (HashSearch p x s pattern)
  /\ forall i, In i (HashSearch p x s pattern)
               <-> i + length pattern <= length s
                   /\ window s i (length pattern) = pattern.
Proof.
  intros HL.
  assert (E : HashSearch p x s pattern = naive_search s pattern).
  { apply HashSearch_naive; destruct pattern; [simpl in HL; lia | discriminate]. }
  split; [exact E|]; split.
  - rewrite E; apply filter_sorted, seq_sorted.
  - intros i; apply HashSearch_In; exact HL.
Qed.

Lemma HashSearch_exact_witness :
  let s := ["a"; "b"; "a"; "b"]%char in
  let pattern := ["a"; "b"]%char in
  HashSearch 7 3 s pattern = naive_search s pattern
  /\ StronglySorted lt (HashSearch 7 3 s pattern)
  /\ forall i, In i (HashSearch 7 3 s pattern)
               <-> i + length pattern <= length s
                   /\ window s i (length pattern) = pattern.
Proof.
  apply (@HashSearch_exact 7%Z 3%Z ["a"; "b"; "a"; "b"]%char ["a"; "b"]%char).
  simpl; apply Nat.lt_le_incl, Nat.lt_succ_diag_r.
Defined.

(** The pattern of length zero is the failure mode of section 4.1 of
    the specification: the search returns no index for it. *)
Lemma HashSearch_empty_pattern (p x : Z) (s : str) : HashSearch p x s [] = [].
Proof. reflexivity. Qed.

(** ** BuildPTP: shape of the counts *)

Lemma set_nth_length {A} (i : nat) (v : A) (l : list A) :
  length (set_nth i v l) = length l.
Proof.
  revert i; induction l as [|a l IH]; intros [|i]; simpl; auto.
Qed.

Lemma set_nth_same {A} (i : nat) (v d : A) (l : list A) :
  i < length l -> nth i (set_nth i v l) d = v.
Proof.
  revert i; induction l as [|a l IH]; intros [|i]; simpl; intros H;
    try lia; auto.
  apply IH; lia.
Qed.

Lemma set_nth_other {A} (i r : nat) (v d : A) (l : list A) :
  r <> i -> nth r (set_nth i v l) d = nth r l d.
Proof.
  revert i r; induction l as [|a l IH]; intros [|i] [|r]; simpl; intros H;
    try lia; auto.
Qed.

Lemma tabulate_shape (c : Config) (i : nat) (chars : list symbol)
  (rows : nat) (counts : list (list Z)) :
  counts_shape (n_s c) rows counts ->
  counts_shape (n_s c) rows (tabulate c i chars counts).
Proof.
  unfold counts_shape, tabulate, n_s; intros [Hl Hf]; split.
  - rewrite length_map, length_combine; lia.
  - apply Forall_map, Forall_forall; intros [a col] Hin; simpl.
    apply in_combine_r in Hin.
    rewrite Forall_forall in Hf.
    destruct (mem_sym a (np_unique chars));
      [rewrite set_nth_length|]; apply Hf; assumption.
Qed.

Lemma search_step_shape (c : Config) (np rows : nat)
  (st : list (list Z) * list str) (ig : nat * str) :
  counts_shape (n_s c) rows (fst st) ->
  counts_shape (n_s c) rows (fst (search_step c np st ig)).
Proof.
  intros H; unfold search_step.
  destruct (np_unique _); [assumption|].
  apply tabulate_shape; assumption.
Qed.

Lemma search_fold_shape (c : Config) (np rows : nat) (items : list (nat * str))
  (st : list (list Z) * list str) :
  counts_shape (n_s c) rows (fst st) ->
  counts_shape (n_s c) rows (fst (fold_left (search_step c np) items st)).
Proof.
  revert st; induction items as [|ig items IH]; intros st H; simpl;
    [assumption|].
  apply IH, search_step_shape; assumption.
Qed.

Lemma BuildPTP_counts_shape (c : Config) (ngs : list str)
  (red : option (list str)) (counts : list (list Z)) (fnd : list str) :
  BuildPTP_counts c ngs red = OK (counts, fnd) ->
  counts_shape (n_s c) (length ngs) counts.
Proof.
  unfold BuildPTP_counts; intros H.
  destruct ngs as [|g ngs']; [discriminate|].
  set (ngs := g :: ngs') in *.
  cbn [bind OK] in H.
  destruct (match red with
            | None => OK (ngs, seq 0 (length ngs))
            | Some r => inds <- ngram_indices ngs r ;; OK (r, inds)
            end) as [e|si]; [discriminate|].
  cbn [bind OK] in H; injection H as H.
  change counts with (fst (counts, fnd)); rewrite <- H.
  apply search_fold_shape; simpl; unfold counts_shape; split.
  - rewrite length_map; reflexivity.
  - apply Forall_map, Forall_forall; intros a _.
    simpl; rewrite repeat_length; reflexivity.
Qed.

Lemma nth_zip_rows {A} (d : A) (k r : nat) (cols : list (list A)) :
  r < k -> Forall (fun col => length col = k) cols ->
  nth r (zip_rows k cols) [] = map (fun col => nth r col d) cols.
Proof.
  revert r cols; induction k as [|k IH]; intros r cols Hr H; [lia|].
  simpl.
  assert (Hh : heads cols = Some (map (fun col => nth 0 col d) cols)).
  { clear - H; induction H as [|col cols Hc _ IHc]; simpl; [reflexivity|].
    destruct col; [discriminate|]; rewrite IHc; reflexivity. }
  rewrite Hh; destruct r as [|r]; [reflexivity|].
  cbn [nth]; rewrite IH.
  - rewrite map_map; apply map_ext_in; intros col Hin.
    rewrite Forall_forall in H; specialize (H _ Hin).
    destruct col; [discriminate | reflexivity].
  - lia.
  - apply Forall_map; eapply Forall_impl; [|exact H].
    intros [|? ?]; simpl; congruence.
Qed.

Lemma zip_star_length {A} (k : nat) (cols : list (list A)) :
  cols <> [] -> Forall (fun col => length col = k) cols ->
  length (zip_star cols) = k.
Proof.
  intros Hne H; destruct cols as [|col cols]; [congruence|].
  unfold zip_star.
  replace (length col) with k by (inversion H; auto).
  apply zip_rows_length; exact H.
Qed.

Lemma nth_zip_star {A} (d : A) (k r : nat) (cols : list (list A)) :
  cols <> [] -> Forall (fun col => length col = k) cols -> r < k ->
  nth r (zip_star cols) [] = map (fun col => nth r col d) cols.
Proof.
  intros Hne H Hr; destruct cols as [|col cols]; [congruence|].
  unfold zip_star.
  replace (length col) with k by (inversion H; auto).
  apply nth_zip_rows; assumption.
Qed.

(** ** BuildPTP: the cells of the matrix *)

Lemma map_nth_seq {A B} (f : A -> B) (d : A) (l : list A) :
  map f l = map (fun j => f (nth j l d)) (seq 0 (length l)).
Proof.
  induction l as [|a l IH]; simpl; [reflexivity|].
  rewrite <- seq_shift, map_map, <- IH; reflexivity.
Qed.

Lemma Qsum_inject (l : list Z) :
  (Qsum (map inject_Z l) == inject_Z (Zsum l))%Q.
Proof.
  induction l as [|z l IH]; simpl; [reflexivity|].
  rewrite IH, inject_Z_plus; reflexivity.
Qed.

Lemma Qsum_div (t : Q) (l : list Q) :
  (Qsum (map (fun q => q / t) l) == Qsum l / t)%Q.
Proof.
  induction l as [|q l IH]; simpl.
  - unfold Qdiv; rewrite Qmult_0_l; reflexivity.
  - rewrite IH; unfold Qdiv; rewrite Qmult_plus_distr_l; reflexivity.
Qed.

Lemma Qsum_ext {A} (f g : A -> Q) (l : list A) :
  (forall a, In a l -> (f a == g a)%Q) ->
  (Qsum (map f l) == Qsum (map g l))%Q.
Proof.
  induction l as [|a l IH]; simpl; intros H; [reflexivity|].
  apply Qplus_comp; [apply H; auto|].
  apply IH; intros b Hb; apply H; auto.
Qed.

Lemma BuildPTP_inv (c : Config) (ngs : list str) (red : option (list str))
  (P : PTP) (fnd : list str) :
  BuildPTP c ngs red = OK (P, fnd) ->
  exists counts,
    BuildPTP_counts c ngs red = OK (counts, fnd)
    /\ P = map (map inject_Z) counts
           ++ [map inject_Z (map Zsum (zip_star counts))]
           ++ map (fun col => rel_freqs col (map Zsum (zip_star counts))) counts.
Proof.
  unfold BuildPTP; intros H.
  destruct (BuildPTP_counts c ngs red) as [e|[counts fnd']]; [discriminate|].
  cbn in H; injection H as <- <-.
  exists counts; split; reflexivity.
Qed.

Lemma set_nth_Forall (A : Type) (Pr : A -> Prop) (i : nat) (v : A)
  (l : list A) :
  Pr v -> Forall Pr l -> Forall Pr (set_nth i v l).
Proof.
  intros Hv Hl; revert i; induction Hl as [|x l Hx Hl IH]; intros i.
  - destruct i; constructor.
  - destruct i; simpl; constructor; auto.
Qed.

Lemma tabulate_nonneg (c : Config) (i : nat) (chars : list ascii)
  (counts : list (list Z)) :
  Forall (Forall (fun z => (0 <= z)%Z)) counts ->
  Forall (Forall (fun z => (0 <= z)%Z)) (tabulate c i chars counts).
Proof.
  intros H; unfold tabulate; apply Forall_map, Forall_forall.
  intros [a col] Hin; apply in_combine_r in Hin.
  rewrite Forall_forall in H; specialize (H _ Hin); cbn [fst snd].
  destruct (mem_sym a (np_unique chars)); [|exact H].
  apply set_nth_Forall; [lia | exact H].
Qed.

Lemma search_fold_nonneg (c : Config) (np : nat)
  (items : list (nat * list ascii))
  (st : list (list Z) * list (list ascii)) :
  Forall (Forall (fun z => (0 <= z)%Z)) (fst st) ->
  Forall (Forall (fun z => (0 <= z)%Z))
    (fst (fold_left (search_step c np) items st)).
Proof.
  revert st; induction items as [|ig items IH]; intros st H; [exact H|].
  cbn [fold_left]; apply IH.
  unfold search_step.
  destruct (np_unique _); [exact H|].
  cbn [fst]; apply tabulate_nonneg; exact H.
Qed.

Lemma BuildPTP_counts_nonneg (c : Config) (ngs : list (list ascii))
  (red : option (list (list ascii))) (counts : list (list Z))
  (fnd : list (list ascii)) :
  BuildPTP_counts c ngs red = OK (counts, fnd) ->
  Forall (Forall (fun z => (0 <= z)%Z)) counts.
Proof.
  unfold BuildPTP_counts; intros H.
  destruct ngs as [|g ngs']; [discriminate|].
  set (ngs := g :: ngs') in *.
  cbn [bind OK] in H.
  destruct (match red with
            | None => OK (ngs, seq 0 (length ngs))
            | Some r => inds <- ngram_indices ngs r ;; OK (r, inds)
            end) as [e|si]; [discriminate|].
  cbn [bind OK] in H; injection H as H.
  change counts with (fst (counts, fnd)); rewrite <- H.
  apply search_fold_nonneg; cbn [fst].
  apply Forall_map, Forall_forall; intros a _.
  apply Forall_forall; intros z Hz.
  apply (repeat_spec (length ngs)) in Hz; lia.
Qed.


Lemma Zsum_nonneg (l : list Z) :
  Forall (fun z => (0 <= z)%Z) l -> (0 <= Zsum l)%Z.
Proof.
  induction 1 as [|z l Hz _ IH]; unfold Zsum in *; cbn [fold_right]; lia.
Qed.


Lemma Qsum_nonneg (l : list Q) :
  Forall (fun q => (0 <= q)%Q) l -> (0 <= Qsum l)%Q.
Proof.
  induction 1 as [|q l Hq _ IH]; [apply Qle_refl|].
  change (Qsum (q :: l)) with (q + Qsum l)%Q.
  rewrite <- (Qplus_0_l 0); apply Qplus_le_compat; assumption.
Qed.

Lemma Zsum_ge_elem (l : list Z) (z : Z) :
  Forall (fun y => (0 <= y)%Z) l -> In z l -> (z <= Zsum l)%Z.
Proof.
  induction 1 as [|y l Hy Hl IH]; intros Hin; [destruct Hin|].
  unfold Zsum in *; cbn [fold_right].
  pose proof (Zsum_nonneg Hl) as Hs; unfold Zsum in Hs.
  destruct Hin as [->|Hin]; [lia|].
  specialize (IH Hin); lia.
Qed.

(** The sum of numbers each within the relative error [eps] of another
    is within [eps] of the other sum. *)
Lemma Qsum_error {A} (f g : A -> Q) (eps : Q) (l : list A) :
  (forall a, In a l -> (Qabs (f a - g a) <= g a * eps)%Q) ->
  (Qabs (Qsum (map f l) - Qsum (map g l)) <= Qsum (map g l) * eps)%Q.
Proof.
  induction l as [|a l IH]; intros H.
  - simpl; rewrite Qmult_0_l; apply Qle_refl.
  - cbn [map]; change (Qsum (?x :: ?t)) with (x + Qsum t)%Q.
    assert (E : (f a + Qsum (map f l) - (g a + Qsum (map g l))
                 == (f a - g a) + (Qsum (map f l) - Qsum (map g l)))%Q) by ring.
    rewrite E, Qmult_plus_distr_l.
    eapply Qle_trans; [apply Qabs_triangle|].
    apply Qplus_le_compat; [apply H; left; reflexivity|].
    apply IH; intros b Hb; apply H; right; exact Hb.
Qed.

(** The relative frequency stored for a count and the total of its row. *)
Lemma rel_unit (cnt tot : Z) :
  (0 <= cnt)%Z -> (cnt <= tot)%Z -> (0 < tot)%Z ->
  (0 <= fl64 (inject_Z cnt / inject_Z tot) <= 1)%Q.
Proof.
  intros H0 H1 Ht; apply fl64_unit.
  assert (Hq : (0 < inject_Z tot)%Q).
  { change 0%Q with (inject_Z 0); rewrite <- Zlt_Qlt; exact Ht. }
  split.
  - apply Qle_shift_div_l; [exact Hq|].
    rewrite Qmult_0_l; change 0%Q with (inject_Z 0).
    rewrite <- Zle_Qle; exact H0.
  - apply Qle_shift_div_r; [exact Hq|].
    rewrite Qmult_1_l, <- Zle_Qle; exact H1.
Qed.

Lemma rel_error (cnt tot : Z) :
  (0 <= cnt)%Z -> (0 < tot <= 2 ^ 53)%Z ->
  (Qabs (fl64 (inject_Z cnt / inject_Z tot) - inject_Z cnt / inject_Z tot)
   <= inject_Z cnt / inject_Z tot * pow2 (-53))%Q.
Proof.
  intros H0 [Ht Hb].
  assert (Hq : (0 < inject_Z tot)%Q).
  { change 0%Q with (inject_Z 0); rewrite <- Zlt_Qlt; exact Ht. }
  destruct (Z.eq_dec cnt 0) as [->|Hc].
  - assert (E : (inject_Z 0 / inject_Z tot == 0)%Q).
    { unfold Qdiv; apply Qmult_0_l. }
    rewrite (fl64_comp E), E, fl64_zero.
    rewrite Qmult_0_l; apply Qle_refl.
  - apply fl64_error.
    apply Qle_trans with (pow2 (-53)); [apply pow2_le; lia|].
    apply Qle_shift_div_l; [exact Hq|].
    apply Qle_trans with (pow2 (-53) * inject_Z (2 ^ 53))%Q.
    + apply Qmult_le_l; [apply pow2_pos|].
      rewrite <- Zle_Qle; exact Hb.
    + rewrite <- (@pow2_Z 53), <- pow2_add by lia.
      change (pow2 (-53 + 53)) with (inject_Z 1).
      rewrite <- Zle_Qle; lia.
Qed.

Section PTP_cells.

Variables (S_ rows : nat) (counts : list (list Z)).

Hypothesis Hshape : counts_shape S_ rows counts.

Let tots := map Zsum (zip_star counts).
Let P : PTP :=
  map (map inject_Z) counts ++ [map inject_Z tots]
  ++ map (fun col => rel_freqs col tots) counts.

Lemma cells_counts (j : nat) :
  j < S_ -> nth j P [] = map inject_Z (nth j counts []).
Proof.
  destruct Hshape as [Hl _]; intros Hj; unfold P.
  rewrite app_nth1 by (rewrite length_map; lia).
  change (@nil Q) with (map inject_Z []); apply map_nth.
Qed.

Lemma cells_tots : nth S_ P [] = map inject_Z tots.
Proof.
  destruct Hshape as [Hl _]; unfold P.
  rewrite app_nth2 by (rewrite length_map; lia).
  rewrite length_map, Hl, Nat.sub_diag; reflexivity.
Qed.

Lemma cells_rel (j : nat) :
  j < S_ -> nth (S_ + 1 + j) P [] = rel_freqs (nth j counts []) tots.
Proof.
  destruct Hshape as [Hl _]; intros Hj; unfold P.
  rewrite app_nth2 by (rewrite length_map; lia).
  rewrite length_map, Hl.
  replace (S_ + 1 + j - S_) with (S j) by lia.
  cbn [app nth].
  rewrite (nth_indep _ [] (rel_freqs [] tots)) by (rewrite length_map; lia).
  apply (map_nth (fun col => rel_freqs col tots)).
Qed.

Lemma tots_length : 1 <= S_ -> length tots = rows.
Proof.
  destruct Hshape as [Hl Hf]; intros HS; unfold tots.
  rewrite length_map; apply zip_star_length; [|assumption].
  destruct counts; [simpl in Hl; lia | discriminate].
Qed.

Lemma tots_positive_alphabet (r : nat) : r < length tots -> 1 <= S_.
Proof.
  destruct Hshape as [Hl _]; unfold tots; intros Hr.
  destruct counts; [simpl in Hr; lia | simpl in Hl; lia].
Qed.

Lemma tots_nth (r : nat) :
  r < length tots ->
  nth r tots 0%Z = Zsum (map (fun j => nth r (nth j counts []) 0%Z) (seq 0 S_)).
Proof.
  intros Hr; pose proof (tots_positive_alphabet Hr) as HS.
  pose proof (tots_length HS) as Ht.
  destruct Hshape as [Hl Hf]; unfold tots in *.
  change 0%Z with (Zsum []) at 1; rewrite map_nth.
  rewrite (nth_zip_star 0%Z (k := rows)); try assumption; try lia.
  - rewrite (map_nth_seq _ []), Hl; reflexivity.
  - destruct counts; [simpl in Hl; lia | discriminate].
Qed.

Lemma count_cell (j r : nat) :
  j < S_ -> r < rows ->
  count_at P j r = inject_Z (nth r (nth j counts []) 0%Z).
Proof.
  intros Hj Hr; unfold count_at; rewrite cells_counts by assumption.
  change 0%Q with (inject_Z 0); apply map_nth.
Qed.

Lemma total_cell (r : nat) :
  total_at S_ P r = inject_Z (nth r tots 0%Z).
Proof.
  unfold total_at; rewrite cells_tots.
  change 0%Q with (inject_Z 0); apply map_nth.
Qed.

Lemma rel_cell (j r : nat) :
  j < S_ -> r < length tots ->
  relfreq_at S_ P j r
  = if Z.eqb (nth r tots 0%Z) 0 then 0%Q
    else fl64 (inject_Z (nth r (nth j counts []) 0%Z)
               / inject_Z (nth r tots 0%Z)).
Proof.
  intros Hj Hr; pose proof (tots_positive_alphabet Hr) as HS.
  pose proof (tots_length HS) as Ht.
  unfold relfreq_at; rewrite cells_rel by assumption.
  unfold rel_freqs.
  set (f := fun it : Z * Z =>
              if Z.eqb (snd it) 0 then 0%Q
              else fl64 (inject_Z (fst it) / inject_Z (snd it))).
  assert (Hc : length (nth j counts []) = rows).
  { destruct Hshape as [Hl Hf]; rewrite Forall_forall in Hf.
    apply Hf, nth_In; lia. }
  rewrite (nth_indep _ 0%Q (f (0%Z, 0%Z)))
    by (rewrite length_map, length_combine; lia).
  rewrite map_nth, combine_nth by lia.
  reflexivity.
Qed.

Hypothesis Hnonneg : Forall (Forall (fun z => (0 <= z)%Z)) counts.

Lemma cells_nonneg (j r : nat) : (0 <= nth r (nth j counts []) 0)%Z.
Proof.
  destruct (Nat.lt_ge_cases j (length counts)) as [Hj|Hj].
  - rewrite Forall_forall in Hnonneg.
    specialize (Hnonneg _ (nth_In counts [] Hj)).
    destruct (Nat.lt_ge_cases r (length (nth j counts []))) as [Hr|Hr].
    + rewrite Forall_forall in Hnonneg; apply Hnonneg, nth_In; exact Hr.
    + rewrite nth_overflow by exact Hr; lia.
  - rewrite (nth_overflow counts) by exact Hj; destruct r; simpl; lia.
Qed.

Lemma cells_row_invariant (r : nat) :
  1 <= S_ -> r < rows -> PTP_row_invariant S_ P r.
Proof.
  intros HS Hrow; pose proof (tots_length HS) as Ht.
  assert (Hr : r < length tots) by lia.
  set (cnt := fun j => nth r (nth j counts []) 0%Z).
  assert (Hcnt : forall j, j < S_ -> count_at P j r = inject_Z (cnt j)).
  { intros j Hj; apply count_cell; assumption. }
  assert (Htot : nth r tots 0%Z = Zsum (map cnt (seq 0 S_))).
  { apply tots_nth; exact Hr. }
  assert (Hsum : (Qsum (map (fun j => count_at P j r) (seq 0 S_))
                  == total_at S_ P r)%Q).
  { rewrite total_cell, Htot, <- Qsum_inject, map_map.
    apply Qsum_ext; intros j Hj; apply in_seq in Hj.
    rewrite Hcnt by lia; reflexivity. }
  assert (Hle : forall j, j < S_ -> (cnt j <= nth r tots 0)%Z).
  { intros j Hj; rewrite Htot.
    apply Zsum_ge_elem.
    - apply Forall_map, Forall_forall; intros i _; apply cells_nonneg.
    - apply in_map, in_seq; lia. }
  split; [exact Hsum|]; split; [|split].
  - intros j Hj; rewrite Hcnt by exact Hj.
    change 0%Q with (inject_Z 0); rewrite <- Zle_Qle; apply cells_nonneg.
  - intros Hpos; rewrite total_cell in Hpos.
    change 0%Q with (inject_Z 0) in Hpos; rewrite <- Zlt_Qlt in Hpos.
    assert (Hrel : forall j, j < S_ ->
              relfreq_at S_ P j r
              = fl64 (inject_Z (cnt j) / inject_Z (nth r tots 0%Z))).
    { intros j Hj; rewrite rel_cell by assumption.
      destruct (Z.eqb_spec (nth r tots 0%Z) 0); [lia | reflexivity]. }
    split.
    + intros j Hj; rewrite (Hrel j Hj), (Hcnt j Hj), total_cell.
      split; [reflexivity|].
      apply rel_unit; [apply cells_nonneg | apply Hle; exact Hj | exact Hpos].
    + rewrite total_cell, <- Zle_Qle; intros Hbig.
      set (t := nth r tots 0%Z) in *.
      assert (E1 : (Qsum (map (fun j => inject_Z (cnt j) / inject_Z t)
                            (seq 0 S_)) == 1)%Q).
      { rewrite <- (map_map (fun j => inject_Z (cnt j))
                     (fun q => (q / inject_Z t)%Q)).
        rewrite Qsum_div, <- (map_map cnt inject_Z), Qsum_inject, <- Htot.
        apply Qmult_inv_r; intros E.
        unfold Qeq in E; simpl in E; lia. }
      assert (E2 : (Qsum (map (fun j => relfreq_at S_ P j r) (seq 0 S_)) - 1
                    == Qsum (map (fun j => relfreq_at S_ P j r) (seq 0 S_))
                       - Qsum (map (fun j => inject_Z (cnt j) / inject_Z t)
                                 (seq 0 S_)))%Q)
        by (rewrite E1; reflexivity).
      rewrite E2.
      eapply Qle_trans.
      * apply (@Qsum_error _ (fun j => relfreq_at S_ P j r)
                 (fun j => (inject_Z (cnt j) / inject_Z t)%Q) (pow2 (-53))).
        intros j Hj; apply in_seq in Hj.
        rewrite Hrel by lia.
        apply rel_error; [apply cells_nonneg | lia].
      * rewrite E1, Qmult_1_l; apply Qle_refl.
  - intros Hz j Hj.
    rewrite rel_cell by assumption.
    destruct (Z.eqb_spec (nth r tots 0%Z) 0) as [E|E]; [reflexivity|].
    exfalso; apply E.
    rewrite total_cell in Hz.
    unfold Qeq in Hz; simpl in Hz; lia.
Qed.

Lemma cells_PTP_shape : 1 <= S_ -> PTP_shape S_ rows P.
Proof.
  intros HS; pose proof (tots_length HS) as Ht.
  destruct Hshape as [Hl Hf]; unfold PTP_shape, P; split.
  - rewrite !length_app, !length_map; simpl; lia.
  - apply Forall_app; split; [|apply Forall_app; split].
    + apply Forall_map; eapply Forall_impl; [|exact Hf].
      intros col Hc; rewrite length_map; exact Hc.
    + constructor; [|constructor]; rewrite length_map; exact Ht.
    + apply Forall_map; eapply Forall_impl; [|exact Hf].
      intros col Hc; unfold rel_freqs.
      rewrite length_map, length_combine; unfold tots in *; lia.
Qed.

End PTP_cells.

(** ** BuildPTPs: the loop *)

Lemma ratio_ltb_lt (r t : Q) : ratio_ltb r t = true <-> (r < t)%Q.
Proof.
  unfold ratio_ltb; rewrite negb_true_iff; split.
  - intros H; apply Qnot_le_lt; intros Hle.
    apply Qle_bool_iff in Hle; congruence.
  - intros H; destruct (Qle_bool t r) eqn:E; [|reflexivity].
    apply Qle_bool_iff in E; exfalso; exact (Qlt_not_le _ _ H E).
Qed.

Lemma ratio_ltb_le (r t : Q) : ratio_ltb r t = false <-> (t <= r)%Q.
Proof.
  unfold ratio_ltb; rewrite negb_false_iff; apply Qle_bool_iff.
Qed.

Section BuildPTPs_facts.

Variable c : Config.
Variable ngramS : list (list str).

Let K := Z.to_nat (maxn_p c).

Lemma BuildPTPs_loop_outcome (len a : nat) (st st' : build_state) :
  BuildPTPs_loop c ngramS (seq a len) st = OK st' ->
  length (bs_PTPs st) = a ->
  length (SI (bs_sparsT st)) = K ->
  a + len <= K ->
  (forall j, j < a ->
     ratio_ltb (nth j (SI (bs_sparsT st)) 0%Q) (t_np c) = false) ->
  (forall k P, nth_error (bs_PTPs st) k = Some P -> built_from c ngramS k P) ->
  length (SI (bs_sparsT st')) = K
  /\ length (Observed (bs_sparsT st')) = length (Observed (bs_sparsT st))
  /\ Possible (bs_sparsT st') = Possible (bs_sparsT st)
  /\ (forall k P, nth_error (bs_PTPs st') k = Some P ->
                  built_from c ngramS k P)
  /\ loop_outcome c a len st st'.
Proof.
  revert a st; induction len as [|len IH]; intros a st Hrun Hlen HK Ha Hpass Hb.
  - simpl in Hrun; injection Hrun as <-.
    repeat (split; [assumption || reflexivity|]).
    right; simpl; rewrite Nat.add_0_r; auto.
  - cbn [seq BuildPTPs_loop] in Hrun.
    destruct (Z.eqb (nth a (Possible (bs_sparsT st)) 0%Z) 0); [discriminate|].
    set (obs := Z.of_nat (unique_size (map (@removelast ascii) (bs_fnd st))))
      in *.
    set (ratio := fl64 (inject_Z obs
                        / inject_Z (nth a (Possible (bs_sparsT st)) 0%Z))) in *.
    assert (Hsame : nth a (set_nth a ratio (SI (bs_sparsT st))) 0%Q = ratio).
    { apply set_nth_same; lia. }
    assert (Hother : forall j, j < a ->
              ratio_ltb (nth j (set_nth a ratio (SI (bs_sparsT st))) 0%Q)
                (t_np c) = false).
    { intros j Hj; rewrite set_nth_other by lia; auto. }
    destruct (ratio_ltb ratio (t_np c)) eqn:Hr.
    + injection Hrun as <-; unfold loop_outcome.
      cbn [bs_sparsT SI Observed Possible bs_i bs_PTPs].
      rewrite !set_nth_length.
      repeat (split; [assumption || reflexivity|]).
      left; exists a.
      split; [lia|]; split; [reflexivity|].
      split; [rewrite Hsame; exact Hr|].
      split; [exact Hother | exact Hlen].
    + destruct (nth_error ngramS a) as [ng|] eqn:Eng; [|discriminate].
      cbn [bind OK] in Hrun.
      destruct (BuildPTP c ng (Some (bs_fnd st))) as [e|[P fnd']] eqn:EP;
        [discriminate|].
      cbn [bind fst snd] in Hrun.
      apply IH in Hrun; cbn [bs_PTPs bs_sparsT bs_i SI Observed Possible] in *.
      * destruct Hrun as (H1 & H2 & H3 & H4 & H5).
        split; [exact H1|].
        split; [rewrite H2; apply set_nth_length|].
        split; [exact H3|].
        split; [exact H4|].
        unfold loop_outcome in *; cbn [bs_i] in H5.
        destruct H5 as [(b & Hb1 & Hb2)|(Hi & Hall & Hl)].
        -- left; exists b; split; [lia | exact Hb2].
        -- right; split; [|split].
           ++ rewrite Hi; cbn [Nat.eqb].
              destruct (Nat.eqb_spec len 0) as [->|Hne];
                simpl; f_equal; lia.
           ++ intros j Hj; apply Hall; lia.
           ++ lia.
      * rewrite length_app; simpl; lia.
      * rewrite set_nth_length; exact HK.
      * lia.
      * intros j Hj; destruct (Nat.eq_dec j a) as [->|Hne].
        -- rewrite Hsame; exact Hr.
        -- apply Hother; lia.
      * intros k Q HQ.
        destruct (Nat.lt_ge_cases k a) as [Hk|Hk].
        -- rewrite nth_error_app1 in HQ by lia; apply Hb; exact HQ.
        -- rewrite nth_error_app2 in HQ by lia.
           destruct (k - length (bs_PTPs st)) as [|d] eqn:Ed.
           ++ simpl in HQ; injection HQ as <-.
              replace k with a by lia.
              exists ng, (Some (bs_fnd st)), fnd'; auto.
           ++ destruct d; discriminate HQ.
Qed.

End BuildPTPs_facts.

Lemma BuildPTPs_run_alphabet (c : Config) (i : nat) (st : build_state) :
  BuildPTPs_run c = OK (i, st) -> 1 <= Z.to_nat (maxn_p c) /\ 1 <= n_s c.
Proof.
  unfold BuildPTPs_run; intros H.
  destruct (Z.to_nat (maxn_p c)) as [|K] eqn:EK.
  - simpl in H; discriminate H.
  - split; [lia|].
    destruct (n_s c) as [|S_] eqn:ES; [|lia].
    exfalso; revert H.
    cbn [seq BuildPTPs_loop].
    unfold initial_sparsT; rewrite EK, ES; simpl.
    discriminate.
Qed.

Lemma BuildPTPs_run_outcome (c : Config) (i : nat) (st : build_state) :
  BuildPTPs_run c = OK (i, st) ->
  let K := Z.to_nat (maxn_p c) in
  let si := SI (bs_sparsT st) in
  i <= K
  /\ length (bs_PTPs st) = i
  /\ length si = K
  /\ length (Observed (bs_sparsT st)) = K
  /\ length (Possible (bs_sparsT st)) = K
  /\ (forall k P, nth_error (bs_PTPs st) k = Some P ->
        built_from c (MakenGrams_all (alpha c) (maxn_p c)) k P)
  /\ ((i < K /\ ratio_ltb (nth i si 0%Q) (t_np c) = true
       /\ forall j, j < i -> ratio_ltb (nth j si 0%Q) (t_np c) = false)
      \/ (i = K /\ forall j, j < K ->
                     ratio_ltb (nth j si 0%Q) (t_np c) = false)).
Proof.
  intros H K si.
  pose proof H as HK; apply BuildPTPs_run_alphabet in HK.
  destruct HK as [HK _]; fold K in HK.
  unfold BuildPTPs_run in H; fold K in H.
  destruct (BuildPTPs_loop c _ (seq 0 K) _) as [e|st'] eqn:Hloop;
    [discriminate|].
  cbn [bind] in H.
  apply BuildPTPs_loop_outcome in Hloop;
    cbn [bs_PTPs bs_sparsT initial_sparsT SI Observed Possible] in *.
  - destruct Hloop as (H1 & H2 & H3 & H4 & H5).
    unfold initial_sparsT in H2, H3; cbn [Observed Possible] in H2, H3.
    fold K in H2, H3.
    rewrite repeat_length in H2.
    assert (HP : length (Possible (bs_sparsT st')) = K).
    { rewrite H3, length_map, length_seq; reflexivity. }
    unfold loop_outcome in H5.
    destruct H5 as [(b & Hb & Hi & Hlt & Hall & Hl)|(Hi & Hall & Hl)].
    + rewrite Hi, Hlt in H; cbn [negb] in H.
      injection H as Ei Est; subst st'.
      assert (Eb : b = i) by lia; subst b si.
      repeat (split; [assumption || lia|]).
      left; rewrite <- Eb; repeat split; [lia | assumption | assumption].
    + destruct (Nat.eqb_spec K 0) as [E|_]; [lia|].
      rewrite Hi in H; simpl in Hall, Hl.
      rewrite (Hall (0 + K - 1)) in H by lia.
      cbn [negb] in H.
      injection H as Ei Est; subst st'.
      assert (Eb : i = K) by lia; subst si.
      repeat (split; [assumption || lia|]).
      right; split; [exact Eb | exact Hall].
  - reflexivity.
  - unfold initial_sparsT; simpl; fold K; apply repeat_length.
  - lia.
  - intros j Hj; lia.
  - intros k P HP; destruct k; discriminate HP.
Qed.

Lemma BuildPTPs_inv (c : Config) (m : Model) :
  BuildPTPs c = OK m ->
  exists st,
    BuildPTPs_run c = OK (n_p m, st)
    /\ conf m = c
    /\ PTPs m = bs_PTPs st
    /\ ngrams m = firstn (n_p m) (MakenGrams_all (alpha c) (maxn_p c))
    /\ sparsities m
       = mkSparsity (firstn (n_p m) (Observed (bs_sparsT st)))
           (firstn (n_p m) (Possible (bs_sparsT st)))
           (firstn (n_p m) (SI (bs_sparsT st))).
Proof.
  unfold BuildPTPs; intros H.
  destruct (BuildPTPs_run c) as [e|[i st]]; [discriminate|].
  cbn in H; injection H as <-.
  exists st; repeat split; reflexivity.
Qed.

(** ** BuildPTPs: the claims *)

(** C7, as amended: the stored sparsity table is truncated to the [n_p]
    retained lengths, as many as there are retained matrices; the length
    whose ratio triggered the stop is not in it. *)
Theorem BuildPTPs_sparsities_truncated (c : Config) (m : Model) :
  BuildPTPs c = OK m ->
  length (PTPs m) = n_p m
  /\ length (Observed (sparsities m)) = n_p m
  /\ length (Possible (sparsities m)) = n_p m
  /\ length (SI (sparsities m)) = n_p m.
Proof.
  intros H; apply BuildPTPs_inv in H.
  destruct H as (st & Hrun & _ & HP & _ & HS).
  apply BuildPTPs_run_outcome in Hrun.
  destruct Hrun as (Hi & Hl & H1 & H2 & H3 & _).
  rewrite HP, HS; cbn [Observed Possible SI].
  rewrite !length_firstn; repeat split; lia.
Qed.

Lemma BuildPTPs_sparsities_truncated_witness :
  length (PTPs abab_model) = n_p abab_model
  /\ length (Observed (sparsities abab_model)) = n_p abab_model
  /\ length (Possible (sparsities abab_model)) = n_p abab_model
  /\ length (SI (sparsities abab_model)) = n_p abab_model.
Proof.
  apply (@BuildPTPs_sparsities_truncated abab_config abab_model).
  vm_compute; reflexivity.
Defined.

(** C7, as stated, fails: on the sequence abab the build stops at length
    3, whose ratio 2/8 is below the threshold 1/3; two matrices are
    retained and the stored table has two entries, not three. *)
Lemma BuildPTPs_sparsities_counterexample :
  exists m st,
    BuildPTPs abab_config = OK m
    /\ BuildPTPs_run abab_config = OK (n_p m, st)
    /\ bs_i st = Some 2
    /\ (nth 2 (SI (bs_sparsT st)) 0 < t_np abab_config)%Q
    /\ length (PTPs m) = 2
    /\ length (SI (sparsities m)) <> S (length (PTPs m)).
Proof.
  exists abab_model; eexists.
  split; [vm_compute; reflexivity|].
  split; [vm_compute; reflexivity|].
  split; [reflexivity|]; split; [reflexivity|]; split; [reflexivity|].
  simpl; discriminate.
Qed.

(** ** The row invariant of the matrices *)

Lemma ngram_indices_error (ngs red : list str) (e : exn) :
  ngram_indices ngs red = Err e -> e = ValueError.
Proof.
  unfold ngram_indices; induction red as [|g red IH]; simpl; [discriminate|].
  destruct (index_str g ngs); cbn [bind OK Err].
  - destruct (mapR _ red) as [e'|inds]; cbn [bind OK Err].
    + intros H; apply IH; injection H as <-; reflexivity.
    + discriminate.
  - intros H; injection H as <-; reflexivity.
Qed.

Lemma BuildPTP_error (c : Config) (ngs : list str) (red : option (list str))
  (e : exn) :
  BuildPTP c ngs red = Err e -> e = IndexError \/ e = ValueError.
Proof.
  unfold BuildPTP, BuildPTP_counts.
  destruct ngs as [|g ngs]; cbn [bind OK Err].
  - intros H; injection H as <-; auto.
  - destruct red as [red|]; cbn [bind OK Err].
    + destruct (ngram_indices (g :: ngs) red) as [e'|inds] eqn:E;
        cbn [bind OK Err].
      * intros H; injection H as <-.
        right; eapply ngram_indices_error; exact E.
      * discriminate.
    + discriminate.
Qed.

Lemma MakenGrams_all_length (al : list symbol) (maxn : Z) (i : nat)
  (ng : list str) :
  (Z.of_nat (S i) <= maxn)%Z ->
  nth_error (MakenGrams_all al maxn) i = Some ng ->
  length ng = length al ^ S i.
Proof.
  intros Hm Hng.
  apply (nth_error_nth _ _ []) in Hng.
  replace i with (S i - 1) in Hng by lia.
  rewrite MakenGrams_all_nth in Hng by lia.
  subst ng; destruct (Nat.eqb_spec (S i) 1) as [E|E].
  - rewrite E; apply all_patterns_length.
  - rewrite all_patterns_length.
    f_equal; apply Permutation_length, sort_syms_perm.
Qed.

Lemma BuildPTP_invariant (c : Config) (ngs : list str)
  (red : option (list str)) (P : PTP) (fnd : list str) :
  BuildPTP c ngs red = OK (P, fnd) -> 1 <= n_s c ->
  PTP_invariant (n_s c) (length ngs) P.
Proof.
  intros H HS; apply BuildPTP_inv in H; destruct H as (counts & Hc & ->).
  pose proof (BuildPTP_counts_nonneg _ _ _ Hc) as Hn.
  apply BuildPTP_counts_shape in Hc.
  split; [apply cells_PTP_shape; assumption|].
  intros r Hr.
  apply (@cells_row_invariant (n_s c) (length ngs) counts Hc Hn r HS Hr).
Qed.

(** C2, as amended: a matrix that [BuildPTP] returns has a column of
    counts for every symbol, the column of the totals and a column of
    relative frequencies for every symbol, each with an entry for every
    ngram (with an empty alphabet there is but the column of the totals,
    empty); in every row the counts sum to the total; when the total is
    positive the relative frequencies are the doubles nearest to the
    counts over the total, between 0 and 1, and sum to 1 up to [2^-53];
    when the total is 0 they are all 0.  The same holds of the matrix of
    every scale [k] that [BuildPTPs] retains, which has [S^(k+1)] rows.
    [BuildPTP] raises no division error. *)
Theorem PTP_rows_invariant (c : Config) :
  (forall ngs red, BuildPTP c ngs red <> Err ZeroDivisionError)
  /\ (forall ngs red P fnd,
        BuildPTP c ngs red = OK (P, fnd) ->
        (alpha c = [] -> P = [[]])
        /\ (alpha c <> [] -> PTP_invariant (n_s c) (length ngs) P))
  /\ (forall m k P,
        BuildPTPs c = OK m -> nth_error (PTPs m) k = Some P ->
        PTP_invariant (n_s c) (n_s c ^ (k + 1)) P).
Proof.
  split; [|split].
  - intros ngs red H; apply BuildPTP_error in H.
    destruct H; discriminate.
  - intros ngs red P fnd H; split; intros Ha.
    + apply BuildPTP_inv in H; destruct H as (counts & Hc & ->).
      apply BuildPTP_counts_shape in Hc; destruct Hc as [Hl _].
      unfold n_s in Hl; rewrite Ha in Hl.
      destruct counts; [reflexivity | discriminate Hl].
    + eapply BuildPTP_invariant; [exact H|].
      unfold n_s; destruct (alpha c); [congruence | simpl; lia].
  - intros m k P H Hk; apply BuildPTPs_inv in H.
    destruct H as (st & Hrun & _ & HP & _).
    pose proof Hrun as Ha; apply BuildPTPs_run_alphabet in Ha.
    destruct Ha as [_ HS].
    apply BuildPTPs_run_outcome in Hrun.
    destruct Hrun as (Hi & Hl & _ & _ & _ & Hb & _).
    rewrite HP in Hk.
    assert (Hlt : k < n_p m).
    { rewrite <- Hl; apply nth_error_Some; congruence. }
    apply Hb in Hk; destruct Hk as (ng & red & fnd & Eng & HB).
    replace (k + 1) with (S k) by lia.
    assert (E : length ng = n_s c ^ S k).
    { apply (@MakenGrams_all_length (alpha c) (maxn_p c) k ng);
        [lia | exact Eng]. }
    rewrite <- E; eapply BuildPTP_invariant; eassumption.
Qed.

Lemma PTP_rows_invariant_witness :
  PTP_invariant (n_s sixths_config) (length sixths_ngrams) (fst sixths_result).
Proof.
  apply (proj1 (proj2 (PTP_rows_invariant sixths_config))
           sixths_ngrams None (fst sixths_result) (snd sixths_result)).
  - vm_compute; reflexivity.
  - discriminate.
Defined.

(** C2, as stated, fails: over the alphabet a, b, c the symbol a of the
    sequence aababababac is followed once by a, four times by b and once
    by c; the relative frequencies of its row are the doubles nearest to
    1/6, 4/6 and 1/6, whose sum is not 1, neither exactly nor as floats
    added from left to right (0.9999999999999999). *)
Lemma PTP_rows_sum_counterexample :
  let P := fst sixths_result in
  BuildPTP sixths_config sixths_ngrams None = OK sixths_result
  /\ map (fun j => count_at P j 0) (seq 0 3) = [1; 4; 1]%Q
  /\ total_at 3 P 0 = 6%Q
  /\ ~ (Qsum (map (fun j => relfreq_at 3 P j 0) (seq 0 3)) == 1)%Q
  /\ ~ (fsum (map (fun j => relfreq_at 3 P j 0) (seq 0 3)) == 1)%Q.
Proof.
  split; [vm_compute; reflexivity|].
  split; [reflexivity|]; split; [reflexivity|].
  split; vm_compute; discriminate.
Qed.

(** ** BuildPTP: what the search loop tabulates *)

Lemma mem_sym_In (a : symbol) (l : list symbol) : mem_sym a l = true <-> In a l.
Proof.
  unfold mem_sym; rewrite existsb_exists; split.
  - intros (b & Hb & E); apply sym_eqb_eq in E; subst; assumption.
  - intros H; exists a; split; [assumption | apply sym_eqb_refl].
Qed.

Lemma uniq_adjacent_In (a : symbol) (l : list symbol) :
  In a (uniq_adjacent l) <-> In a l.
Proof.
  induction l as [|b l IH]; [tauto|].
  cbn [uniq_adjacent]; destruct l as [|b' l]; [tauto|].
  destruct (sym_eqb b b') eqn:E.
  - apply sym_eqb_eq in E; subst b'; rewrite IH; simpl; tauto.
  - change (In a (b :: uniq_adjacent (b' :: l)) <-> In a (b :: b' :: l)).
    simpl in *; rewrite IH; tauto.
Qed.

Lemma np_unique_In (a : symbol) (l : list symbol) :
  In a (np_unique l) <-> In a l.
Proof. unfold np_unique; rewrite uniq_adjacent_In; apply in_sort_syms. Qed.

Lemma np_unique_nil (l : list symbol) : np_unique l = [] -> l = [].
Proof.
  intros H; destruct l as [|a l]; [reflexivity|].
  assert (Ha : In a (np_unique (a :: l))) by (apply np_unique_In; simpl; auto).
  rewrite H in Ha; destruct Ha.
Qed.

Lemma count_sym_notin (a : symbol) (l : list symbol) :
  ~ In a l -> count_sym a l = 0.
Proof.
  unfold count_sym; induction l as [|b l IH]; simpl; intros H; [reflexivity|].
  destruct (sym_eqb a b) eqn:E.
  - apply sym_eqb_eq in E; subst; tauto.
  - apply IH; tauto.
Qed.

Lemma count_sym_in (a : symbol) (l : list symbol) :
  In a l -> 1 <= count_sym a l.
Proof.
  unfold count_sym; induction l as [|b l IH]; simpl; intros H; [destruct H|].
  destruct (sym_eqb a b) eqn:E; [simpl; lia|].
  destruct H as [->|H]; [rewrite sym_eqb_refl in E; discriminate | auto].
Qed.

Section search_fold.

Variable c : Config.
Variable np : nat.

Let followers := followers c np.

Lemma search_step_found (st : list (list Z) * list str) (ig : nat * str)
  (u : str) :
  In u (snd st) -> In u (snd (search_step c np st ig)).
Proof.
  unfold search_step; destruct (np_unique _); [auto|].
  simpl; intros H; apply in_or_app; auto.
Qed.

Lemma search_fold_keeps (items : list (nat * str))
  (st : list (list Z) * list str) (u : str) :
  In u (snd st) -> In u (snd (fold_left (search_step c np) items st)).
Proof.
  revert st; induction items as [|ig items IH]; intros st H; simpl; [exact H|].
  apply IH, search_step_found; exact H.
Qed.

Lemma search_fold_found (items : list (nat * str))
  (st : list (list Z) * list str) (i : nat) (g : str) (a : symbol) :
  In (i, g) items -> In a (followers g) ->
  In (g ++ np_str a) (snd (fold_left (search_step c np) items st)).
Proof.
  revert st; induction items as [|ig items IH]; intros st Hin Ha; [destruct Hin|].
  simpl; destruct Hin as [->|Hin]; [|apply IH; assumption].
  apply search_fold_keeps.
  unfold search_step; cbn [fst snd].
  change (following_chars c np (HashSearch (hashP_p c) (hashP_x c) (sequence c) g))
    with (followers g).
  destruct (np_unique (followers g)) as [|b l] eqn:E.
  - apply np_unique_nil in E; rewrite E in Ha; destruct Ha.
  - cbn [snd]; apply in_or_app; right.
    apply (in_map (fun a0 => g ++ np_str a0)).
    rewrite <- E; apply np_unique_In; exact Ha.
Qed.

Lemma tabulate_nth (i j r : nat) (chars : list symbol) (rows : nat)
  (counts : list (list Z)) :
  counts_shape (n_s c) rows counts -> j < n_s c ->
  nth r (nth j (tabulate c i chars counts) []) 0%Z
  = if mem_sym (nth j (alpha c) zero) (np_unique chars) && (r =? i) && (i <? rows)
    then Z.of_nat (count_sym (nth j (alpha c) zero) chars)
    else nth r (nth j counts []) 0%Z.
Proof.
  intros [Hl Hf] Hj; unfold tabulate, n_s in *.
  set (f := fun ac : symbol * list Z =>
              if mem_sym (fst ac) (np_unique chars)
              then set_nth i (Z.of_nat (count_sym (fst ac) chars)) (snd ac)
              else snd ac).
  rewrite (nth_indep (map f (combine (alpha c) counts)) [] (f (zero, [])))
    by (rewrite length_map, length_combine, Hl, Nat.min_id; exact Hj).
  rewrite map_nth, combine_nth by (symmetry; exact Hl).
  unfold f; cbn [fst snd].
  assert (Hc : length (nth j counts []) = rows).
  { rewrite Forall_forall in Hf; apply Hf, nth_In; lia. }
  destruct (mem_sym (nth j (alpha c) zero) (np_unique chars)); [|reflexivity].
  cbn [andb].
  destruct (Nat.eqb_spec r i) as [->|Hne]; cbn [andb].
  - destruct (Nat.ltb_spec i rows).
    + apply set_nth_same; lia.
    + rewrite !nth_overflow; try reflexivity; try lia.
      rewrite set_nth_length; lia.
  - apply set_nth_other; assumption.
Qed.

(** After the loop over consistent items (an index stands for one ngram),
    the cell of row [i] and symbol [j] is the number of times that symbol
    follows the ngram of the row, and the rows that were not searched
    keep their zeros. *)
Lemma search_fold_cells (rows : nat) (items : list (nat * str)) (fnd0 : list str) :
  (forall i g, In (i, g) items -> i < rows) ->
  (forall i g g', In (i, g) items -> In (i, g') items -> g = g') ->
  let counts :=
    fst (fold_left (search_step c np) items
           (map (fun _ => repeat 0%Z rows) (alpha c), fnd0)) in
  counts_shape (n_s c) rows counts
  /\ forall j r, j < n_s c ->
       (forall g, In (r, g) items ->
          nth r (nth j counts []) 0%Z
          = Z.of_nat (count_sym (nth j (alpha c) zero) (followers g)))
       /\ ((forall g, ~ In (r, g) items) -> nth r (nth j counts []) 0%Z = 0%Z).
Proof.
  induction items as [|[i g] items IH] using rev_ind; intros Hrows Hcons.
  - simpl; split.
    + unfold counts_shape; split; [apply length_map|].
      apply Forall_map, Forall_forall; intros a _; apply repeat_length.
    + intros j r Hj; split; [intros g []|intros _].
      rewrite (nth_indep _ [] (repeat 0%Z rows))
        by (rewrite length_map; exact Hj).
      rewrite (map_nth (fun _ : symbol => repeat 0%Z rows) (alpha c) zero j).
      destruct (Nat.lt_ge_cases r rows).
      * apply nth_repeat_lt; assumption.
      * apply nth_overflow; rewrite repeat_length; assumption.
  - rewrite fold_left_app; cbn [fold_left].
    destruct IH as [Hshape Hcells].
    { intros i' g' H; apply (Hrows i' g'), in_or_app; auto. }
    { intros i' g' g'' H H'; apply (Hcons i' g' g''); apply in_or_app; auto. }
    set (st := fold_left (search_step c np) items
                 (map (fun _ => repeat 0%Z rows) (alpha c), fnd0)) in *.
    assert (Hi : i < rows).
    { apply (Hrows i g), in_or_app; right; simpl; auto. }
    assert (Hold : forall j, j < n_s c ->
              ~ In (nth j (alpha c) zero) (followers g) ->
              nth i (nth j (fst st) []) 0%Z = 0%Z).
    { intros j Hj Hnot.
      destruct (Hcells j i Hj) as [Hsome Hnone].
      destruct (in_dec Nat.eq_dec i (map fst items)) as [Hin|Hin].
      - apply in_map_iff in Hin; destruct Hin as ([i' g'] & E & Hin).
        simpl in E; subst i'.
        assert (g' = g).
        { apply (Hcons i g' g); apply in_or_app; simpl; auto. }
        subst g'; rewrite (Hsome g Hin), count_sym_notin by assumption.
        reflexivity.
      - apply Hnone; intros g' Hg'; apply Hin.
        apply (in_map fst) in Hg'; exact Hg'. }
    split.
    + apply search_step_shape; exact Hshape.
    + intros j r Hj.
      assert (Hval :
                nth r (nth j (fst (search_step c np st (i, g))) []) 0%Z
                = if (r =? i)
                  then Z.of_nat (count_sym (nth j (alpha c) zero) (followers g))
                  else nth r (nth j (fst st) []) 0%Z).
      { unfold search_step; cbn [fst snd].
  change (following_chars c np (HashSearch (hashP_p c) (hashP_x c) (sequence c) g))
    with (followers g).
        destruct (np_unique (followers g)) as [|b l] eqn:E.
        - destruct (Nat.eqb_spec r i) as [->|Hne]; [|reflexivity].
          apply np_unique_nil in E.
          rewrite Hold by (try assumption; rewrite E; intros []).
          rewrite E; reflexivity.
        - cbn [fst]; rewrite (tabulate_nth _ _ _ Hshape Hj).
          destruct (Nat.eqb_spec r i) as [->|Hne];
            [|rewrite andb_false_r; reflexivity].
          replace (i <? rows) with true by (symmetry; apply Nat.ltb_lt; exact Hi).
          rewrite !andb_true_r.
          destruct (mem_sym _ _) eqn:Em; [reflexivity|].
          rewrite Hold; [|assumption|].
          + rewrite count_sym_notin; [reflexivity|].
            intros Hin; apply np_unique_In, mem_sym_In in Hin; congruence.
          + intros Hin; apply np_unique_In, mem_sym_In in Hin; congruence. }
      rewrite Hval; destruct (Hcells j r Hj) as [Hsome Hnone].
      destruct (Nat.eqb_spec r i) as [->|Hne]; split.
      * intros g' Hg'.
        assert (g' = g); [|subst; reflexivity].
        apply (Hcons i g' g); [exact Hg' | apply in_or_app; simpl; auto].
      * intros Hno; exfalso; apply (Hno g), in_or_app; simpl; auto.
      * intros g' Hg'; apply in_app_or in Hg'.
        destruct Hg' as [Hg'|[E|[]]]; [apply Hsome; exact Hg'|].
        injection E as E _; congruence.
      * intros Hno; apply Hnone; intros g' Hg'.
        apply (Hno g'), in_or_app; auto.
Qed.

End search_fold.

(** ** BuildPTP: the items searched *)

Lemma index_str_some (g : str) (l : list str) (i : nat) :
  index_str g l = Some i -> nth_error l i = Some g.
Proof.
  revert i; induction l as [|h l IH]; intros i; simpl; [discriminate|].
  destruct (str_eqb h g) eqn:E.
  - intros H; injection H as <-; apply str_eqb_eq in E; subst; reflexivity.
  - destruct (index_str g l) as [i'|]; [|discriminate].
    intros H; injection H as <-; simpl; apply IH; reflexivity.
Qed.

Lemma index_str_none (g : str) (l : list str) :
  ~ In g l -> index_str g l = None.
Proof.
  induction l as [|h l IH]; simpl; intros H; [reflexivity|].
  destruct (str_eqb h g) eqn:E.
  - apply str_eqb_eq in E; tauto.
  - rewrite IH by tauto; reflexivity.
Qed.

Lemma ngram_indices_ok (ngs red : list str) (inds : list nat) :
  ngram_indices ngs red = OK inds ->
  Forall2 (fun g i => index_str g ngs = Some i) red inds.
Proof.
  unfold ngram_indices; revert inds.
  induction red as [|g red IH]; intros inds; simpl.
  - intros H; injection H as <-; constructor.
  - destruct (index_str g ngs) as [i|] eqn:E; cbn [bind OK Err];
      [|discriminate].
    destruct (mapR _ red) as [e|inds']; cbn [bind OK Err]; [discriminate|].
    intros H; injection H as <-; constructor; [exact E | apply IH; reflexivity].
Qed.

Lemma ngram_indices_missing (ngs red : list str) (g : str) :
  In g red -> index_str g ngs = None ->
  ngram_indices ngs red = Err ValueError.
Proof.
  unfold ngram_indices; induction red as [|h red IH]; intros Hin Hg;
    [destruct Hin|].
  simpl; destruct (index_str h ngs) as [i|] eqn:E; cbn [bind OK Err];
    [|reflexivity].
  destruct Hin as [->|Hin]; [congruence|].
  rewrite (IH Hin Hg); reflexivity.
Qed.

Lemma in_combine_seq {A} (a : nat) (l : list A) (i : nat) (x : A) :
  In (i, x) (combine (seq a (length l)) l) <-> a <= i /\ nth_error l (i - a) = Some x.
Proof.
  revert a; induction l as [|y l IH]; intros a; simpl.
  - split; [tauto|]; intros [_ H]; destruct (i - a); discriminate.
  - rewrite IH; split.
    + intros [E|[Hle H]].
      * injection E as <- <-; rewrite Nat.sub_diag; auto.
      * split; [lia|].
        replace (i - a) with (S (i - S a)) by lia; exact H.
    + intros [Hle H]; destruct (Nat.eq_dec a i) as [<-|Hne].
      * rewrite Nat.sub_diag in H; injection H as <-; auto.
      * right; split; [lia|].
        replace (i - a) with (S (i - S a)) in H by lia; exact H.
Qed.

Lemma BuildPTP_counts_items (c : Config) (ngs : list str)
  (red : option (list str)) (counts : list (list Z)) (fnd : list str) :
  BuildPTP_counts c ngs red = OK (counts, fnd) ->
  exists items,
    (counts, fnd)
    = fold_left (search_step c (length (hd [] ngs))) items
        (map (fun _ => repeat 0%Z (length ngs)) (alpha c), [])
    /\ (forall i g, In (i, g) items -> nth_error ngs i = Some g)
    /\ (forall g, In g (match red with None => ngs | Some r => r end) ->
                  exists i, In (i, g) items).
Proof.
  unfold BuildPTP_counts; intros H.
  destruct ngs as [|g0 ngs']; [discriminate|].
  set (ngs := g0 :: ngs') in *.
  cbn [bind OK] in H.
  destruct red as [red|].
  - destruct (ngram_indices ngs red) as [e|inds] eqn:E; [discriminate|].
    cbn [bind OK fst snd] in H; injection H as H.
    apply ngram_indices_ok in E.
    exists (combine inds red); split; [symmetry; exact H|]; split.
    + clear H; induction E as [|g i red inds Hg _ IH]; intros i' g' Hin;
        [destruct Hin|].
      destruct Hin as [Heq|Hin]; [|apply IH; exact Hin].
      injection Heq as <- <-; apply index_str_some; exact Hg.
    + clear H; induction E as [|g i red inds Hg _ IH]; intros g' Hin;
        [destruct Hin|].
      destruct Hin as [<-|Hin]; [exists i; simpl; auto|].
      destruct (IH _ Hin) as [i' Hi']; exists i'; simpl; auto.
  - cbn [bind OK fst snd] in H; injection H as H.
    exists (combine (seq 0 (length ngs)) ngs); split; [symmetry; exact H|].
    split.
    + intros i g Hin; apply in_combine_seq in Hin.
      rewrite Nat.sub_0_r in Hin; apply Hin.
    + intros g Hin; apply In_nth_error in Hin; destruct Hin as [i Hi].
      exists i; apply in_combine_seq; rewrite Nat.sub_0_r; split; [lia|exact Hi].
Qed.

Lemma count_sym_cons (a x : symbol) (l : list symbol) :
  count_sym a (x :: l) = (if sym_eqb a x then 1 else 0) + count_sym a l.
Proof. unfold count_sym; simpl; destruct (sym_eqb a x); reflexivity. Qed.

Lemma indicator_sum_le (x : symbol) (l : list symbol) :
  NoDup l ->
  (Zsum (map (fun a => Z.of_nat (if sym_eqb a x then 1 else 0)) l) <= 1
   /\ (~ In x l ->
       Zsum (map (fun a => Z.of_nat (if sym_eqb a x then 1 else 0)) l) = 0))%Z.
Proof.
  induction 1 as [|a l Ha Hl [IH1 IH2]]; simpl; [split; [lia | reflexivity]|].
  destruct (sym_eqb a x) eqn:E.
  - apply sym_eqb_eq in E; subst a.
    rewrite (IH2 Ha); split; [simpl; lia | tauto].
  - split; [simpl; lia|].
    intros Hx; rewrite IH2 by tauto; reflexivity.
Qed.

Lemma counts_sum_le (chars l : list symbol) :
  NoDup l ->
  (Zsum (map (fun a => Z.of_nat (count_sym a chars)) l)
   <= Z.of_nat (length chars))%Z.
Proof.
  intros Hl; induction chars as [|x chars IH].
  - unfold count_sym; simpl.
    clear Hl; induction l as [|a l IHl]; simpl; lia.
  - destruct (indicator_sum_le x Hl) as [Hle _].
    assert (E : Zsum (map (fun a => Z.of_nat (count_sym a (x :: chars))) l)
                = (Zsum (map (fun a => Z.of_nat (if sym_eqb a x then 1 else 0)) l)
                   + Zsum (map (fun a => Z.of_nat (count_sym a chars)) l))%Z).
    { clear; induction l as [|a l IHl]; [reflexivity|].
      cbn [map Zsum fold_right]; fold Zsum in *.
      change (fold_right Z.add 0%Z) with Zsum.
      rewrite IHl, count_sym_cons, Nat2Z.inj_add; ring. }
    rewrite E; simpl length; lia.
Qed.

(** ** BuildPTP: a following symbol outside the alphabet *)

Lemma followers_In (c : Config) (g : str) (k : nat) (ch : symbol) :
  1 <= length g ->
  window (sequence c) k (length g) = g ->
  nth_error (sequence c) (k + length g) = Some ch ->
  In ch (followers c (length g) g).
Proof.
  intros Hg Hw Hn; unfold followers, following_chars.
  assert (Hlt : k + length g < length (sequence c)).
  { apply nth_error_Some; congruence. }
  apply in_map_iff; exists k; split.
  - apply nth_error_nth; exact Hn.
  - apply filter_In; split.
    + apply HashSearch_In; [exact Hg|]; split; [lia | exact Hw].
    + apply Nat.leb_le; unfold n; lia.
Qed.

(** C10, as amended: in [BuildPTP], when an occurrence of a candidate
    [g] is followed by a symbol [ch] that is not in the alphabet, the
    cells of the row of [g] count the alphabet symbols only and the
    total is their sum, so [ch] is in neither (with distinct alphabet
    symbols the total is less than the number of followers); yet [g]
    followed by [ch] as numpy returns it ([ch] itself, or nothing when
    [ch] is NUL) is among the found patterns, and with them as reduced
    list [BuildPTP] fails on the index lookup for any list of ngrams of
    the next length over the alphabet. *)
Theorem BuildPTP_foreign_symbol (c : Config) (ngs : list str)
  (red : option (list str)) (P : PTP) (fnd : list str)
  (g : str) (k : nat) (ch : symbol) :
  BuildPTP c ngs red = OK (P, fnd) ->
  In g (match red with None => ngs | Some r => r end) ->
  1 <= length g -> length g = length (hd [] ngs) ->
  window (sequence c) k (length g) = g ->
  nth_error (sequence c) (k + length g) = Some ch ->
  ~ In ch (alpha c) ->
  let chars := followers c (length g) g in
  In ch chars
  /\ In (g ++ np_str ch) fnd
  /\ (exists r,
        nth_error ngs r = Some g
        /\ (forall j, j < n_s c ->
              count_at P j r
              = inject_Z (Z.of_nat (count_sym (nth j (alpha c) zero) chars)))
        /\ total_at (n_s c) P r
           = inject_Z (Zsum (map (fun a => Z.of_nat (count_sym a chars))
                               (alpha c)))
        /\ (NoDup (alpha c) ->
            (total_at (n_s c) P r < inject_Z (Z.of_nat (length chars)))%Q))
  /\ (forall ngs', ngs' <> [] ->
        Forall (fun u => length u = length g + 1
                         /\ Forall (fun a => In a (alpha c)) u) ngs' ->
        BuildPTP c ngs' (Some fnd) = Err ValueError).
Proof.
  intros HP Hcand Hg Hnp Hw Hn Hch chars.
  assert (Hin : In ch chars).
  { unfold chars; eapply followers_In; eassumption. }
  apply BuildPTP_inv in HP; destruct HP as (counts & Hc & ->).
  pose proof Hc as Hshape; apply BuildPTP_counts_shape in Hshape.
  apply BuildPTP_counts_items in Hc.
  destruct Hc as (items & Hfold & Hitems & Hsearched).
  destruct (Hsearched g Hcand) as [r Hr].
  rewrite <- Hnp in Hfold.
  assert (Hfnd : In (g ++ np_str ch) fnd).
  { change fnd with (snd (counts, fnd)); rewrite Hfold.
    eapply search_fold_found; [exact Hr | exact Hin]. }
  assert (Hcells := @search_fold_cells c (length g) (length ngs) items []).
  cbv zeta in Hcells; rewrite <- Hfold in Hcells; cbn [fst] in Hcells.
  destruct Hcells as [_ Hcells].
  { intros i g' Hi; apply Hitems in Hi.
    apply nth_error_Some; congruence. }
  { intros i g' g'' Hi Hi'; apply Hitems in Hi, Hi'; congruence. }
  assert (Hrow : r < length ngs).
  { apply nth_error_Some; rewrite (Hitems r g Hr); discriminate. }
  assert (Htot : total_at (n_s c)
                   (map (map inject_Z) counts
                    ++ [map inject_Z (map Zsum (zip_star counts))]
                    ++ map (fun col => rel_freqs col (map Zsum (zip_star counts)))
                         counts) r
                 = inject_Z (Zsum (map (fun a => Z.of_nat (count_sym a chars))
                                     (alpha c)))).
  { destruct (Nat.eq_dec (n_s c) 0) as [E0|E0].
    - destruct Hshape as [Hl _]; rewrite E0 in Hl.
      destruct counts; [|discriminate].
      unfold total_at, n_s in *; destruct (alpha c); [|discriminate].
      simpl; destruct r; reflexivity.
    - rewrite (@total_cell (n_s c) (length ngs) counts Hshape r); f_equal.
      assert (Ht := @tots_length (n_s c) (length ngs) counts Hshape).
      rewrite (@tots_nth (n_s c) (length ngs) counts Hshape r)
        by (rewrite Ht; lia).
      rewrite (map_nth_seq (fun a => Z.of_nat (count_sym a chars)) zero).
      fold (n_s c); f_equal.
      apply map_ext_in; intros j Hj; apply in_seq in Hj.
      apply (Hcells j r); [lia | exact Hr]. }
  split; [exact Hin|]; split; [exact Hfnd|]; split.
  - exists r; split; [apply Hitems; exact Hr|]; split; [|split].
    + intros j Hj.
      rewrite (@count_cell (n_s c) (length ngs) counts Hshape j r Hj Hrow).
      f_equal; apply (Hcells j r Hj); exact Hr.
    + exact Htot.
    + intros Hnd; rewrite Htot, <- Zlt_Qlt.
      assert (Hle := @counts_sum_le chars (ch :: alpha c)).
      cbn [map Zsum fold_right] in Hle.
      change (fold_right Z.add 0%Z) with Zsum in Hle.
      specialize (Hle (NoDup_cons _ Hch Hnd)).
      pose proof (@count_sym_in ch chars Hin); lia.
  - intros ngs' Hne Halpha.
    unfold BuildPTP, BuildPTP_counts.
    destruct ngs' as [|g0 ngs'']; [congruence|].
    cbn [bind OK].
    rewrite (@ngram_indices_missing (g0 :: ngs'') fnd (g ++ np_str ch)).
    + reflexivity.
    + exact Hfnd.
    + apply index_str_none; intros Hmem.
      rewrite Forall_forall in Halpha; specialize (Halpha _ Hmem).
      destruct Halpha as [Hlen Halpha]; unfold np_str in *.
      destruct (sym_eqb ch zero).
      * rewrite length_app in Hlen; simpl in Hlen; lia.
      * apply Forall_app in Halpha; destruct Halpha as [_ Hlast].
        apply Forall_cons_iff in Hlast; destruct Hlast; contradiction.
Qed.

Lemma BuildPTP_foreign_symbol_witness :
  let c := foreign_config in
  let P := fst foreign_result in
  let fnd := snd foreign_result in
  let g := ["b"%char] in
  let ch := "x"%char in
  let chars := followers c (length g) g in
  In ch chars
  /\ In (g ++ np_str ch) fnd
  /\ (exists r,
        nth_error foreign_ngrams r = Some g
        /\ (forall j, j < n_s c ->
              count_at P j r
              = inject_Z (Z.of_nat (count_sym (nth j (alpha c) zero) chars)))
        /\ total_at (n_s c) P r
           = inject_Z (Zsum (map (fun a => Z.of_nat (count_sym a chars))
                               (alpha c)))
        /\ (NoDup (alpha c) ->
            (total_at (n_s c) P r < inject_Z (Z.of_nat (length chars)))%Q))
  /\ (forall ngs', ngs' <> [] ->
        Forall (fun u => length u = length g + 1
                         /\ Forall (fun a => In a (alpha c)) u) ngs' ->
        BuildPTP c ngs' (Some fnd) = Err ValueError).
Proof.
  apply (@BuildPTP_foreign_symbol foreign_config foreign_ngrams None
           (fst foreign_result) (snd foreign_result) ["b"%char] 1 "x"%char).
  - vm_compute; reflexivity.
  - simpl; right; left; reflexivity.
  - simpl; apply Nat.le_refl.
  - reflexivity.
  - reflexivity.
  - reflexivity.
  - simpl; intros [H|[H|[]]]; discriminate H.
Defined.

(** C10, as stated, fails when the foreign symbol is NUL: over the
    alphabet a, b, in the sequence of b followed by NUL, numpy returns
    the empty string for the follower of b, so that the pattern found is
    b itself and not b followed by NUL. *)
Lemma BuildPTP_nul_follower_counterexample :
  let c := nul_config in
  let g := ["b"%char] in
  exists P fnd,
    BuildPTP c [["a"%char]; ["b"%char]] None = OK (P, fnd)
    /\ window (sequence c) 0 (length g) = g
    /\ nth_error (sequence c) (0 + length g) = Some zero
    /\ ~ In zero (alpha c)
    /\ fnd = [g]
    /\ ~ In (g ++ [zero]) fnd.
Proof.
  eexists; eexists; split; [vm_compute; reflexivity|].
  split; [reflexivity|]; split; [reflexivity|].
  split; [simpl; intros [H|[H|[]]]; discriminate H|].
  split; [reflexivity|].
  simpl; intros [H|[]]; discriminate H.
Qed.

(** ** Built models *)

Lemma BuildPTP_shape (c : Config) (ngs : list str) (red : option (list str))
  (P : PTP) (fnd : list str) :
  1 <= n_s c ->
  BuildPTP c ngs red = OK (P, fnd) -> PTP_shape (n_s c) (length ngs) P.
Proof.
  intros HS H; apply BuildPTP_inv in H; destruct H as (counts & Hc & ->).
  apply BuildPTP_counts_shape in Hc.
  apply cells_PTP_shape; assumption.
Qed.

(** What [BuildPTPs] leaves in the object: a non-empty alphabet and, for
    every retained scale, the list of its ngrams and a matrix with a
    column entry for each of them. *)
Lemma built_model (c : Config) (m : Model) :
  BuildPTPs c = OK m ->
  conf m = c
  /\ 1 <= n_s c
  /\ length (PTPs m) = n_p m
  /\ forall i, i < n_p m ->
       exists ng P,
         nth_error (ngrams m) i = Some ng
         /\ length ng = n_s c ^ S i
         /\ nth_error (PTPs m) i = Some P
         /\ PTP_shape (n_s c) (length ng) P.
Proof.
  intros H; apply BuildPTPs_inv in H.
  destruct H as (st & Hrun & Hc & HP & Hng & _).
  pose proof Hrun as Ha; apply BuildPTPs_run_alphabet in Ha.
  destruct Ha as [HK HS].
  apply BuildPTPs_run_outcome in Hrun.
  destruct Hrun as (Hi & Hl & _ & _ & _ & Hb & _).
  split; [exact Hc|]; split; [exact HS|]; split; [rewrite HP; exact Hl|].
  intros i Hlt.
  destruct (nth_error (PTPs m) i) as [P|] eqn:EP.
  - rewrite HP in EP; pose proof (Hb _ _ EP) as Hbf.
    destruct Hbf as (ng & red & fnd & Eng & HB).
    exists ng, P; split; [|split; [|split]].
    + rewrite Hng, nth_error_firstn.
      destruct (Nat.ltb_spec i (n_p m)); [exact Eng | lia].
    + apply (@MakenGrams_all_length (alpha c) (maxn_p c) i ng); [lia | exact Eng].
    + reflexivity.
    + eapply BuildPTP_shape; eassumption.
  - apply nth_error_None in EP; rewrite HP in EP; lia.
Qed.

(** ** Predict *)

Lemma get_ok {A} (l : list A) (i : nat) (d : A) :
  i < length l -> get l i = OK (nth i l d).
Proof.
  intros H; unfold get.
  rewrite (nth_error_nth' l d H); reflexivity.
Qed.

Lemma get_some {A} (l : list A) (i : nat) (a : A) :
  nth_error l i = Some a -> get l i = OK a.
Proof. unfold get; intros ->; reflexivity. Qed.

Lemma mapR_get (cols : list (list Q)) (r rows : nat) :
  r < rows -> Forall (fun col => length col = rows) cols ->
  mapR (fun col => get col r) cols = OK (map (fun col => nth r col 0%Q) cols).
Proof.
  intros Hr; induction 1 as [|col cols Hc _ IH]; simpl; [reflexivity|].
  rewrite (get_ok col 0%Q) by lia; cbn [bind OK].
  rewrite IH; reflexivity.
Qed.

Lemma index_str_lt (g : str) (l : list str) (i : nat) :
  index_str g l = Some i -> i < length l.
Proof.
  intros H; apply index_str_some in H.
  apply nth_error_Some; congruence.
Qed.

Lemma PTP_shape_skipn (S_ rows : nat) (P : PTP) :
  PTP_shape S_ rows P ->
  length (skipn (S_ + 1) P) = S_
  /\ Forall (fun col => length col = rows) (skipn (S_ + 1) P).
Proof.
  intros [Hl Hf]; split.
  - rewrite length_skipn; lia.
  - rewrite <- (firstn_skipn (S_ + 1) P) in Hf.
    apply Forall_app in Hf; apply Hf.
Qed.

Section Predict_facts.

Variables (c : Config) (m : Model).

Hypothesis Hbuilt : BuildPTPs c = OK m.

(** A scale whose row for the context has total zero: the step appends a
    row of [n_s] frequencies and takes one from [w]. *)
Lemma gather_step_zero (ctx : str) (st : list (list Q) * Z) (i r : nat)
  (ng : list str) :
  i < n_p m ->
  nth_error (ngrams m) i = Some ng ->
  index_str (last_syms (i + 1) ctx) ng = Some r ->
  (total_at (n_s c) (nth i (PTPs m) []) r == 0)%Q ->
  exists row,
    length row = n_s c
    /\ gather_step m ctx st i = OK (fst st ++ [row], (snd st - 1)%Z).
Proof.
  intros Hi Hng Hr Htot.
  pose proof Hbuilt as Hbm; apply built_model in Hbm.
  destruct Hbm as (Hc & HS & Hl & Hscale).
  destruct (Hscale i Hi) as (ng' & P & Hng' & Hlen & HP & Hshape).
  rewrite Hng in Hng'; injection Hng' as <-.
  pose proof Hr as Hrow; apply index_str_lt in Hrow.
  pose proof Hshape as Hsk; apply PTP_shape_skipn in Hsk.
  destruct Hsk as [Hsl Hsf].
  exists (map (fun col => nth r col 0%Q) (skipn (n_s c + 1) P)).
  split; [rewrite length_map; exact Hsl|].
  unfold gather_step.
  rewrite (@get_some _ (ngrams m) i ng Hng); cbn [bind OK].
  rewrite Hr; cbn [bind OK].
  rewrite (@get_some _ (PTPs m) i P HP); cbn [bind OK]; rewrite Hc.
  rewrite (@mapR_get _ r (length ng) Hrow Hsf); cbn [bind OK].
  destruct Hshape as [HPl HPf].
  rewrite (@get_ok _ P (n_s c) []) by lia; cbn [bind OK].
  assert (Hcol : length (nth (n_s c) P []) = length ng).
  { rewrite Forall_forall in HPf; apply HPf, nth_In; lia. }
  rewrite (@get_ok _ (nth (n_s c) P []) r 0%Q) by lia; cbn [bind OK].
  apply (nth_error_nth _ _ []) in HP; rewrite HP in Htot.
  unfold total_at in Htot.
  apply Qeq_bool_iff in Htot; rewrite Htot; reflexivity.
Qed.

Lemma gather_zero (ctx : str) (len a : nat) (st : list (list Q) * Z) :
  a + len <= n_p m ->
  (forall i, a <= i < a + len ->
     exists ng r,
       nth_error (ngrams m) i = Some ng
       /\ index_str (last_syms (i + 1) ctx) ng = Some r
       /\ (total_at (n_s c) (nth i (PTPs m) []) r == 0)%Q) ->
  exists rows,
    length rows = len
    /\ Forall (fun row => length row = n_s c) rows
    /\ gather m ctx (seq a len) st
       = OK (fst st ++ rows, (snd st - Z.of_nat len)%Z).
Proof.
  revert a st; induction len as [|len IH]; intros a st Hle Hz.
  - exists []; simpl; rewrite app_nil_r, Z.sub_0_r.
    destruct st; repeat split; constructor.
  - destruct (Hz a) as (ng & r & Hng & Hr & Htot); [lia|].
    destruct (@gather_step_zero ctx st a r ng) as (row & Hrow & Hstep);
      try assumption; [lia|].
    destruct (IH (S a) (fst st ++ [row], (snd st - 1)%Z)) as (rows & Hl & Hf & Hg).
    { lia. }
    { intros i Hi; apply Hz; lia. }
    exists (row :: rows); split; [simpl; lia|]; split; [constructor; assumption|].
    cbn [seq gather]; rewrite Hstep; cbn [bind OK].
    rewrite Hg; cbn [fst snd]; rewrite <- app_assoc.
    f_equal; f_equal; lia.
Qed.

Lemma average_zero (rows : list (list Q)) :
  1 <= length rows -> 1 <= n_s c ->
  Forall (fun row => length row = n_s c) rows ->
  average rows 0 = Err ZeroDivisionError.
Proof.
  intros Hr HS Hf; unfold average.
  destruct rows as [|row rows]; [simpl in Hr; lia|].
  unfold zip_star.
  assert (Hrow : length row = n_s c) by (inversion Hf; assumption).
  rewrite Hrow; destruct (n_s c) as [|k] eqn:E; [lia|].
  cbn [zip_rows].
  destruct (heads_some (cols := row :: rows)) as [h Hh].
  { eapply Forall_impl; [|exact Hf]; intros [|? ?]; simpl;
      [discriminate | congruence]. }
  rewrite Hh; reflexivity.
Qed.

End Predict_facts.

(** C5, as amended: on a built model, when every scale consulted for
    the context has a row of total zero, so that the adjusted weight [w]
    is zero at the division, [Predict] raises an error and returns
    neither probabilities nor a symbol: with at least one scale
    consulted the division raises Python's [ZeroDivisionError]; with
    none consulted ([w] zero from the start) the maximum of an empty
    list raises [ValueError]. *)
Theorem Predict_degenerate (c : Config) (m : Model) (predStart : option str) :
  BuildPTPs c = OK m ->
  let ctx := match predStart with
             | None => last_syms (n_p m) (sequence c)
             | Some ps => ps
             end in
  let w := match predStart with
           | None => n_p m
           | Some ps => Nat.min (length ps) (n_p m)
           end in
  (forall i, i < w ->
     exists ng r,
       nth_error (ngrams m) i = Some ng
       /\ index_str (last_syms (i + 1) ctx) ng = Some r
       /\ (total_at (n_s c) (nth i (PTPs m) []) r == 0)%Q) ->
  (1 <= w -> Predict m predStart = Err ZeroDivisionError)
  /\ (w = 0 -> Predict m predStart = Err ValueError).
Proof.
  intros Hb ctx w Hz.
  pose proof Hb as Hbm; apply built_model in Hbm.
  destruct Hbm as (Hc & HS & _).
  assert (Hwn : 0 + w <= n_p m) by (unfold w; destruct predStart; lia).
  destruct (@gather_zero c m Hb ctx w 0 ([], Z.of_nat w) Hwn)
    as (rows & Hl & Hf & Hg).
  { intros i Hi; apply Hz; lia. }
  assert (E : (match predStart with
               | None => (last_syms (n_p m) (sequence (conf m)), n_p m)
               | Some ps => (ps, Nat.min (length ps) (n_p m))
               end) = (ctx, w)).
  { unfold ctx, w; rewrite Hc; destruct predStart; reflexivity. }
  unfold Predict; rewrite E; cbn [fst snd].
  rewrite Hg; cbn [bind OK fst snd app]; rewrite Z.sub_diag.
  split; intros Hw.
  - rewrite (@average_zero c rows); [reflexivity | lia | exact HS | exact Hf].
  - rewrite Hw in Hl; destruct rows; [reflexivity | discriminate].
Qed.

Lemma Predict_degenerate_witness :
  Predict degenerate_model None = Err ZeroDivisionError.
Proof.
  refine (proj1 (@Predict_degenerate degenerate_config degenerate_model None
                   _ _) _).
  - vm_compute; reflexivity.
  - intros i Hi; destruct i as [|i].
    + exists [["a"%char]; ["b"%char]], 1.
      split; [reflexivity|]; split; reflexivity.
    + exfalso; simpl in Hi; lia.
  - simpl; apply Nat.le_refl.
Defined.

(** C5, as stated, fails: the error is no error of the program's own
    that tells a degenerate model from another failure.  On the model
    whose only scale has no support for the last symbol, [Predict]
    raises the [ZeroDivisionError] of the division itself; with no scale
    consulted (an empty context, [w] zero from the start) it raises the
    [ValueError] that it raises when a lookup fails, here for a context
    whose symbol is not in the alphabet. *)
Lemma Predict_degenerate_counterexample :
  Predict degenerate_model None = Err ZeroDivisionError
  /\ Predict abab_model (Some []) = Err ValueError
  /\ Predict abab_model (Some ["x"%char]) = Err ValueError.
Proof. split; [|split]; vm_compute; reflexivity. Qed.

(** ** Simulate *)

(** C6, on the code: [Simulate(0)] never returns the empty sequence.
    After the first call of [Predict], which may raise, the first variate
    [rnds[0]] is read from an empty array, which raises [IndexError]; on
    the model of the sequence abab it is that error. *)
Theorem Simulate_zero_raises (m : Model) :
  (Simulate m [] = Err IndexError
   \/ exists e, Predict m None = Err e /\ Simulate m [] = Err e)
  /\ Simulate abab_model [] = Err IndexError.
Proof.
  split; [|vm_compute; reflexivity].
  unfold Simulate; destruct (Predict m None) as [e|sp].
  - right; exists e; split; reflexivity.
  - left; reflexivity.
Qed.

Lemma simOne_alphabet (m : Model) (rnd : Q) (prbs : list Q) (a : symbol) :
  simOne m rnd prbs = OK a -> In a (alpha (conf m)).
Proof.
  unfold simOne.
  destruct (filter _ (combine (alpha (conf m)) prbs)) as [|ap l] eqn:E;
    [discriminate|].
  intros H; injection H as <-.
  assert (Hin : In ap (ap :: l)) by (simpl; auto).
  rewrite <- E in Hin; apply filter_In in Hin; destruct Hin as [Hin _].
  destruct ap as [a p]; apply in_combine_l in Hin; exact Hin.
Qed.

Lemma simulate_loop_length (m : Model) (irnds : list (nat * Q))
  (st : list ascii * list (list ascii * list Q)) (s : list ascii) :
  simulate_loop m irnds st = OK s ->
  Forall (fun a => In a (alpha (conf m))) (fst st) ->
  length s = length (fst st) + length irnds
  /\ Forall (fun a => In a (alpha (conf m))) s.
Proof.
  revert st; induction irnds as [|[i rnd] irnds IH]; intros st H Hf.
  - simpl in H; injection H as <-; split; [simpl; lia | exact Hf].
  - cbn [simulate_loop] in H.
    destruct (match lookup_str _ (snd st) with
              | Some probs => OK (probs, snd st)
              | None => _
              end) as [e|pd]; [discriminate|].
    cbn [bind] in H.
    destruct (simOne m rnd (cumsum (fst pd))) as [e|a] eqn:Ea; [discriminate|].
    cbn [bind] in H; apply IH in H; cbn [fst] in *.
    + rewrite length_app in H; simpl in *; split; [lia | apply H].
    + apply Forall_app; split; [exact Hf|].
      constructor; [|constructor].
      eapply simOne_alphabet; exact Ea.
Qed.

(** When [Simulate] returns, for [nstar >= 1] variates, it returns
    [nstar] symbols of the alphabet. *)
Lemma Simulate_length (m : Model) (rnds : list Q) (s : list ascii) :
  Simulate m rnds = OK s ->
  1 <= length rnds
  /\ length s = length rnds
  /\ Forall (fun a => In a (alpha (conf m))) s.
Proof.
  unfold Simulate; intros H.
  destruct (Predict m None) as [e|sp]; [discriminate|].
  cbn [bind] in H.
  destruct rnds as [|rnd0 rnds]; [discriminate|].
  cbn [get nth_error bind OK] in H.
  destruct (simOne m rnd0 (cumsum (snd sp))) as [e|a] eqn:Ea; [discriminate|].
  cbn [bind] in H; apply simulate_loop_length in H; cbn [fst] in *.
  - destruct H as [Hl Hf]; split; [simpl; lia|]; split; [|exact Hf].
    rewrite Hl, length_combine, length_seq; simpl; lia.
  - constructor; [|constructor]; eapply simOne_alphabet; exact Ea.
Qed.

Example Simulate_three :
  Simulate abab_model [1 # 2; 1 # 3; 9 # 10]
  = OK ["a"; "b"; "a"]%char.
Proof. vm_compute; reflexivity. Qed.

(** ** Distance *)

Lemma zeros_shape (rows cols : nat) : block_shape rows cols (zeros rows cols).
Proof.
  unfold block_shape, zeros; split; [apply repeat_length|].
  apply Forall_forall; intros r Hr; apply repeat_spec in Hr; subst.
  apply repeat_length.
Qed.

Lemma embed_shape (rows cols : nat) (a : list (list Q)) :
  block_shape rows cols (embed rows cols a).
Proof.
  unfold block_shape, embed; split; [rewrite length_map; apply length_seq|].
  apply Forall_map, Forall_forall; intros i _.
  rewrite length_map; apply length_seq.
Qed.

Lemma shape_eqb_blocks (rows cols : nat) (a b : list (list Q)) :
  block_shape rows cols a -> block_shape rows cols b -> shape_eqb a b = true.
Proof.
  unfold block_shape, shape_eqb; intros [Ha Hfa] [Hb Hfb].
  apply andb_true_iff; split; apply Nat.eqb_eq; [congruence|].
  destruct a as [|ra a], b as [|rb b]; simpl in *; try lia.
  inversion Hfa; inversion Hfb; congruence.
Qed.

Lemma row_abs_diff_comm (u v : list Q) :
  (Qsum (map (fun xy : Q * Q => Qabs (fst xy - snd xy)) (combine u v))
   == Qsum (map (fun xy : Q * Q => Qabs (fst xy - snd xy)) (combine v u)))%Q.
Proof.
  revert v; induction u as [|x u IH]; intros [|y v]; try reflexivity.
  unfold Qsum in *; cbn [combine map fold_right fst snd].
  rewrite IH, Qabs_Qminus; reflexivity.
Qed.

Lemma sum_abs_diff_comm (a b : list (list Q)) :
  (sum_abs_diff a b == sum_abs_diff b a)%Q.
Proof.
  unfold sum_abs_diff; revert b.
  induction a as [|u a IH]; intros [|v b]; try reflexivity.
  cbn [combine map fst snd].
  change (Qsum (?x :: ?l)) with (x + Qsum l)%Q.
  unfold Qsum at 1 3; cbn [fold_right]; fold (Qsum).
  apply Qplus_comp; [apply row_abs_diff_comm | apply IH].
Qed.

Lemma row_abs_diff_self (u : list Q) :
  (Qsum (map (fun xy : Q * Q => Qabs (fst xy - snd xy)) (combine u u)) == 0)%Q.
Proof.
  induction u as [|x u IH]; [reflexivity|].
  unfold Qsum in *; cbn [combine map fold_right fst snd].
  rewrite IH.
  setoid_replace (x - x)%Q with 0%Q by ring.
  reflexivity.
Qed.

Lemma sum_abs_diff_self (a : list (list Q)) : (sum_abs_diff a a == 0)%Q.
Proof.
  unfold sum_abs_diff; induction a as [|u a IH]; [reflexivity|].
  cbn [combine map fst snd].
  unfold Qsum at 1; cbn [fold_right]; fold (Qsum).
  rewrite IH, row_abs_diff_self; reflexivity.
Qed.

Lemma rel_block_comm (A B who : Model) (k : nat) :
  rel_block A B who k = rel_block B A who k.
Proof. unfold rel_block; rewrite Nat.max_comm; reflexivity. Qed.

(** The block of a built model has the common shape, whether it is the
    model's own matrix, its matrix padded with zeros, or zeros. *)
Lemma rel_block_built (self other who : Model) (cw : Config) (k : nat) :
  BuildPTPs cw = OK who ->
  n_s (conf who) <= Nat.max (n_s (conf self)) (n_s (conf other)) ->
  let Ns := Nat.max (n_s (conf self)) (n_s (conf other)) in
  exists b, rel_block self other who k = OK b
            /\ block_shape Ns (Ns ^ (k + 1)) b.
Proof.
  intros Hb Hle Ns; fold Ns in Hle.
  apply built_model in Hb; destruct Hb as (Hc & HS & Hl & Hscale).
  unfold rel_block; fold Ns.
  destruct (nth_error (PTPs who) k) as [P|] eqn:EP;
    [|eexists; split; [reflexivity | apply zeros_shape]].
  assert (Hk : k < n_p who).
  { rewrite <- Hl; apply nth_error_Some; congruence. }
  destruct (Hscale k Hk) as (ng & P' & _ & Hlen & EP' & Hshape).
  rewrite EP in EP'; injection EP' as <-.
  rewrite Hc in *; rewrite Hlen in Hshape.
  apply PTP_shape_skipn in Hshape; destruct Hshape as [Hsl Hsf].
  replace (S k) with (k + 1) in Hsf by lia.
  set (mine := skipn (n_s cw + 1) P) in *.
  assert (Hcols : n_cols mine = n_s cw ^ (k + 1)).
  { destruct mine as [|r0 rest]; [simpl in Hsl; lia|].
    inversion Hsf; assumption. }
  assert (Hrect : forallb (fun r => length r =? n_cols mine) mine = true).
  { apply forallb_forall; intros r Hr; apply Nat.eqb_eq.
    rewrite Forall_forall in Hsf; rewrite Hcols; apply Hsf; exact Hr. }
  rewrite Hrect; cbn [negb].
  destruct (Nat.ltb_spec (n_s cw) Ns) as [Hlt|Hge].
  - destruct mine as [|r0 rest] eqn:Em; [simpl in Hsl; lia|].
    rewrite <- Em in *.
    replace (length mine <=? Ns) with true
      by (symmetry; apply Nat.leb_le; lia).
    replace (n_cols mine <=? Ns ^ (k + 1)) with true.
    + eexists; split; [reflexivity | apply embed_shape].
    + symmetry; apply Nat.leb_le; rewrite Hcols.
      apply Nat.pow_le_mono_l; lia.
  - assert (E : n_s cw = Ns) by lia.
    eexists; split; [reflexivity|].
    unfold block_shape; rewrite <- E; split; assumption.
Qed.

Section Distance_facts.

Variables (ca cb : Config) (A B : Model).

Hypothesis HA : BuildPTPs ca = OK A.
Hypothesis HB : BuildPTPs cb = OK B.

Lemma distance_step_ok (d : Q) (k : nat) :
  exists mine his,
    rel_block A B A k = OK mine /\ rel_block A B B k = OK his
    /\ distance_step A B d k = OK (d + sum_abs_diff his mine)%Q.
Proof.
  destruct (@rel_block_built A B A ca k HA) as (mine & Em & Hm);
    [apply Nat.le_max_l|].
  destruct (@rel_block_built A B B cb k HB) as (his & Eh & Hh);
    [apply Nat.le_max_r|].
  exists mine, his; split; [exact Em|]; split; [exact Eh|].
  unfold distance_step; rewrite Em, Eh; cbn [bind OK].
  rewrite (shape_eqb_blocks Hh Hm); reflexivity.
Qed.

Lemma distance_loop_ok (ks : list nat) (d : Q) :
  exists r, distance_loop A B ks d = OK r.
Proof.
  revert d; induction ks as [|k ks IH]; intros d; simpl; [eauto|].
  destruct (distance_step_ok d k) as (mine & his & _ & _ & E).
  rewrite E; cbn [bind OK]; apply IH.
Qed.

End Distance_facts.

Lemma distance_loop_sym (ca cb : Config) (A B : Model) (ks : list nat)
  (d1 d2 r1 r2 : Q) :
  BuildPTPs ca = OK A -> BuildPTPs cb = OK B ->
  distance_loop A B ks d1 = OK r1 -> distance_loop B A ks d2 = OK r2 ->
  (d1 == d2)%Q -> (r1 == r2)%Q.
Proof.
  intros HA HB; revert d1 d2; induction ks as [|k ks IH]; intros d1 d2 H1 H2 E.
  - simpl in *; injection H1 as <-; injection H2 as <-; exact E.
  - cbn [distance_loop] in H1, H2.
    destruct (@distance_step_ok ca cb A B HA HB d1 k)
      as (mine & his & Em & Eh & E1).
    destruct (@distance_step_ok cb ca B A HB HA d2 k)
      as (mine' & his' & Em' & Eh' & E2).
    rewrite rel_block_comm, Eh in Em'; injection Em' as <-.
    rewrite rel_block_comm, Em in Eh'; injection Eh' as <-.
    rewrite E1 in H1; rewrite E2 in H2; cbn [bind OK] in H1, H2.
    apply (IH _ _ H1 H2).
    rewrite E, sum_abs_diff_comm; reflexivity.
Qed.

Lemma distance_loop_self (ca : Config) (A : Model) (ks : list nat) (d r : Q) :
  BuildPTPs ca = OK A ->
  distance_loop A A ks d = OK r -> (r == d)%Q.
Proof.
  intros HA; revert d; induction ks as [|k ks IH]; intros d H.
  - simpl in H; injection H as <-; reflexivity.
  - cbn [distance_loop] in H.
    destruct (@distance_step_ok ca ca A A HA HA d k)
      as (mine & his & Em & Eh & E1).
    rewrite Em in Eh; injection Eh as <-.
    rewrite E1 in H; cbn [bind OK] in H.
    apply IH in H; rewrite H, sum_abs_diff_self; ring.
Qed.

(** C8: for two built models, of whatever alphabet sizes and retained
    scale counts, both distances are computed without error, they are
    equal, and the distance from a model to itself is 0. *)
Theorem Distance_symmetric (ca cb : Config) (A B : Model) :
  BuildPTPs ca = OK A -> BuildPTPs cb = OK B ->
  (exists d d',
     Distance A B = OK d /\ Distance B A = OK d' /\ (d == d')%Q)
  /\ (exists z, Distance A A = OK z /\ (z == 0)%Q).
Proof.
  intros HA HB; unfold Distance; split.
  - destruct (@distance_loop_ok ca cb A B HA HB
                (seq 0 (Nat.max (n_p A) (n_p B))) 0%Q) as [d Hd].
    destruct (@distance_loop_ok cb ca B A HB HA
                (seq 0 (Nat.max (n_p B) (n_p A))) 0%Q) as [d' Hd'].
    exists d, d'; split; [exact Hd|]; split; [exact Hd'|].
    rewrite (Nat.max_comm (n_p B)) in Hd'.
    apply (@distance_loop_sym ca cb A B _ 0%Q 0%Q d d' HA HB Hd Hd');
      reflexivity.
  - destruct (@distance_loop_ok ca ca A A HA HA
                (seq 0 (Nat.max (n_p A) (n_p A))) 0%Q) as [z Hz].
    exists z; split; [exact Hz|].
    apply (@distance_loop_self ca A _ 0%Q z HA Hz).
Qed.

Lemma Distance_symmetric_witness :
  (exists d d',
     Distance abab_model abc_model = OK d
     /\ Distance abc_model abab_model = OK d' /\ (d == d')%Q)
  /\ (exists z, Distance abab_model abab_model = OK z /\ (z == 0)%Q).
Proof.
  apply (@Distance_symmetric abab_config abc_config abab_model abc_model).
  - vm_compute; reflexivity.
  - vm_compute; reflexivity.
Defined.

(** ** BuildPTPs returns *)

Lemma index_str_In (g : list ascii) (l : list (list ascii)) :
  In g l -> exists i, index_str g l = Some i.
Proof.
  induction l as [|h l IH]; simpl; intros H; [destruct H|].
  destruct (str_eqb h g) eqn:E; [eauto|].
  destruct H as [->|H]; [rewrite str_eqb_refl in E; discriminate|].
  destruct (IH H) as [i Hi]; rewrite Hi; simpl; eauto.
Qed.

Lemma ngram_indices_total (ngs red : list (list ascii)) :
  Forall (fun g => In g ngs) red ->
  exists inds, ngram_indices ngs red = OK inds.
Proof.
  unfold ngram_indices; induction 1 as [|g red Hg _ [inds IH]]; simpl;
    [eauto|].
  destruct (@index_str_In g ngs Hg) as [i Hi].
  rewrite Hi; cbn [bind OK]; rewrite IH; cbn [bind OK]; eauto.
Qed.

Lemma followers_sequence (c : Config) (np : nat) (g : list ascii) (a : ascii) :
  In a (followers c np g) -> In a (sequence c).
Proof.
  unfold followers, following_chars; intros H.
  apply in_map_iff in H; destruct H as (i & <- & Hi).
  apply filter_In in Hi; destruct Hi as [_ Hi].
  apply Nat.leb_le in Hi; apply nth_In; unfold n in Hi; lia.
Qed.

Lemma np_str_nonzero (a : ascii) : a <> zero -> np_str a = [a].
Proof.
  intros H; unfold np_str; destruct (sym_eqb a zero) eqn:E; [|reflexivity].
  apply sym_eqb_eq in E; contradiction.
Qed.

Lemma np_str_sequence (c : Config) (a : ascii) :
  ~ In zero (sequence c) -> In a (sequence c) -> np_str a = [a].
Proof. intros Hn Ha; apply np_str_nonzero; intros ->; contradiction. Qed.

Lemma search_fold_found_inv (c : Config) (np : nat)
  (items : list (nat * list ascii))
  (st : list (list Z) * list (list ascii)) (u : list ascii) :
  In u (snd (fold_left (search_step c np) items st)) ->
  In u (snd st)
  \/ exists i g a,
       In (i, g) items /\ In a (followers c np g) /\ u = g ++ np_str a.
Proof.
  revert st; induction items as [|[i g] items IH]; intros st H; [auto|].
  simpl in H; apply IH in H; destruct H as [H|(i' & g' & a & Hi & Ha & E)].
  - unfold search_step in H; cbn [fst snd] in H.
    change (following_chars c np
              (HashSearch (hashP_p c) (hashP_x c) (sequence c) g))
      with (followers c np g) in H.
    destruct (np_unique (followers c np g)) as [|b l] eqn:Eu; [auto|].
    cbn [snd] in H; apply in_app_or in H; destruct H as [H|H]; [auto|].
    apply in_map_iff in H; destruct H as (a & <- & Ha).
    right; exists i, g, a; split; [simpl; auto|]; split; [|reflexivity].
    apply np_unique_In; rewrite Eu; exact Ha.
  - right; exists i', g', a; split; [simpl; auto|]; auto.
Qed.

(** With a reduced list taken from the ngrams, [BuildPTP] returns, and
    the patterns it finds are reduced patterns extended by a symbol of
    the sequence. *)
Lemma BuildPTP_returns (c : Config) (ngs red : list (list ascii)) :
  ngs <> [] -> Forall (fun g => In g ngs) red ->
  exists P fnd,
    BuildPTP c ngs (Some red) = OK (P, fnd)
    /\ forall u, In u fnd ->
         exists g a, In g red /\ In a (sequence c) /\ u = g ++ np_str a.
Proof.
  intros Hne Hred; unfold BuildPTP, BuildPTP_counts.
  destruct ngs as [|g0 ngs']; [congruence|].
  cbn [bind OK].
  destruct (@ngram_indices_total (g0 :: ngs') red Hred) as [inds Hinds].
  rewrite Hinds; cbn [bind OK fst snd].
  eexists; eexists; split; [reflexivity|].
  cbn [snd]; intros u Hu.
  apply search_fold_found_inv in Hu.
  destruct Hu as [[]|(i & g & a & Hi & Ha & ->)].
  exists g, a; split; [|split; [|reflexivity]].
  - apply in_combine_r in Hi; exact Hi.
  - eapply followers_sequence; exact Ha.
Qed.

Section BuildPTPs_returns.

Variable c : Config.

Hypothesis Halpha : 1 <= n_s c.
Hypothesis Hseq : Forall (fun a => In a (alpha c)) (sequence c).
Hypothesis Hnul : ~ In zero (sequence c).

Let K := Z.to_nat (maxn_p c).
Let ngramS := MakenGrams_all (alpha c) (maxn_p c).

Lemma ngramS_complete (a : nat) :
  a < K ->
  exists ng,
    nth_error ngramS a = Some ng /\ ng <> []
    /\ forall u, length u = S a -> Forall (fun x => In x (alpha c)) u ->
                 In u ng.
Proof.
  intros Ha.
  assert (Hnth := @MakenGrams_all_nth (alpha c) (maxn_p c) (S a)).
  replace (S a - 1) with a in Hnth by lia.
  specialize (Hnth ltac:(lia) ltac:(lia)); fold ngramS in Hnth.
  assert (Hall : forall u, length u = S a ->
                   Forall (fun x => In x (alpha c)) u ->
                   In u (nth a ngramS [])).
  { intros u Hl Hf; rewrite Hnth.
    destruct (Nat.eqb_spec (S a) 1) as [E|E].
    - apply in_all_patterns; split; [lia | exact Hf].
    - apply in_all_patterns_sorted, in_all_patterns; auto. }
  assert (Hin : In (repeat (nth 0 (alpha c) zero) (S a)) (nth a ngramS [])).
  { apply Hall; [apply repeat_length|].
    apply Forall_forall; intros x Hx; apply repeat_spec in Hx; subst.
    apply nth_In; exact Halpha. }
  destruct (nth_error ngramS a) as [ng|] eqn:E.
  - apply (nth_error_nth _ _ []) in E as E'; rewrite E' in *.
    exists ng; split; [reflexivity|]; split; [|exact Hall].
    intros ->; destruct Hin.
  - apply nth_error_None in E.
    pose proof (nth_overflow ngramS [] E) as Eo.
    rewrite Eo in Hin; destruct Hin.
Qed.

Lemma BuildPTPs_loop_returns (len a : nat) (st : build_state) :
  a + len <= K ->
  Possible (bs_sparsT st) = Possible (initial_sparsT c) ->
  Forall (fun u => length u = S a /\ Forall (fun x => In x (alpha c)) u)
    (bs_fnd st) ->
  exists st',
    BuildPTPs_loop c ngramS (seq a len) st = OK st'
    /\ (1 <= len -> bs_i st' <> None).
Proof.
  revert a st; induction len as [|len IH]; intros a st Hle HP Hfnd.
  - exists st; split; [reflexivity | lia].
  - cbn [seq BuildPTPs_loop].
    assert (Hposs : nth a (Possible (bs_sparsT st)) 0%Z
                    = Z.of_nat (n_s c ^ S a)).
    { rewrite HP; unfold initial_sparsT; cbn [Possible]; fold K.
      rewrite (nth_indep _ 0%Z (Z.of_nat (n_s c ^ 0)))
        by (rewrite length_map, length_seq; lia).
      rewrite (map_nth (fun i => Z.of_nat (n_s c ^ i))), seq_nth by lia.
      reflexivity. }
    rewrite Hposs.
    assert (Hnz : n_s c ^ S a <> 0) by (apply Nat.pow_nonzero; lia).
    destruct (Z.eqb_spec (Z.of_nat (n_s c ^ S a)) 0) as [E|_]; [lia|].
    destruct (ratio_ltb _ (t_np c)).
    + eexists; split; [reflexivity | intros _; discriminate].
    + destruct (@ngramS_complete a ltac:(lia)) as (ng & Eng & Hne & Hall).
      rewrite Eng; cbn [bind OK].
      destruct (@BuildPTP_returns c ng (bs_fnd st) Hne) as (P & fnd' & EP & Hf').
      { eapply Forall_impl; [|exact Hfnd]; intros u [Hl Hf]; auto. }
      rewrite EP; cbn [bind OK fst snd].
      destruct (IH (S a) (mkBuild (Some a)
                            (mkSparsity
                               (set_nth a
                                  (Z.of_nat
                                     (unique_size
                                        (map (@removelast ascii) (bs_fnd st))))
                                  (Observed (bs_sparsT st)))
                               (Possible (bs_sparsT st))
                               (set_nth a
                                  (fl64
                                     (inject_Z
                                        (Z.of_nat
                                           (unique_size
                                              (map (@removelast ascii)
                                                 (bs_fnd st))))
                                      / inject_Z (Z.of_nat (n_s c ^ S a))))
                                  (SI (bs_sparsT st))))
                            fnd' (bs_PTPs st ++ [P])))
        as (st' & Hst' & Hi).
      * lia.
      * exact HP.
      * cbn [bs_fnd]; apply Forall_forall; intros u Hu.
        destruct (Hf' u Hu) as (g & x & Hg & Hx & ->).
        rewrite (np_str_sequence c x Hnul Hx).
        rewrite Forall_forall in Hfnd; destruct (Hfnd g Hg) as [Hl Hf].
        split; [rewrite length_app; simpl; lia|].
        apply Forall_app; split; [exact Hf|].
        constructor; [|constructor].
        rewrite Forall_forall in Hseq; apply Hseq; exact Hx.
      * exists st'; split; [exact Hst'|].
        intros _; destruct len as [|len'].
        -- simpl in Hst'; injection Hst' as <-; discriminate.
        -- apply Hi; lia.
Qed.

(** For a sequence over a non-empty alphabet and [maxn_p >= 1],
    [BuildPTPs] returns. *)
Lemma BuildPTPs_returns : 1 <= K -> exists m, BuildPTPs c = OK m.
Proof.
  intros HK; unfold BuildPTPs, BuildPTPs_run; fold K ngramS.
  destruct (@BuildPTPs_loop_returns K 0
              (mkBuild None (initial_sparsT c)
                 (map np_str (np_unique (sequence c))) []))
    as (st & Hst & Hi).
  - lia.
  - reflexivity.
  - cbn [bs_fnd]; apply Forall_map, Forall_forall; intros a Ha.
    apply (proj1 (np_unique_In _ _)) in Ha.
    rewrite (np_str_sequence c a Hnul Ha).
    split; [reflexivity|].
    constructor; [|constructor].
    rewrite Forall_forall in Hseq; apply Hseq; exact Ha.
  - rewrite Hst; cbn [bind OK].
    destruct (bs_i st) as [i|]; [|exfalso; apply Hi; [exact HK | reflexivity]].
    cbn [bind OK]; eauto.
Qed.

End BuildPTPs_returns.

(** * Further properties of the code *)

(** ** BuildPTPs: when it raises *)

Lemma MakenGrams_all_head (al : list ascii) (maxn : Z) :
  exists rest, MakenGrams_all al maxn = map (fun a => [a]) al :: rest.
Proof.
  destruct (Z_le_gt_dec maxn 0) as [H0|H0].
  - rewrite MakenGrams_all_nonpos by assumption; eauto.
  - destruct (Z.eq_dec maxn 1) as [->|H1].
    + rewrite MakenGrams_all_1; eauto.
    + replace maxn with (Z.of_nat (2 + Z.to_nat (maxn - 2))) by lia.
      rewrite MakenGrams_all_eq; eauto.
Qed.

Lemma first_observed (s : list ascii) :
  unique_size (map (@removelast ascii) (map np_str (np_unique s)))
  = match s with [] => 0 | _ => 1 end.
Proof.
  rewrite map_map.
  rewrite (map_ext (fun a => removelast (np_str a)) (fun _ => @nil ascii))
    by (intros a; unfold np_str; destruct (sym_eqb a zero); reflexivity).
  assert (E : forall l : list ascii,
             unique_size (map (fun _ => @nil ascii) l)
             = match l with [] => 0 | _ => 1 end).
  { unfold unique_size; induction l as [|a l IH]; [reflexivity|].
    simpl; destruct l as [|b l]; [reflexivity|].
    simpl in *; rewrite IH; reflexivity. }
  rewrite E; destruct s as [|a s]; [reflexivity|].
  destruct (np_unique (a :: s)) eqn:Eu; [|reflexivity].
  apply np_unique_nil in Eu; discriminate.
Qed.

(** X1: with [maxn_p <= 0] the loop of [BuildPTPs] never binds [i], and
    the final increment of [i] raises. *)
Theorem BuildPTPs_nonpositive (c : Config) :
  (maxn_p c <= 0)%Z -> BuildPTPs c = Err NameError.
Proof.
  intros H; unfold BuildPTPs, BuildPTPs_run.
  replace (Z.to_nat (maxn_p c)) with 0 by lia; reflexivity.
Qed.

Lemma BuildPTPs_nonpositive_witness :
  BuildPTPs (mkConfig ["a"; "b"]%char ["a"; "b"]%char 0 (1 # 10) 4241 42)
  = Err NameError.
Proof.
  apply (@BuildPTPs_nonpositive
           (mkConfig ["a"; "b"]%char ["a"; "b"]%char 0 (1 # 10) 4241 42)).
  simpl; apply Z.le_refl.
Defined.

(** X2: with an empty alphabet and [maxn_p >= 1] the first sparsity
    ratio divides by [0**1]: [BuildPTPs] raises [ZeroDivisionError]. *)
Theorem BuildPTPs_empty_alphabet (c : Config) :
  alpha c = [] -> (1 <= maxn_p c)%Z -> BuildPTPs c = Err ZeroDivisionError.
Proof.
  intros Ha Hm; unfold BuildPTPs, BuildPTPs_run.
  destruct (Z.to_nat (maxn_p c)) as [|K] eqn:EK; [lia|].
  cbn [seq BuildPTPs_loop].
  unfold initial_sparsT, n_s; rewrite EK, Ha; reflexivity.
Qed.

Lemma BuildPTPs_empty_alphabet_witness :
  BuildPTPs (mkConfig [] ["a"; "b"]%char 2 (1 # 10) 4241 42)
  = Err ZeroDivisionError.
Proof.
  apply (@BuildPTPs_empty_alphabet
           (mkConfig [] ["a"; "b"]%char 2 (1 # 10) 4241 42)).
  - reflexivity.
  - simpl; intros H; discriminate H.
Defined.

(** The first pass of the loop of [BuildPTPs], on a non-empty alphabet:
    the ratio is the number of distinct empty prefixes, 0 or 1, over the
    size of the alphabet. *)
Lemma BuildPTPs_first_ratio (c : Config) (K : nat) (st : build_state) :
  1 <= n_s c ->
  Z.to_nat (maxn_p c) = S K ->
  bs_sparsT st = initial_sparsT c ->
  bs_fnd st = map np_str (np_unique (sequence c)) ->
  nth 0 (Possible (bs_sparsT st)) 0%Z = Z.of_nat (n_s c)
  /\ Z.of_nat (unique_size (map (@removelast ascii) (bs_fnd st)))
     = match sequence c with [] => 0%Z | _ => 1%Z end.
Proof.
  intros HS EK Hs Hf; split.
  - rewrite Hs; unfold initial_sparsT; rewrite EK; simpl.
    rewrite Nat.mul_1_r; reflexivity.
  - rewrite Hf, first_observed; destruct (sequence c); reflexivity.
Qed.

(** The first pass of the loop of [BuildPTPs] when the first ratio is
    below the threshold: the loop is left at once. *)
Lemma BuildPTPs_run_stop_first (c : Config) :
  (1 <= maxn_p c)%Z -> 1 <= n_s c ->
  (fl64 (inject_Z (match sequence c with [] => 0 | _ => 1 end)
         / inject_Z (Z.of_nat (n_s c))) < t_np c)%Q ->
  exists st, BuildPTPs_run c = OK (0, st) /\ bs_PTPs st = [].
Proof.
  intros Hm HS Ht; unfold BuildPTPs_run.
  destruct (Z.to_nat (maxn_p c)) as [|K] eqn:EK; [lia|].
  cbn [seq BuildPTPs_loop bs_sparsT bs_fnd bs_PTPs].
  destruct (@BuildPTPs_first_ratio c K
              (mkBuild None (initial_sparsT c)
                 (map np_str (np_unique (sequence c))) []))
    as [Hp Ho]; try reflexivity; try assumption.
  cbn [bs_sparsT bs_fnd] in Hp, Ho; rewrite Hp, Ho.
  destruct (Z.eqb_spec (Z.of_nat (n_s c)) 0) as [E|_]; [lia|].
  pose proof Ht as Hlt; apply ratio_ltb_lt in Hlt; rewrite Hlt.
  cbn [bind OK bs_i bs_sparsT SI].
  unfold initial_sparsT; rewrite EK; cbn [SI repeat set_nth nth].
  rewrite Hlt; eexists; split; reflexivity.
Qed.

(** The first pass when the first ratio is not below the threshold and
    a symbol of the sequence, as numpy returns it, is not among the
    ngrams of length 1: the index lookup fails. *)
Lemma BuildPTPs_run_first_fails (c : Config) (a : ascii) :
  (1 <= maxn_p c)%Z -> 1 <= n_s c ->
  In a (sequence c) -> ~ In a (alpha c) \/ a = zero ->
  (t_np c <= fl64 (1 / inject_Z (Z.of_nat (n_s c))))%Q ->
  BuildPTPs_run c = Err ValueError.
Proof.
  intros Hm HS Hin Hnot Ht; unfold BuildPTPs_run.
  destruct (Z.to_nat (maxn_p c)) as [|K] eqn:EK; [lia|].
  cbn [seq BuildPTPs_loop bs_sparsT bs_fnd bs_PTPs].
  destruct (@BuildPTPs_first_ratio c K
              (mkBuild None (initial_sparsT c)
                 (map np_str (np_unique (sequence c))) []))
    as [Hp Ho]; try reflexivity; try assumption.
  cbn [bs_sparsT bs_fnd] in Hp, Ho; rewrite Hp, Ho.
  destruct (Z.eqb_spec (Z.of_nat (n_s c)) 0) as [E|_]; [lia|].
  destruct (sequence c) as [|s0 s] eqn:Es; [destruct Hin|].
  rewrite <- Es in *.
  replace (ratio_ltb (fl64 (inject_Z 1 / inject_Z (Z.of_nat (n_s c))))
             (t_np c))
    with false by (symmetry; apply ratio_ltb_le; exact Ht).
  destruct (MakenGrams_all_head (alpha c) (maxn_p c)) as [rest Hng].
  rewrite Hng; cbn [nth_error bind OK].
  unfold BuildPTP, BuildPTP_counts.
  destruct (alpha c) as [|a0 al] eqn:Ea; [unfold n_s in HS; rewrite Ea in HS;
                                          simpl in HS; lia|].
  cbn [map bind OK].
  rewrite (@ngram_indices_missing _ _ (np_str a)).
  - reflexivity.
  - apply (in_map np_str), np_unique_In; exact Hin.
  - apply index_str_none; intros H.
    change ([a0] :: map (fun a1 => [a1]) al)
      with (map (fun a1 : ascii => [a1]) (a0 :: al)) in H.
    apply in_map_iff in H; destruct H as (b & E & Hb).
    unfold np_str in E; destruct (sym_eqb a zero) eqn:Ez; [discriminate E|].
    injection E as ->; destruct Hnot as [Hnot| ->]; [contradiction|].
    rewrite sym_eqb_refl in Ez; discriminate Ez.
Qed.

(** A sequence with a NUL has no scale: the build stops at the first
    ratio or fails on the lookup of the empty string that numpy returns
    for NUL. *)
Lemma BuildPTPs_run_nul (c : Config) (i : nat) (st : build_state) :
  BuildPTPs_run c = OK (i, st) -> In zero (sequence c) ->
  i = 0 /\ bs_PTPs st = [].
Proof.
  intros Hrun Hz.
  pose proof Hrun as Ha; apply BuildPTPs_run_alphabet in Ha.
  destruct Ha as [HK HS].
  assert (Hm : (1 <= maxn_p c)%Z) by lia.
  destruct (Qlt_le_dec (fl64 (1 / inject_Z (Z.of_nat (n_s c)))) (t_np c))
    as [Hlt|Hle].
  - destruct (@BuildPTPs_run_stop_first c Hm HS) as (st0 & E & HP).
    + destruct (sequence c); [destruct Hz | exact Hlt].
    + rewrite E in Hrun; injection Hrun as <- <-; auto.
  - rewrite (@BuildPTPs_run_first_fails c zero Hm HS Hz) in Hrun;
      [discriminate Hrun | right; reflexivity | exact Hle].
Qed.

(** X3: a symbol of the sequence that is not in the alphabet makes
    [BuildPTPs] raise [ValueError] as soon as the first scale is built,
    that is when the first ratio, the double nearest to 1 over the size
    of the alphabet, is not below the threshold: the index lookup of the
    symbol fails. *)
Theorem BuildPTPs_foreign_symbol (c : Config) (a : ascii) :
  (1 <= maxn_p c)%Z -> 1 <= n_s c ->
  In a (sequence c) -> ~ In a (alpha c) ->
  (t_np c <= fl64 (1 / inject_Z (Z.of_nat (n_s c))))%Q ->
  BuildPTPs c = Err ValueError.
Proof.
  intros Hm HS Hin Hnot Ht; unfold BuildPTPs, BuildPTPs_run.
  destruct (Z.to_nat (maxn_p c)) as [|K] eqn:EK; [lia|].
  cbn [seq BuildPTPs_loop bs_sparsT bs_fnd bs_PTPs].
  destruct (@BuildPTPs_first_ratio c K
              (mkBuild None (initial_sparsT c)
                 (map np_str (np_unique (sequence c))) []))
    as [Hp Ho]; try reflexivity; try assumption.
  cbn [bs_sparsT bs_fnd] in Hp, Ho; rewrite Hp, Ho.
  destruct (Z.eqb_spec (Z.of_nat (n_s c)) 0) as [E|_]; [lia|].
  destruct (sequence c) as [|s0 s] eqn:Es; [destruct Hin|].
  rewrite <- Es in *.
  replace (ratio_ltb (fl64 (inject_Z 1 / inject_Z (Z.of_nat (n_s c))))
             (t_np c))
    with false by (symmetry; apply ratio_ltb_le; exact Ht).
  destruct (MakenGrams_all_head (alpha c) (maxn_p c)) as [rest Hng].
  rewrite Hng; cbn [nth_error bind OK].
  unfold BuildPTP, BuildPTP_counts.
  destruct (alpha c) as [|a0 al] eqn:Ea; [unfold n_s in HS; rewrite Ea in HS;
                                          simpl in HS; lia|].
  cbn [map bind OK].
  rewrite (@ngram_indices_missing _ _ (np_str a)).
  - reflexivity.
  - apply (in_map np_str), np_unique_In; exact Hin.
  - apply index_str_none; intros H.
    change ([a0] :: map (fun a1 => [a1]) al)
      with (map (fun a1 : ascii => [a1]) (a0 :: al)) in H.
    apply in_map_iff in H; destruct H as (b & E & Hb).
    unfold np_str in E; destruct (sym_eqb a zero); [discriminate E|].
    injection E as ->; contradiction.
Qed.

Lemma BuildPTPs_foreign_symbol_witness :
  BuildPTPs foreign_config = Err ValueError.
Proof.
  apply (@BuildPTPs_foreign_symbol foreign_config "x"%char).
  - simpl; intros H; discriminate H.
  - simpl; apply Nat.lt_le_incl, Nat.lt_succ_diag_r.
  - simpl; right; right; left; reflexivity.
  - simpl; intros [H|[H|[]]]; discriminate H.
  - simpl; intros H; discriminate H.
Defined.

(** ** BuildPTPs: the models it returns *)

(** X4: when the first ratio (the double nearest to the number of
    distinct empty prefixes, 0 for an empty sequence and 1 otherwise,
    over the size of the alphabet) is below the threshold, [BuildPTPs]
    builds no matrix and returns a model without scales, whatever the
    symbols of the sequence. *)
Theorem BuildPTPs_no_scale (c : Config) :
  (1 <= maxn_p c)%Z -> 1 <= n_s c ->
  (fl64 (inject_Z (match sequence c with [] => 0 | _ => 1 end)
         / inject_Z (Z.of_nat (n_s c))) < t_np c)%Q ->
  BuildPTPs c = OK (mkModel c 0 [] [] (mkSparsity [] [] [])).
Proof.
  intros Hm HS Ht; unfold BuildPTPs, BuildPTPs_run.
  destruct (Z.to_nat (maxn_p c)) as [|K] eqn:EK; [lia|].
  cbn [seq BuildPTPs_loop bs_sparsT bs_fnd bs_PTPs].
  destruct (@BuildPTPs_first_ratio c K
              (mkBuild None (initial_sparsT c)
                 (map np_str (np_unique (sequence c))) []))
    as [Hp Ho]; try reflexivity; try assumption.
  cbn [bs_sparsT bs_fnd] in Hp, Ho; rewrite Hp, Ho.
  destruct (Z.eqb_spec (Z.of_nat (n_s c)) 0) as [E|_]; [lia|].
  pose proof Ht as Hlt; apply ratio_ltb_lt in Hlt; rewrite Hlt.
  cbn [bind OK bs_i bs_sparsT SI].
  unfold initial_sparsT; rewrite EK; cbn [SI repeat set_nth nth].
  rewrite Hlt; reflexivity.
Qed.

Lemma BuildPTPs_no_scale_witness :
  BuildPTPs (mkConfig ["a"; "b"]%char ["a"; "x"]%char 2 (3 # 4) 4241 42)
  = OK (mkModel (mkConfig ["a"; "b"]%char ["a"; "x"]%char 2 (3 # 4) 4241 42)
          0 [] [] (mkSparsity [] [] [])).
Proof.
  apply (@BuildPTPs_no_scale
           (mkConfig ["a"; "b"]%char ["a"; "x"]%char 2 (3 # 4) 4241 42)).
  - simpl; intros H; discriminate H.
  - simpl; apply Nat.lt_le_incl, Nat.lt_succ_diag_r.
  - reflexivity.
Defined.

Section BuildPTPs_table_rows.

Variable c : Config.
Variable ngramS : list (list (list ascii)).

Let K := Z.to_nat (maxn_p c).

Lemma BuildPTPs_loop_table (len a : nat) (st st' : build_state) :
  BuildPTPs_loop c ngramS (seq a len) st = OK st' ->
  length (bs_PTPs st) = a ->
  length (SI (bs_sparsT st)) = K ->
  length (Observed (bs_sparsT st)) = K ->
  a + len <= K ->
  (a = 0 -> bs_fnd st = map np_str (np_unique (sequence c))) ->
  table_rows c st a ->
  table_rows c st' (length (bs_PTPs st')).
Proof.
  revert a st; induction len as [|len IH]; intros a st Hrun Hl HK HO Ha H0 Hinv.
  - simpl in Hrun; injection Hrun as <-; rewrite Hl; exact Hinv.
  - cbn [seq BuildPTPs_loop] in Hrun.
    destruct (Z.eqb (nth a (Possible (bs_sparsT st)) 0%Z) 0); [discriminate|].
    set (obs := Z.of_nat (unique_size (map (@removelast ascii) (bs_fnd st))))
      in *.
    set (ratio := fl64 (inject_Z obs
                        / inject_Z (nth a (Possible (bs_sparsT st)) 0%Z))) in *.
    assert (Hstep : table_rows c
                      (mkBuild (Some a)
                         (mkSparsity (set_nth a obs (Observed (bs_sparsT st)))
                            (Possible (bs_sparsT st))
                            (set_nth a ratio (SI (bs_sparsT st))))
                         (bs_fnd st) (bs_PTPs st)) (S a)).
    { destruct Hinv as [Hr Hf]; split; cbn [bs_sparsT SI Observed Possible].
      - intros j Hj; destruct (Nat.eq_dec j a) as [->|Hne].
        + rewrite !set_nth_same by lia; reflexivity.
        + rewrite !set_nth_other by lia; apply Hr; lia.
      - intros _; destruct (Nat.eq_dec a 0) as [->|Hne].
        + rewrite set_nth_same by lia.
          unfold obs; rewrite (H0 eq_refl), first_observed.
          destruct (sequence c); reflexivity.
        + rewrite set_nth_other by lia; apply Hf; lia. }
    destruct (ratio_ltb ratio (t_np c)).
    + injection Hrun as <-; cbn [bs_PTPs]; rewrite Hl.
      destruct Hstep as [Hr Hf]; split.
      * intros j Hj; apply Hr; lia.
      * intros Hj; apply Hf; lia.
    + destruct (nth_error ngramS a) as [ng|]; [|discriminate].
      cbn [bind OK] in Hrun.
      destruct (BuildPTP c ng (Some (bs_fnd st))) as [e|[P fnd']];
        [discriminate|].
      cbn [bind fst snd] in Hrun.
      apply IH in Hrun; cbn [bs_PTPs bs_sparsT bs_fnd SI Observed] in *.
      * exact Hrun.
      * rewrite length_app; simpl; lia.
      * rewrite set_nth_length; exact HK.
      * rewrite set_nth_length; exact HO.
      * lia.
      * intros E; discriminate E.
      * destruct Hstep as [Hr Hf]; split; assumption.
Qed.

End BuildPTPs_table_rows.

Lemma BuildPTPs_run_loop (c : Config) (i : nat) (st : build_state) :
  BuildPTPs_run c = OK (i, st) ->
  BuildPTPs_loop c (MakenGrams_all (alpha c) (maxn_p c))
    (seq 0 (Z.to_nat (maxn_p c)))
    (mkBuild None (initial_sparsT c)
       (map np_str (np_unique (sequence c))) []) = OK st.
Proof.
  unfold BuildPTPs_run; intros H.
  destruct (BuildPTPs_loop c _ _ _) as [e|st']; [discriminate|].
  cbn [bind] in H.
  destruct (bs_i st'); [|discriminate].
  injection H as _ <-; reflexivity.
Qed.

Lemma nth_firstn_lt (A : Type) (l : list A) (d : A) (i k : nat) :
  i < k -> nth i (firstn k l) d = nth i l d.
Proof.
  revert i k; induction l as [|x l IH]; intros i k H.
  - rewrite firstn_nil; reflexivity.
  - destruct k; [lia|]; destruct i; [reflexivity|].
    simpl; apply IH; lia.
Qed.

(** X5: every row [i] of the sparsity table of a built model is
    consistent: the possible count is [S^(i+1)], the ratio is the double
    nearest to the observed count over the possible one and is at least
    the threshold, and the first observed count is the number of
    distinct empty prefixes, 1 for a sequence that is not empty. *)
Theorem BuildPTPs_table (c : Config) (m : Model) (i : nat) :
  BuildPTPs c = OK m -> i < n_p m ->
  let sT := sparsities m in
  nth i (Possible sT) 0%Z = Z.of_nat (n_s c ^ S i)
  /\ nth i (SI sT) 0%Q
     = fl64 (inject_Z (nth i (Observed sT) 0%Z)
             / inject_Z (nth i (Possible sT) 0%Z))
  /\ (t_np c <= nth i (SI sT) 0)%Q
  /\ nth 0 (Observed sT) 0%Z
     = match sequence c with [] => 0%Z | _ => 1%Z end.
Proof.
  intros H Hi sT; subst sT.
  apply BuildPTPs_inv in H; destruct H as (st & Hrun & _ & _ & _ & HS).
  pose proof Hrun as Hloop; apply BuildPTPs_run_loop in Hloop.
  pose proof Hrun as Hout; apply BuildPTPs_run_outcome in Hout.
  destruct Hout as (HiK & Hl & HlS & HlO & HlP & _ & Hstop).
  pose proof Hloop as Htab.
  apply (@BuildPTPs_loop_table c _ (Z.to_nat (maxn_p c)) 0) in Htab;
    cbn [bs_PTPs bs_sparsT bs_fnd] in *;
    try reflexivity; try lia;
    try (unfold initial_sparsT; cbn [SI Observed]; apply repeat_length).
  2:{ split; [intros j Hj; lia | intros Hj; lia]. }
  rewrite Hl in Htab; destruct Htab as [Hr Hf].
  apply BuildPTPs_loop_outcome in Hloop;
    cbn [bs_PTPs bs_sparsT bs_fnd] in *;
    try reflexivity; try lia;
    try (unfold initial_sparsT; cbn [SI]; apply repeat_length).
  2:{ intros k P HP; destruct k; discriminate HP. }
  destruct Hloop as (_ & _ & HP & _).
  rewrite HS; cbn [Observed Possible SI].
  rewrite !nth_firstn_lt by lia.
  split; [|split; [|split]].
  - rewrite HP; unfold initial_sparsT; cbn [Possible].
    rewrite (nth_indep _ 0%Z (Z.of_nat (n_s c ^ 0)))
      by (rewrite length_map, length_seq; lia).
    rewrite (map_nth (fun k => Z.of_nat (n_s c ^ k))), seq_nth by lia.
    reflexivity.
  - apply Hr; exact Hi.
  - apply ratio_ltb_le.
    destruct Hstop as [(_ & _ & Hall)|(_ & Hall)]; apply Hall; lia.
  - apply Hf; lia.
Qed.

Lemma BuildPTPs_table_witness :
  let sT := sparsities abab_model in
  nth 1 (Possible sT) 0%Z = Z.of_nat (n_s abab_config ^ 2)
  /\ nth 1 (SI sT) 0%Q
     = fl64 (inject_Z (nth 1 (Observed sT) 0%Z)
             / inject_Z (nth 1 (Possible sT) 0%Z))
  /\ (t_np abab_config <= nth 1 (SI sT) 0)%Q
  /\ nth 0 (Observed sT) 0%Z
     = match sequence abab_config with [] => 0%Z | _ => 1%Z end.
Proof.
  apply (@BuildPTPs_table abab_config abab_model 1).
  - vm_compute; reflexivity.
  - vm_compute; apply le_n.
Defined.

Lemma forallb_mem_sym (al s : list ascii) :
  forallb (fun a => mem_sym a al) s = true -> Forall (fun a => In a al) s.
Proof.
  rewrite forallb_forall, Forall_forall; intros H a Ha.
  apply mem_sym_In, H, Ha.
Qed.

Lemma MakenGrams_all_lists (al : list ascii) (maxn : Z) :
  length (MakenGrams_all al maxn) = Nat.max 2 (Z.to_nat maxn).
Proof.
  destruct (Z_le_gt_dec maxn 0) as [H0|H0].
  - rewrite MakenGrams_all_nonpos by exact H0.
    replace (Z.to_nat maxn) with 0 by lia; reflexivity.
  - destruct (Z.eq_dec maxn 1) as [->|H1].
    + rewrite MakenGrams_all_1; reflexivity.
    + replace maxn with (Z.of_nat (2 + (Z.to_nat maxn - 2))) at 1 by lia.
      rewrite MakenGrams_all_eq.
      cbn [length]; rewrite length_map, length_seq; lia.
Qed.

(** X6: for a non-empty alphabet, a sequence (empty or not) whose
    symbols are all in the alphabet and none of them NUL, and
    [maxn_p >= 1], [BuildPTPs] raises nothing: it returns a model of the
    same configuration that retains at most [maxn_p] scales, with one
    matrix and one list of patterns for each. *)
Theorem BuildPTPs_total (c : Config) :
  (1 <= maxn_p c)%Z -> alpha c <> [] ->
  Forall (fun a => In a (alpha c)) (sequence c) ->
  ~ In zero (sequence c) ->
  exists m,
    BuildPTPs c = OK m
    /\ conf m = c
    /\ n_p m <= Z.to_nat (maxn_p c)
    /\ length (PTPs m) = n_p m
    /\ length (ngrams m) = n_p m.
Proof.
  intros Hm Ha Hseq Hnul.
  assert (HS : 1 <= n_s c).
  { unfold n_s; destruct (alpha c); [congruence | simpl; lia]. }
  destruct (@BuildPTPs_returns c HS Hseq Hnul) as [m Hb]; [lia|].
  exists m; split; [exact Hb|].
  apply BuildPTPs_inv in Hb.
  destruct Hb as (st & Hrun & Hc & HP & Hng & _).
  apply BuildPTPs_run_outcome in Hrun.
  destruct Hrun as (Hi & Hl & _).
  split; [exact Hc|]; split; [exact Hi|]; split; [rewrite HP; exact Hl|].
  rewrite Hng, length_firstn, MakenGrams_all_lists; lia.
Qed.

Lemma BuildPTPs_total_witness :
  exists m,
    BuildPTPs abc_config = OK m
    /\ conf m = abc_config
    /\ n_p m <= Z.to_nat (maxn_p abc_config)
    /\ length (PTPs m) = n_p m
    /\ length (ngrams m) = n_p m.
Proof.
  apply (@BuildPTPs_total abc_config).
  - intros H; discriminate H.
  - intros H; discriminate H.
  - apply forallb_mem_sym; reflexivity.
  - intros H; apply mem_sym_In in H; discriminate H.
Defined.

(** ** MakenGrams: the two modes *)

(** X7: with [only=False], [MakenGrams] returns [max(2, maxn_p)] lists,
    whatever the alphabet: two lists also for [maxn_p = 1] and for
    [maxn_p <= 0]. *)
Theorem MakenGrams_all_count (al : list ascii) (maxn : Z) (ls : list (list (list ascii))) :
  MakenGrams al maxn false = AllLists ls ->
  length ls = Nat.max 2 (Z.to_nat maxn).
Proof.
  unfold MakenGrams; intros H; injection H as <-.
  apply MakenGrams_all_lists.
Qed.

Lemma MakenGrams_all_count_witness :
  length [[["a"]; ["b"]]; [["a"]; ["b"]]]%char = Nat.max 2 (Z.to_nat 1).
Proof.
  apply (@MakenGrams_all_count ["a"; "b"]%char 1%Z).
  reflexivity.
Defined.

Lemma MakenGrams_only_eq (al : list ascii) (L : nat) :
  1 <= L -> MakenGrams_only al (Z.of_nat L) = all_patterns (sort_syms al) L.
Proof.
  intros HL; unfold MakenGrams_only; rewrite Nat2Z.id.
  apply join_columns_all_patterns; exact HL.
Qed.

(** X8: the two modes agree from length 2 on: the list for the length
    [L] that [only=False] leaves after tearing down the columns of the
    longest patterns is the list that [only=True] builds for [L]
    directly. *)
Theorem MakenGrams_modes_agree (al : list ascii) (maxn : Z) (L : nat) :
  2 <= L -> (Z.of_nat L <= maxn)%Z ->
  nth (L - 1) (MakenGrams_all al maxn) [] = MakenGrams_only al (Z.of_nat L).
Proof.
  intros HL Hm.
  rewrite MakenGrams_all_nth by lia.
  rewrite MakenGrams_only_eq by lia.
  destruct (Nat.eqb_spec L 1) as [E|_]; [lia | reflexivity].
Qed.

Lemma MakenGrams_modes_agree_witness :
  nth (2 - 1) (MakenGrams_all ["b"; "a"]%char 3) []
  = MakenGrams_only ["b"; "a"]%char (Z.of_nat 2).
Proof.
  apply (@MakenGrams_modes_agree ["b"; "a"]%char 3%Z 2).
  - apply le_n.
  - intros H; discriminate H.
Defined.

Lemma map_single_inj (u v : list ascii) :
  map (fun a => [a]) u = map (fun a => [a]) v -> u = v.
Proof.
  revert v; induction u as [|a u IH]; intros [|b v] H; try discriminate H.
  - reflexivity.
  - simpl in H; injection H as -> H; f_equal; apply IH; exact H.
Qed.

(** X9: at length 1 the two modes agree only for an alphabet declared in
    the order of the character codes: [only=True] returns the symbols
    sorted, [only=False] keeps the declared order in its first list. *)
Theorem MakenGrams_modes_first (al : list ascii) (maxn : Z) :
  MakenGrams_only al 1 = map (fun a => [a]) (sort_syms al)
  /\ nth 0 (MakenGrams_all al maxn) [] = map (fun a => [a]) al
  /\ (MakenGrams_only al 1 = nth 0 (MakenGrams_all al maxn) []
      <-> sort_syms al = al).
Proof.
  assert (H1 : MakenGrams_only al 1 = map (fun a => [a]) (sort_syms al)).
  { change 1%Z with (Z.of_nat 1); rewrite MakenGrams_only_eq by lia.
    apply all_patterns_1. }
  assert (H2 : nth 0 (MakenGrams_all al maxn) [] = map (fun a => [a]) al).
  { destruct (MakenGrams_all_head al maxn) as [rest ->]; reflexivity. }
  split; [exact H1|]; split; [exact H2|].
  rewrite H1, H2; split.
  - apply map_single_inj.
  - intros ->; reflexivity.
Qed.

(** X10: for a length [L >= 1], [only=True] returns [S^L] strings,
    exactly the strings of length [L] over the alphabet; for an alphabet
    without repeated symbols they are distinct and in lexicographic
    order with respect to the character codes. *)
Theorem MakenGrams_only_patterns (al : list ascii) (L : nat) :
  1 <= L ->
  let l := MakenGrams_only al (Z.of_nat L) in
  length l = length al ^ L
  /\ (forall u, In u l <-> length u = L /\ Forall (fun a => In a al) u)
  /\ (NoDup al -> NoDup l /\ StronglySorted (lex_lt (sort_syms al)) l).
Proof.
  intros HL l; subst l; rewrite MakenGrams_only_eq by exact HL.
  assert (Hnd : NoDup al -> NoDup (sort_syms al)).
  { intros H; eapply Permutation_NoDup; [|exact H].
    apply Permutation_sym, sort_syms_perm. }
  split; [|split].
  - rewrite all_patterns_length.
    rewrite (Permutation_length (sort_syms_perm al)); reflexivity.
  - intros u; rewrite in_all_patterns_sorted; apply in_all_patterns.
  - intros H; split.
    + apply all_patterns_NoDup, Hnd, H.
    + apply all_patterns_sorted, Hnd, H.
Qed.

Lemma MakenGrams_only_patterns_witness :
  let l := MakenGrams_only ["b"; "a"]%char (Z.of_nat 2) in
  length l = length ["b"; "a"]%char ^ 2
  /\ (forall u, In u l
                <-> length u = 2 /\ Forall (fun a => In a ["b"; "a"]%char) u)
  /\ (NoDup ["b"; "a"]%char
      -> NoDup l /\ StronglySorted (lex_lt (sort_syms ["b"; "a"]%char)) l).
Proof.
  apply (@MakenGrams_only_patterns ["b"; "a"]%char 2).
  apply le_S, le_n.
Defined.

(** ** BuildPTP: outcome and cells *)

Lemma BuildPTP_counts_searched (c : Config) (ngs : list (list ascii))
  (red : option (list (list ascii))) (counts : list (list Z))
  (fnd : list (list ascii)) :
  BuildPTP_counts c ngs red = OK (counts, fnd) ->
  exists items,
    (counts, fnd)
    = fold_left (search_step c (length (hd [] ngs))) items
        (map (fun _ => repeat 0%Z (length ngs)) (alpha c), [])
    /\ (forall i g, In (i, g) items ->
          nth_error ngs i = Some g /\ searched red g = true)
    /\ (forall g, In g ngs -> searched red g = true ->
          exists i, In (i, g) items).
Proof.
  unfold BuildPTP_counts; intros H.
  destruct ngs as [|g0 ngs']; [discriminate|].
  set (ngs := g0 :: ngs') in *.
  cbn [bind OK] in H.
  destruct red as [red|].
  - destruct (ngram_indices ngs red) as [e|inds] eqn:E; [discriminate|].
    cbn [bind OK fst snd] in H; injection H as H.
    apply ngram_indices_ok in E.
    exists (combine inds red); split; [symmetry; exact H|]; split.
    + clear H; intros i g Hin; split.
      * revert i g Hin; induction E as [|g i red inds Hg _ IH];
          intros i' g' Hin; [destruct Hin|].
        destruct Hin as [Heq|Hin]; [|apply IH; exact Hin].
        injection Heq as <- <-; apply index_str_some; exact Hg.
      * apply in_combine_r in Hin; apply mem_str_In; exact Hin.
    + clear H; intros g _ Hs; cbn [searched] in Hs; apply mem_str_In in Hs.
      revert g Hs; induction E as [|g i red inds Hg _ IH]; intros g' Hin;
        [destruct Hin|].
      destruct Hin as [<-|Hin]; [exists i; simpl; auto|].
      destruct (IH _ Hin) as [i' Hi']; exists i'; simpl; auto.
  - cbn [bind OK fst snd] in H; injection H as H.
    exists (combine (seq 0 (length ngs)) ngs); split; [symmetry; exact H|].
    split.
    + intros i g Hin; apply in_combine_seq in Hin.
      rewrite Nat.sub_0_r in Hin; split; [apply Hin | reflexivity].
    + intros g Hin _; apply In_nth_error in Hin; destruct Hin as [i Hi].
      exists i; apply in_combine_seq; rewrite Nat.sub_0_r; split; [lia|exact Hi].
Qed.

Lemma NoDup_nth_error_eq (A : Type) (l : list A) (i j : nat) (x : A) :
  NoDup l -> nth_error l i = Some x -> nth_error l j = Some x -> i = j.
Proof.
  intros Hnd Hi Hj.
  apply (proj1 (NoDup_nth_error l) Hnd).
  - apply nth_error_Some; rewrite Hi; discriminate.
  - rewrite Hi, Hj; reflexivity.
Qed.

Lemma BuildPTP_counts_cells (c : Config) (ngs : list (list ascii))
  (red : option (list (list ascii))) (counts : list (list Z))
  (fnd : list (list ascii)) (r j : nat) (g : list ascii) :
  BuildPTP_counts c ngs red = OK (counts, fnd) ->
  NoDup ngs -> nth_error ngs r = Some g -> j < n_s c ->
  nth r (nth j counts []) 0%Z
  = if searched red g
    then Z.of_nat (count_sym (nth j (alpha c) zero)
                     (followers c (length (hd [] ngs)) g))
    else 0%Z.
Proof.
  intros Hc Hnd Hr Hj.
  apply BuildPTP_counts_searched in Hc.
  destruct Hc as (items & Hfold & Hitems & Hsearched).
  assert (Hcells := @search_fold_cells c (length (hd [] ngs)) (length ngs)
                      items []).
  cbv zeta in Hcells; rewrite <- Hfold in Hcells; cbn [fst] in Hcells.
  destruct Hcells as [_ Hcells].
  { intros i g' Hi; apply Hitems in Hi; destruct Hi as [Hi _].
    apply nth_error_Some; congruence. }
  { intros i g' g'' Hi Hi'; apply Hitems in Hi, Hi'.
    destruct Hi, Hi'; congruence. }
  destruct (searched red g) eqn:Es.
  - destruct (Hsearched g) as [i Hi];
      [eapply nth_error_In; exact Hr | exact Es |].
    assert (E : i = r).
    { eapply NoDup_nth_error_eq; [exact Hnd | | exact Hr].
      apply (Hitems i g Hi). }
    subst i; apply (Hcells j r Hj); exact Hi.
  - apply (Hcells j r Hj); intros g' Hin.
    apply Hitems in Hin; destruct Hin as [Hn Hs].
    rewrite Hr in Hn; injection Hn as <-; congruence.
Qed.

Lemma skipn_nth (s : list ascii) (k : nat) :
  k < length s -> exists rest, skipn k s = nth k s zero :: rest.
Proof.
  revert s; induction k as [|k IH]; intros [|b s] H; simpl in H; try lia.
  - exists s; reflexivity.
  - apply IH; lia.
Qed.

Lemma window_snoc (s : list ascii) (i L : nat) :
  i + L < length s ->
  window s i (S L) = window s i L ++ [nth (i + L) s zero].
Proof.
  intros H; unfold window.
  destruct (@skipn_nth s (i + L) H) as [rest E].
  apply firstn_snoc with (rest := rest).
  rewrite skipn_skipn, Nat.add_comm.
  exact E.
Qed.

Lemma filter_map_swap (A B : Type) (f : B -> bool) (h : A -> B) (l : list A) :
  filter f (map h l) = map h (filter (fun x => f (h x)) l).
Proof.
  induction l as [|x l IH]; simpl; [reflexivity|].
  destruct (f (h x)); simpl; rewrite IH; reflexivity.
Qed.

Lemma filter_seq_shrink (f f' : nat -> bool) (m m' : nat) :
  m' <= m ->
  (forall i, i < m -> f i = true -> i < m') ->
  (forall i, i < m' -> f i = f' i) ->
  filter f (seq 0 m) = filter f' (seq 0 m').
Proof.
  intros Hle Hb He.
  replace m with (m' + (m - m')) by lia.
  rewrite seq_app, filter_app.
  rewrite (filter_ext_in f f' (seq 0 m')).
  - assert (E : filter f (seq (0 + m') (m - m')) = []);
      [|rewrite E; apply app_nil_r].
    induction (seq (0 + m') (m - m')) as [|i l IH] eqn:El; [reflexivity|].
    assert (Hall : forall i', In i' (i :: l) -> f i' = false).
    { intros i' Hin; rewrite <- El in Hin; apply in_seq in Hin.
      destruct (f i') eqn:Ef; [|reflexivity].
      apply Hb in Ef; lia. }
    clear El IH; induction (i :: l) as [|k l' IH']; [reflexivity|].
    simpl; rewrite (Hall k) by (left; reflexivity).
    apply IH'; intros i' Hin; apply Hall; right; exact Hin.
  - intros i Hin; apply in_seq in Hin; apply He; lia.
Qed.

(** The symbols counted after an ngram are the occurrences of the ngram
    extended by the symbol. *)
Lemma followers_count (c : Config) (g : list ascii) (a : ascii) :
  g <> [] ->
  count_sym a (followers c (length g) g) = occurrences (sequence c) (g ++ [a]).
Proof.
  intros Hg; unfold followers, following_chars, count_sym, occurrences.
  rewrite HashSearch_naive by exact Hg.
  unfold naive_search, n.
  rewrite filter_map_swap, length_map, !filter_filter.
  rewrite length_app; cbn [length].
  f_equal; apply filter_seq_shrink.
  - lia.
  - intros i _ H.
    apply andb_prop in H; destruct H as [_ H].
    apply andb_prop in H; destruct H as [H _].
    apply Nat.leb_le in H; lia.
  - intros i Hi.
    replace (length g + 1) with (S (length g)) by lia.
    rewrite window_snoc by lia.
    replace (i + length g + 1 <=? length (sequence c)) with true
      by (symmetry; apply Nat.leb_le; lia).
    rewrite andb_true_l.
    apply Bool.eq_iff_eq_true.
    rewrite andb_true_iff, !str_eqb_eq, sym_eqb_eq.
    split.
    + intros [-> ->]; reflexivity.
    + intros H; apply app_inj_tail in H; destruct H as [-> ->]; auto.
Qed.

Lemma BuildPTP_empty (c : Config) (red : option (list (list ascii))) :
  BuildPTP c [] red = Err IndexError.
Proof. reflexivity. Qed.

Lemma BuildPTP_full_returns (c : Config) (ngs : list (list ascii)) :
  ngs <> [] -> exists P fnd, BuildPTP c ngs None = OK (P, fnd).
Proof.
  intros Hne; destruct ngs as [|g0 ngs']; [congruence|].
  unfold BuildPTP, BuildPTP_counts; cbn [bind OK].
  eexists; eexists; reflexivity.
Qed.

Lemma BuildPTP_missing (c : Config) (ngs red : list (list ascii))
  (g : list ascii) :
  ngs <> [] -> In g red -> ~ In g ngs ->
  BuildPTP c ngs (Some red) = Err ValueError.
Proof.
  intros Hne Hg Hn; destruct ngs as [|g0 ngs']; [congruence|].
  unfold BuildPTP, BuildPTP_counts; cbn [bind OK].
  rewrite (@ngram_indices_missing (g0 :: ngs') red g Hg).
  - reflexivity.
  - apply index_str_none; exact Hn.
Qed.

(** X11: the outcome of [BuildPTP] is decided by its two lists alone: it
    raises IndexError exactly for an empty list of ngrams (at
    [ngrams[0]]), ValueError exactly when the ngrams are not empty and a
    string of [ngramsRed] is not one of them (at [ngrams.index]), and
    returns in every other case, whatever the sequence and the
    alphabet. *)
Theorem BuildPTP_outcome (c : Config) (ngs : list (list ascii))
  (red : option (list (list ascii))) :
  (BuildPTP c ngs red = Err IndexError <-> ngs = [])
  /\ (BuildPTP c ngs red = Err ValueError
      <-> ngs <> []
          /\ exists l g, red = Some l /\ In g l /\ ~ In g ngs)
  /\ ((exists P fnd, BuildPTP c ngs red = OK (P, fnd))
      <-> ngs <> []
          /\ forall l, red = Some l -> Forall (fun g => In g ngs) l).
Proof.
  destruct ngs as [|g0 ngs'].
  - rewrite BuildPTP_empty; split; [|split].
    + tauto.
    + split; [discriminate | intros [H _]; congruence].
    + split; [intros (P & fnd & H); discriminate H
             | intros [H _]; congruence].
  - assert (Hne : g0 :: ngs' <> []) by discriminate.
    set (ngs := g0 :: ngs') in *.
    destruct red as [l|].
    + destruct (Forall_Exists_dec (fun g => In g ngs)
                  (fun g => in_dec (list_eq_dec ascii_dec) g ngs) l)
        as [Hall|Hex].
      * destruct (@BuildPTP_returns c ngs l Hne Hall) as (P & fnd & E & _).
        rewrite E; split; [|split].
        -- split; [discriminate | congruence].
        -- split; [discriminate|].
           intros (_ & l' & g & El & Hg & Hn).
           injection El as <-; rewrite Forall_forall in Hall.
           exfalso; apply Hn, Hall, Hg.
        -- split; [|intros _; exists P, fnd; reflexivity].
           intros _; split; [exact Hne|].
           intros l' El; injection El as <-; exact Hall.
      * apply Exists_exists in Hex; destruct Hex as (g & Hg & Hn).
        rewrite (@BuildPTP_missing c ngs l g Hne Hg Hn); split; [|split].
        -- split; [discriminate | congruence].
        -- split; [|reflexivity].
           intros _; split; [exact Hne|]; exists l, g; auto.
        -- split; [intros (P & fnd & H); discriminate H|].
           intros [_ H]; specialize (H l eq_refl).
           rewrite Forall_forall in H; exfalso; apply Hn, H, Hg.
    + destruct (@BuildPTP_full_returns c ngs Hne) as (P & fnd & E).
      rewrite E; split; [|split].
      * split; [discriminate | congruence].
      * split; [discriminate|].
        intros (_ & l' & g & El & _); discriminate El.
      * split; [|intros _; exists P, fnd; reflexivity].
        intros _; split; [exact Hne|]; intros l El; discriminate El.
Qed.

(** X12: the cells of the count half of a matrix that [BuildPTP] returns
    for distinct ngrams: for a searched ngram, the cell of the symbol
    [alpha[j]] is the number of times it is among the symbols that
    follow the matches of the ngram, and the total is the sum of these
    over the alphabet; the row of an ngram that is not in [ngramsRed] is
    left at zero. *)
Theorem BuildPTP_cells (c : Config) (ngs : list (list ascii))
  (red : option (list (list ascii))) (P : list (list Q))
  (fnd : list (list ascii)) (r : nat) (g : list ascii) :
  BuildPTP c ngs red = OK (P, fnd) ->
  NoDup ngs -> nth_error ngs r = Some g ->
  let chars := followers c (length (hd [] ngs)) g in
  (forall j, j < n_s c ->
     count_at P j r
     = if searched red g
       then inject_Z (Z.of_nat (count_sym (nth j (alpha c) zero) chars))
       else 0%Q)
  /\ (1 <= n_s c ->
      total_at (n_s c) P r
      = if searched red g
        then inject_Z (Zsum (map (fun a => Z.of_nat (count_sym a chars))
                               (alpha c)))
        else 0%Q).
Proof.
  intros HP Hnd Hr chars.
  apply BuildPTP_inv in HP; destruct HP as (counts & Hc & ->).
  pose proof Hc as Hshape; apply BuildPTP_counts_shape in Hshape.
  assert (Hrow : r < length ngs).
  { apply nth_error_Some; rewrite Hr; discriminate. }
  assert (Hcell : forall j, j < n_s c ->
            nth r (nth j counts []) 0%Z
            = if searched red g
              then Z.of_nat (count_sym (nth j (alpha c) zero) chars)
              else 0%Z).
  { intros j Hj; eapply BuildPTP_counts_cells; eassumption. }
  split.
  - intros j Hj.
    rewrite (@count_cell (n_s c) (length ngs) counts Hshape j r Hj Hrow).
    rewrite (Hcell j Hj); destruct (searched red g); reflexivity.
  - intros HS.
    rewrite (@total_cell (n_s c) (length ngs) counts Hshape r).
    assert (Ht := @tots_length (n_s c) (length ngs) counts Hshape HS).
    rewrite (@tots_nth (n_s c) (length ngs) counts Hshape r)
      by (rewrite Ht; exact Hrow).
    destruct (searched red g) eqn:Es.
    + f_equal.
      rewrite (map_nth_seq (fun a => Z.of_nat (count_sym a chars)) zero).
      fold (n_s c); f_equal.
      apply map_ext_in; intros j Hj; apply in_seq in Hj.
      rewrite Hcell by lia; reflexivity.
    + rewrite (map_ext_in _ (fun _ => 0%Z)).
      * induction (seq 0 (n_s c)) as [|k l IH]; [reflexivity|].
        simpl; simpl in IH; rewrite IH; reflexivity.
      * intros j Hj; apply in_seq in Hj; rewrite Hcell by lia; reflexivity.
Qed.

Lemma followers_occurs (c : Config) (g : list ascii) (a : ascii) :
  g <> [] ->
  In a (followers c (length g) g)
  <-> 1 <= occurrences (sequence c) (g ++ [a]).
Proof.
  intros Hg; rewrite <- followers_count by exact Hg; split.
  - apply count_sym_in.
  - intros H.
    destruct (in_dec ascii_dec a (followers c (length g) g)) as [Hin|Hn];
      [exact Hin|].
    apply count_sym_notin in Hn; lia.
Qed.

(** X13: a cell of a matrix that [BuildPTP] returns counts occurrences
    in the sequence: for distinct ngrams of one length [L >= 1], the
    cell of a searched ngram [g] and the symbol [alpha[j]] is the number
    of windows of the sequence that equal [g] followed by that symbol
    (the search returning the matches of the pattern). *)
Theorem BuildPTP_occurrences (c : Config) (ngs : list (list ascii))
  (red : option (list (list ascii))) (P : list (list Q))
  (fnd : list (list ascii)) (r j : nat) (g : list ascii) :
  BuildPTP c ngs red = OK (P, fnd) ->
  NoDup ngs -> nth_error ngs r = Some g ->
  g <> [] -> length g = length (hd [] ngs) ->
  searched red g = true -> j < n_s c ->
  count_at P j r
  = inject_Z (Z.of_nat (occurrences (sequence c)
                          (g ++ [nth j (alpha c) zero]))).
Proof.
  intros HP Hnd Hr Hg HL Hs Hj.
  apply BuildPTP_inv in HP; destruct HP as (counts & Hc & ->).
  pose proof Hc as Hshape; apply BuildPTP_counts_shape in Hshape.
  assert (Hrow : r < length ngs).
  { apply nth_error_Some; rewrite Hr; discriminate. }
  rewrite (@count_cell (n_s c) (length ngs) counts Hshape j r Hj Hrow).
  rewrite (@BuildPTP_counts_cells c ngs red counts fnd r j g Hc Hnd Hr Hj).
  rewrite Hs, <- HL, followers_count by exact Hg; reflexivity.
Qed.

Lemma BuildPTP_occurrences_witness :
  count_at (fst foreign_result) 1 0
  = inject_Z (Z.of_nat (occurrences (sequence foreign_config)
                          (["a"]%char
                           ++ [nth 1 (alpha foreign_config) zero]))).
Proof.
  apply (@BuildPTP_occurrences foreign_config foreign_ngrams None
           (fst foreign_result) (snd foreign_result) 0 1 ["a"]%char).
  - vm_compute; reflexivity.
  - repeat constructor; simpl; intuition discriminate.
  - reflexivity.
  - discriminate.
  - reflexivity.
  - reflexivity.
  - apply le_n.
Defined.

Lemma BuildPTP_outcome_witness :
  BuildPTP foreign_config [] (Some foreign_ngrams) = Err IndexError.
Proof.
  apply (proj2 (proj1 (@BuildPTP_outcome foreign_config []
                         (Some foreign_ngrams)))).
  reflexivity.
Defined.

Lemma BuildPTP_cells_witness :
  let chars := followers foreign_config (length (hd [] foreign_ngrams))
                 ["b"]%char in
  (forall j, j < n_s foreign_config ->
     count_at (fst foreign_pruned) j 1
     = if searched (Some [["a"]%char]) ["b"]%char
       then inject_Z (Z.of_nat (count_sym (nth j (alpha foreign_config) zero)
                                  chars))
       else 0%Q)
  /\ (1 <= n_s foreign_config ->
      total_at (n_s foreign_config) (fst foreign_pruned) 1
      = if searched (Some [["a"]%char]) ["b"]%char
        then inject_Z (Zsum (map (fun a => Z.of_nat (count_sym a chars))
                               (alpha foreign_config)))
        else 0%Q).
Proof.
  apply (@BuildPTP_cells foreign_config foreign_ngrams (Some [["a"]%char])
           (fst foreign_pruned) (snd foreign_pruned) 1 ["b"]%char).
  - vm_compute; reflexivity.
  - repeat constructor; simpl; intuition discriminate.
  - reflexivity.
Defined.

(** X14: the found patterns that [BuildPTP] returns for ngrams of one
    length [L >= 1] are exactly the searched ngrams [g] extended by a
    symbol [a] such that [g] followed by [a] occurs in the sequence, the
    symbol being appended as numpy returns it ([a] itself, or nothing
    when [a] is NUL); the symbol need not be in the alphabet (the search
    returning the matches of the pattern). *)
Theorem BuildPTP_found (c : Config) (ngs : list (list ascii))
  (red : option (list (list ascii))) (P : list (list Q))
  (fnd : list (list ascii)) (L : nat) (u : list ascii) :
  BuildPTP c ngs red = OK (P, fnd) ->
  1 <= L -> Forall (fun g => length g = L) ngs ->
  In u fnd
  <-> exists g a,
        In g ngs /\ searched red g = true /\ u = g ++ np_str a
        /\ 1 <= occurrences (sequence c) (g ++ [a]).
Proof.
  intros HP HL Hlen.
  apply BuildPTP_inv in HP; destruct HP as (counts & Hc & _).
  assert (Hhd : length (hd [] ngs) = L).
  { destruct ngs as [|g0 ngs']; [discriminate Hc|].
    inversion Hlen; assumption. }
  apply BuildPTP_counts_searched in Hc.
  destruct Hc as (items & Hfold & Hitems & Hsearched).
  rewrite Hhd in Hfold.
  assert (Hf : fnd = snd (fold_left (search_step c L) items
                 (map (fun _ => repeat 0%Z (length ngs)) (alpha c), [])))
    by (rewrite <- Hfold; reflexivity).
  rewrite Forall_forall in Hlen.
  split.
  - intros Hu; rewrite Hf in Hu; apply search_fold_found_inv in Hu.
    destruct Hu as [[]|(i & g & a & Hi & Ha & ->)].
    apply Hitems in Hi; destruct Hi as [Hn Hs].
    apply nth_error_In in Hn.
    assert (Hg : g <> []).
    { intros ->; specialize (Hlen _ Hn); simpl in Hlen; lia. }
    exists g, a; repeat split; try assumption.
    apply followers_occurs; [exact Hg|].
    rewrite (Hlen _ Hn); exact Ha.
  - intros (g & a & Hn & Hs & -> & Ho).
    assert (Hg : g <> []).
    { intros ->; specialize (Hlen _ Hn); simpl in Hlen; lia. }
    destruct (Hsearched g Hn Hs) as [i Hi].
    rewrite Hf; eapply search_fold_found; [exact Hi|].
    rewrite <- (Hlen _ Hn); apply followers_occurs; assumption.
Qed.

Lemma BuildPTP_found_witness :
  In ["b"; "x"]%char (snd foreign_result)
  <-> exists g a,
        In g foreign_ngrams /\ searched None g = true
        /\ ["b"; "x"]%char = g ++ np_str a
        /\ 1 <= occurrences (sequence foreign_config) (g ++ [a]).
Proof.
  apply (@BuildPTP_found foreign_config foreign_ngrams None
           (fst foreign_result) (snd foreign_result) 1).
  - vm_compute; reflexivity.
  - apply le_n.
  - repeat constructor.
Defined.

(** ** BuildPTPs: the restricted search loses nothing *)

Lemma followers_absent (c : Config) (np : nat) (g : list ascii) :
  ~ occurs (sequence c) g -> followers c np g = [].
Proof.
  intros Hn; unfold followers.
  destruct g as [|a g]; [reflexivity|].
  destruct (HashSearch (hashP_p c) (hashP_x c) (sequence c) (a :: g))
    as [|i l] eqn:E; [reflexivity|].
  exfalso; apply Hn; exists i.
  apply (@HashSearch_In (hashP_p c) (hashP_x c) (sequence c) (a :: g) i).
  - simpl; lia.
  - rewrite E; left; reflexivity.
Qed.

Lemma counts_ext (S_ rows : nat) (c1 c2 : list (list Z)) :
  counts_shape S_ rows c1 -> counts_shape S_ rows c2 ->
  (forall j r, j < S_ -> r < rows ->
     nth r (nth j c1 []) 0%Z = nth r (nth j c2 []) 0%Z) ->
  c1 = c2.
Proof.
  intros [L1 F1] [L2 F2] H.
  apply (nth_ext c1 c2 [] []); [congruence|].
  intros j Hj; rewrite L1 in Hj.
  rewrite Forall_forall in F1, F2.
  assert (E1 : length (nth j c1 []) = rows)
    by (apply F1, nth_In; lia).
  assert (E2 : length (nth j c2 []) = rows)
    by (apply F2, nth_In; lia).
  apply (nth_ext _ _ 0%Z 0%Z); [congruence|].
  intros r Hr; apply H; [exact Hj | lia].
Qed.

Lemma BuildPTP_pruned_full (c : Config) (ng red : list (list ascii))
  (P : list (list Q)) (fnd : list (list ascii)) :
  BuildPTP c ng (Some red) = OK (P, fnd) ->
  NoDup ng ->
  (forall g, In g ng -> occurs (sequence c) g -> In g red) ->
  exists fnd', BuildPTP c ng None = OK (P, fnd').
Proof.
  intros HP Hnd Hocc.
  assert (Hne : ng <> []) by (intros ->; discriminate HP).
  destruct (@BuildPTP_full_returns c ng Hne) as (P' & fnd' & HP').
  exists fnd'; rewrite HP'; do 2 f_equal.
  apply BuildPTP_inv in HP; destruct HP as (counts & Hc & ->).
  apply BuildPTP_inv in HP'; destruct HP' as (counts' & Hc' & ->).
  assert (E : counts' = counts); [|rewrite E; reflexivity].
  apply (@counts_ext (n_s c) (length ng)).
  - eapply BuildPTP_counts_shape; exact Hc'.
  - eapply BuildPTP_counts_shape; exact Hc.
  - intros j r Hj Hr.
    destruct (nth_error ng r) as [g|] eqn:Eg;
      [|apply nth_error_None in Eg; lia].
    rewrite (@BuildPTP_counts_cells c ng None counts' fnd' r j g Hc' Hnd Eg Hj).
    rewrite (@BuildPTP_counts_cells c ng (Some red) counts fnd r j g
               Hc Hnd Eg Hj).
    cbn [searched]; destruct (mem_str g red) eqn:Em; [reflexivity|].
    rewrite followers_absent; [reflexivity|].
    intros Ho; apply Hocc in Ho; [|eapply nth_error_In; exact Eg].
    apply mem_str_In in Ho; congruence.
Qed.

Lemma BuildPTP_found_In (c : Config) (ngs : list (list ascii))
  (red : option (list (list ascii))) (P : list (list Q))
  (fnd : list (list ascii)) (g : list ascii) (k : nat) (ch : ascii) :
  BuildPTP c ngs red = OK (P, fnd) ->
  In g (match red with None => ngs | Some r => r end) ->
  1 <= length g -> length g = length (hd [] ngs) ->
  window (sequence c) k (length g) = g ->
  nth_error (sequence c) (k + length g) = Some ch ->
  In (g ++ np_str ch) fnd.
Proof.
  intros HP Hcand Hg Hnp Hw Hn.
  apply BuildPTP_inv in HP; destruct HP as (counts & Hc & _).
  apply BuildPTP_counts_items in Hc.
  destruct Hc as (items & Hfold & _ & Hsearched).
  destruct (Hsearched g Hcand) as [r Hr].
  rewrite <- Hnp in Hfold.
  change fnd with (snd (counts, fnd)); rewrite Hfold.
  eapply search_fold_found; [exact Hr|].
  eapply followers_In; eassumption.
Qed.

Lemma window_length (s : list ascii) (k L : nat) :
  k + L <= length s -> length (window s k L) = L.
Proof.
  intros H; unfold window; rewrite length_firstn, length_skipn; lia.
Qed.

Lemma window_In (s : list ascii) (k L : nat) (x : ascii) :
  In x (window s k L) -> In x s.
Proof.
  unfold window; intros H.
  rewrite <- (firstn_skipn k s); apply in_or_app; right.
  rewrite <- (firstn_skipn L (skipn k s)); apply in_or_app; left; exact H.
Qed.

Section BuildPTPs_pruning.

Variable c : Config.

Hypothesis Hnd : NoDup (alpha c).
Hypothesis Hnul : ~ In zero (sequence c).

Let K := Z.to_nat (maxn_p c).
Let ngramS := MakenGrams_all (alpha c) (maxn_p c).

Lemma ngramS_distinct (a : nat) (ng : list (list ascii)) :
  a < K -> nth_error ngramS a = Some ng ->
  NoDup ng /\ forall g, In g ng -> length g = S a.
Proof.
  intros Ha E.
  assert (Hnth := @MakenGrams_all_nth (alpha c) (maxn_p c) (S a)).
  replace (S a - 1) with a in Hnth by lia.
  specialize (Hnth ltac:(lia) ltac:(lia)); fold ngramS in Hnth.
  apply (nth_error_nth _ _ []) in E; rewrite E in Hnth; subst ng.
  assert (Hs : NoDup (sort_syms (alpha c))).
  { eapply Permutation_NoDup; [|exact Hnd].
    apply Permutation_sym, sort_syms_perm. }
  rewrite Hnth; destruct (Nat.eqb_spec (S a) 1) as [E1|E1]; split;
    try (apply all_patterns_NoDup; assumption);
    intros g Hg; apply in_all_patterns in Hg; destruct Hg as [Hg _]; lia.
Qed.

Lemma BuildPTPs_loop_full (len a : nat) (st st' : build_state) :
  BuildPTPs_loop c ngramS (seq a len) st = OK st' ->
  a + len <= K ->
  length (bs_PTPs st) = a ->
  (forall u, length u = S a -> occurs (sequence c) u -> In u (bs_fnd st)) ->
  (forall k P, nth_error (bs_PTPs st) k = Some P ->
               full_matrix c ngramS k P) ->
  forall k P, nth_error (bs_PTPs st') k = Some P -> full_matrix c ngramS k P.
Proof.
  revert a st; induction len as [|len IH]; intros a st Hrun Hle Hl Hocc Hfull.
  - simpl in Hrun; injection Hrun as <-; exact Hfull.
  - cbn [seq BuildPTPs_loop] in Hrun.
    destruct (Z.eqb (nth a (Possible (bs_sparsT st)) 0%Z) 0); [discriminate|].
    destruct (ratio_ltb _ (t_np c)).
    + injection Hrun as <-; exact Hfull.
    + destruct (nth_error ngramS a) as [ng|] eqn:Eng; [|discriminate].
      cbn [bind OK] in Hrun.
      destruct (BuildPTP c ng (Some (bs_fnd st))) as [e|[P fnd']] eqn:EP;
        [discriminate|].
      cbn [bind fst snd] in Hrun.
      destruct (@ngramS_distinct a ng ltac:(lia) Eng) as [Hndg Hlen].
      assert (Hne : ng <> []) by (intros ->; discriminate EP).
      assert (Hhd : length (hd [] ng) = S a).
      { destruct ng as [|g0 ng']; [congruence|].
        apply Hlen; left; reflexivity. }
      refine (IH (S a) _ Hrun _ _ _ _); cbn [bs_PTPs bs_fnd].
      * lia.
      * rewrite length_app; simpl; lia.
      * intros u Hu (k & Hk & Hw).
        rewrite Hu in Hk, Hw.
        rewrite window_snoc in Hw by lia.
        set (g := window (sequence c) k (S a)) in *.
        assert (Hgl : length g = S a) by (apply window_length; lia).
        rewrite <- Hw.
        rewrite <- (@np_str_sequence c (nth (k + S a) (sequence c) zero) Hnul)
          by (apply nth_In; lia).
        apply (@BuildPTP_found_In c ng (Some (bs_fnd st)) P fnd' g k).
        -- exact EP.
        -- apply Hocc; [exact Hgl|].
           exists k; rewrite Hgl; split; [lia | reflexivity].
        -- lia.
        -- congruence.
        -- rewrite Hgl; reflexivity.
        -- rewrite Hgl; apply nth_error_nth'; lia.
      * intros k0 P0 H0.
        destruct (Nat.lt_ge_cases k0 a) as [Hlt|Hge].
        -- rewrite nth_error_app1 in H0 by lia; apply Hfull; exact H0.
        -- rewrite nth_error_app2 in H0 by lia.
           rewrite Hl in H0.
           destruct (k0 - a) as [|d] eqn:Ed;
             [|destruct d; discriminate H0].
           injection H0 as <-.
           assert (k0 = a) by lia; subst k0.
           destruct (@BuildPTP_pruned_full c ng (bs_fnd st) P fnd' EP Hndg)
             as [fnd'' Hf].
           { intros g Hg Ho; apply Hocc; [apply Hlen; exact Hg | exact Ho]. }
           exists ng, fnd''; split; assumption.
Qed.

End BuildPTPs_pruning.

(** X15: restricting the search to the patterns found at the previous
    scale loses nothing: for an alphabet without repeated symbols, every
    matrix that [BuildPTPs] retains is the matrix that [BuildPTP]
    returns for the same list of ngrams when it searches all of them
    (the search returning the matches of the pattern). *)
Theorem BuildPTPs_pruning_lossless (c : Config) (m : Model) (i : nat)
  (P : list (list Q)) :
  BuildPTPs c = OK m -> NoDup (alpha c) ->
  nth_error (PTPs m) i = Some P ->
  exists ng fnd,
    nth_error (ngrams m) i = Some ng /\ BuildPTP c ng None = OK (P, fnd).
Proof.
  intros H Hnd HP.
  apply BuildPTPs_inv in H; destruct H as (st & Hrun & _ & EP & Eng & _).
  destruct (in_dec ascii_dec zero (sequence c)) as [Hz|Hnul].
  { destruct (BuildPTPs_run_nul _ Hrun Hz) as [_ E].
    rewrite EP, E in HP; destruct i; discriminate HP. }
  pose proof Hrun as Hloop; apply BuildPTPs_run_loop in Hloop.
  apply BuildPTPs_run_outcome in Hrun; destruct Hrun as (_ & Hl & _).
  assert (Hi : i < n_p m).
  { rewrite <- Hl, <- EP; apply nth_error_Some; rewrite HP; discriminate. }
  rewrite EP in HP.
  eapply (@BuildPTPs_loop_full c Hnd Hnul) in HP; [| exact Hloop | | | |].
  - destruct HP as (ng & fnd & E & HB).
    exists ng, fnd; split; [|exact HB].
    rewrite Eng, nth_error_firstn.
    destruct (Nat.ltb_spec i (n_p m)); [exact E | lia].
  - lia.
  - reflexivity.
  - cbn [bs_fnd]; intros u Hu (k & Hk & Hw).
    destruct u as [|x [|y u]]; try discriminate Hu.
    assert (Hx : In x (sequence c)).
    { apply (@window_In (sequence c) k 1 x).
      simpl in Hw; rewrite Hw; left; reflexivity. }
    rewrite <- (np_str_sequence c x Hnul Hx).
    apply (in_map np_str), np_unique_In; exact Hx.
  - intros k P0 H0; destruct k; discriminate H0.
Qed.

Lemma BuildPTPs_pruning_lossless_witness :
  exists ng fnd,
    nth_error (ngrams abab_model) 1 = Some ng
    /\ BuildPTP abab_config ng None
       = OK (nth 1 (PTPs abab_model) [], fnd).
Proof.
  apply (@BuildPTPs_pruning_lossless abab_config abab_model 1).
  - vm_compute; reflexivity.
  - repeat constructor; simpl; intuition discriminate.
  - reflexivity.
Defined.

(** ** BuildPTPs: the stopping rule *)

Lemma MakenGrams_all_strings (al : list ascii) (maxn : Z) (a : nat)
  (ng : list (list ascii)) (g : list ascii) :
  (Z.of_nat (S a) <= maxn)%Z ->
  nth_error (MakenGrams_all al maxn) a = Some ng ->
  In g ng -> length g = S a.
Proof.
  intros Ha E Hg.
  assert (Hnth := @MakenGrams_all_nth al maxn (S a)).
  replace (S a - 1) with a in Hnth by lia.
  specialize (Hnth ltac:(lia) Ha).
  apply (nth_error_nth _ _ []) in E; rewrite E in Hnth; rewrite Hnth in Hg.
  destruct (Nat.eqb_spec (S a) 1) as [E1|E1];
    apply in_all_patterns in Hg; destruct Hg as [Hg _]; lia.
Qed.







Section BuildPTPs_ratios.

Variable c : Config.

Hypothesis Hnul : ~ In zero (sequence c).

Let K := Z.to_nat (maxn_p c).
Let ngramS := MakenGrams_all (alpha c) (maxn_p c).





End BuildPTPs_ratios.



(** On the sequence abab with the threshold 1/3 the ratios of the
    lengths 1, 2 and 3 are 1/2, 2/4 and 2/8: the ratio of scale 3 is the
    first below the threshold, and 2 matrices are retained. *)
Example abab_retains_two :
  BuildPTPs abab_config = OK abab_model
  /\ map (sparsity_ratio abab_config) [0; 1; 2] = [1 # 2; 1 # 2; 1 # 4]
  /\ (t_np abab_config <= 1 # 2)%Q /\ (1 # 4 < t_np abab_config)%Q
  /\ n_p abab_model = 2 /\ length (PTPs abab_model) = 2.
Proof.
  split; [vm_compute; reflexivity|].
  split; [vm_compute; reflexivity|].
  split; [discriminate|]; repeat split.
Qed.

(** ** BuildPTPs: scales and the length of the sequence *)

Lemma followers_bound (c : Config) (np : nat) (g : list ascii) (x : ascii) :
  In x (followers c np g) -> np + 1 <= n c.
Proof.
  unfold followers, following_chars; intros H.
  apply in_map_iff in H; destruct H as (i & _ & Hi).
  apply filter_In in Hi; destruct Hi as [_ Hi].
  apply Nat.leb_le in Hi; lia.
Qed.

Section BuildPTPs_bound.

Variable c : Config.

Hypothesis Ht : (0 < t_np c)%Q.

Let K := Z.to_nat (maxn_p c).
Let ngramS := MakenGrams_all (alpha c) (maxn_p c).

Lemma BuildPTPs_loop_bound (len a : nat) (st st' : build_state) :
  BuildPTPs_loop c ngramS (seq a len) st = OK st' ->
  a + len <= K ->
  length (bs_PTPs st) = a -> a <= n c ->
  (bs_fnd st = [] \/ S a <= n c) ->
  length (bs_PTPs st') <= n c.
Proof.
  revert a st; induction len as [|len IH]; intros a st Hrun Hle Hl Ha Hfnd.
  - simpl in Hrun; injection Hrun as <-; lia.
  - cbn [seq BuildPTPs_loop] in Hrun.
    destruct (Z.eqb (nth a (Possible (bs_sparsT st)) 0%Z) 0); [discriminate|].
    destruct (ratio_ltb _ (t_np c)) eqn:Er.
    + injection Hrun as <-; cbn [bs_PTPs]; lia.
    + destruct Hfnd as [Hnil|Hn].
      * exfalso; rewrite Hnil in Er; apply ratio_ltb_le in Er.
        apply (Qlt_not_le _ _ Ht).
        eapply Qle_trans; [exact Er|].
        cbn [map unique_size distinct_strs length Z.of_nat].
        rewrite (@fl64_comp _ 0%Q) by (unfold Qdiv; apply Qmult_0_l).
        rewrite fl64_zero; apply Qle_refl.
      * destruct (nth_error ngramS a) as [ng|] eqn:Eng; [|discriminate].
        cbn [bind OK] in Hrun.
        destruct (BuildPTP c ng (Some (bs_fnd st))) as [e|[P fnd']] eqn:EP;
          [discriminate|].
        cbn [bind fst snd] in Hrun.
        refine (IH (S a) _ Hrun _ _ _ _); cbn [bs_PTPs bs_fnd].
        -- lia.
        -- rewrite length_app; simpl; lia.
        -- exact Hn.
        -- destruct fnd' as [|u l]; [left; reflexivity | right].
           assert (Hne : ng <> []) by (intros ->; discriminate EP).
           assert (Hhd : length (hd [] ng) = S a).
           { destruct ng as [|g0 ng']; [congruence|].
             apply (@MakenGrams_all_strings (alpha c) (maxn_p c) a
                      (g0 :: ng') g0); [lia | exact Eng | left; reflexivity]. }
           apply BuildPTP_inv in EP; destruct EP as (counts & Hc & _).
           apply BuildPTP_counts_items in Hc.
           destruct Hc as (items & Hfold & _).
           assert (Hu : In u (snd (counts, u :: l))) by (left; reflexivity).
           rewrite Hfold in Hu; apply search_fold_found_inv in Hu.
           destruct Hu as [[]|(i & g & x & _ & Hx & _)].
           apply followers_bound in Hx; unfold n in *; lia.
Qed.

End BuildPTPs_bound.

(** X16: with a positive threshold, [BuildPTPs] retains no scale longer
    than the sequence: [n_p <= n], because a length with no found
    pattern has the ratio 0. *)
Theorem BuildPTPs_scales_bounded (c : Config) (m : Model) :
  BuildPTPs c = OK m -> (0 < t_np c)%Q -> n_p m <= n c.
Proof.
  intros H Ht.
  apply BuildPTPs_inv in H; destruct H as (st & Hrun & _).
  pose proof Hrun as Hloop; apply BuildPTPs_run_loop in Hloop.
  apply BuildPTPs_run_outcome in Hrun; destruct Hrun as (_ & Hl & _).
  rewrite <- Hl.
  apply (@BuildPTPs_loop_bound c Ht _ 0 _ _ Hloop); cbn [bs_PTPs bs_fnd].
  - lia.
  - reflexivity.
  - lia.
  - unfold n; destruct (sequence c); [left; reflexivity | right; simpl; lia].
Qed.

Lemma BuildPTPs_scales_bounded_witness : n_p abab_model <= n abab_config.
Proof.
  apply (@BuildPTPs_scales_bounded abab_config abab_model).
  - vm_compute; reflexivity.
  - reflexivity.
Defined.

(** ** Predict: the probabilities returned *)

Lemma Qsum_zero (A : Type) (l : list A) :
  (Qsum (map (fun _ => 0%Q) l) == 0)%Q.
Proof.
  induction l as [|a l IH]; [reflexivity|].
  cbn [map]; unfold Qsum in *; cbn [fold_right].
  rewrite IH; reflexivity.
Qed.

(** The relative frequencies of a row of a matrix that [BuildPTP]
    returns: they lie between 0 and 1, and are zero when the total of
    the row is zero. *)
Lemma row_relfreqs (c : Config) (ngs : list (list ascii))
  (red : option (list (list ascii))) (P : list (list Q))
  (fnd : list (list ascii)) (r j : nat) :
  BuildPTP c ngs red = OK (P, fnd) -> 1 <= n_s c ->
  r < length ngs -> j < n_s c ->
  (0 <= relfreq_at (n_s c) P j r <= 1)%Q
  /\ (Qeq_bool (total_at (n_s c) P r) 0 = true ->
      relfreq_at (n_s c) P j r = 0%Q).
Proof.
  intros HB HS Hr Hj.
  destruct (@BuildPTP_invariant c ngs red P fnd HB HS) as [_ Hrows].
  destruct (Hrows r Hr) as (Hsum & Hnn & Hpos & Hzero).
  assert (Hge : (0 <= total_at (n_s c) P r)%Q).
  { rewrite <- Hsum; apply Qsum_nonneg, Forall_map, Forall_forall.
    intros i Hi; apply in_seq in Hi; apply Hnn; lia. }
  split.
  - destruct (Qlt_le_dec 0 (total_at (n_s c) P r)) as [Hp|Hn].
    + apply (proj1 (Hpos Hp)); exact Hj.
    + assert (E : (total_at (n_s c) P r == 0)%Q)
        by (apply Qle_antisym; assumption).
      rewrite (Hzero E j Hj); split; [apply Qle_refl | discriminate].
  - intros Eb; apply Qeq_bool_iff in Eb; apply Hzero; assumption.
Qed.

Lemma built_scale (c : Config) (m : Model) (i : nat) :
  BuildPTPs c = OK m -> i < n_p m ->
  exists ng red fnd P,
    nth_error (ngrams m) i = Some ng
    /\ nth_error (PTPs m) i = Some P
    /\ BuildPTP c ng red = OK (P, fnd).
Proof.
  intros H Hlt; apply BuildPTPs_inv in H.
  destruct H as (st & Hrun & Hc & HP & Hng & _).
  apply BuildPTPs_run_outcome in Hrun.
  destruct Hrun as (Hi & Hl & _ & _ & _ & Hb & _).
  destruct (nth_error (PTPs m) i) as [P|] eqn:EP.
  - rewrite HP in EP; destruct (Hb _ _ EP) as (ng & red & fnd & Eng & HB).
    exists ng, red, fnd, P; split; [|split; [reflexivity | exact HB]].
    rewrite Hng, nth_error_firstn.
    destruct (Nat.ltb_spec i (n_p m)); [exact Eng | lia].
  - apply nth_error_None in EP; rewrite HP in EP; lia.
Qed.

(** What [average] returns: for every symbol, the sum of its column of
    the rows gathered, over [w], both rounded. *)
Lemma average_ok (rows : list (list Q)) (w : Z) (probs : list Q) :
  average rows w = OK probs ->
  probs = []
  \/ (w <> 0%Z
      /\ probs = map (fun col => fl64 (fsum col / inject_Z w))
                   (zip_star rows)).
Proof.
  unfold average; destruct (Z.eqb_spec w 0) as [E|E].
  - destruct (zip_star rows); simpl; intros H;
      [injection H as <-; left; reflexivity | discriminate H].
  - intros H; right; split; [exact E|].
    revert probs H; induction (zip_star rows) as [|col cols IH];
      intros probs H.
    + injection H as <-; reflexivity.
    + cbn [mapR bind OK] in H.
      destruct (mapR _ cols) as [e|bs]; [discriminate H|].
      cbn [bind OK] in H; injection H as <-.
      cbn [map]; f_equal; apply IH; reflexivity.
Qed.

(** The rounded sum of numbers between 0 and 1 is at most the number of
    those that are not zero. *)
Lemma fsum_from_bound (xs : list Q) (bs : list bool) (s : Q) (k : Z) :
  Forall2 (fun x b => (0 <= x <= 1)%Q /\ (b = true -> x = 0%Q)) xs bs ->
  (0 <= k)%Z -> (0 <= s <= inject_Z (Z.min k (2 ^ 53)))%Q ->
  (0 <= fold_left (fun s x => fl64 (s + x)) xs s
   <= inject_Z (Z.min (k + Z.of_nat (length (filter negb bs))) (2 ^ 53)))%Q.
Proof.
  intros H; revert s k; induction H as [|x b xs bs [[Hx0 Hx1] Hb] _ IH];
    intros s k Hk [Hs0 Hs1].
  - simpl; rewrite Z.add_0_r; split; assumption.
  - cbn [fold_left filter].
    assert (Hsx : (0 <= s + x)%Q).
    { rewrite <- (Qplus_0_l 0); apply Qplus_le_compat; assumption. }
    destruct b; cbn [negb].
    + apply IH; [exact Hk|]; split; [apply fl64_nonneg; exact Hsx|].
      rewrite (Hb eq_refl).
      rewrite <- (@fl64_Z (Z.min k (2 ^ 53))) by lia.
      apply fl64_mono; [rewrite Qplus_0_r; exact Hs0|].
      rewrite Qplus_0_r; exact Hs1.
    + cbn [length].
      replace (k + Z.of_nat (S (length (filter negb bs))))%Z
        with ((k + 1) + Z.of_nat (length (filter negb bs)))%Z by lia.
      apply IH; [lia|]; split; [apply fl64_nonneg; exact Hsx|].
      destruct (Z_lt_le_dec k (2 ^ 53)) as [Hlt|Hge].
      * rewrite <- (@fl64_Z (Z.min (k + 1) (2 ^ 53))) by lia.
        apply fl64_mono; [exact Hsx|].
        replace (Z.min (k + 1) (2 ^ 53)) with (Z.min k (2 ^ 53) + 1)%Z by lia.
        rewrite inject_Z_plus; apply Qplus_le_compat; assumption.
      * replace (Z.min (k + 1) (2 ^ 53)) with (2 ^ 53)%Z by lia.
        rewrite <- fl64_past_53.
        apply fl64_mono; [exact Hsx|].
        replace (Z.min k (2 ^ 53)) with (2 ^ 53)%Z in Hs1 by lia.
        apply Qplus_le_compat; assumption.
Qed.

Section Predict_built.

Variables (c : Config) (m : Model).

Hypothesis Hbuilt : BuildPTPs c = OK m.

Lemma gather_step_built (ctx : list ascii) (st st' : list (list Q) * Z)
  (i : nat) :
  gather_step m ctx st i = OK st' -> i < n_p m ->
  exists (row : list Q) (b : bool),
    st' = (fst st ++ [row], (snd st - if b then 1 else 0)%Z)
    /\ length row = n_s c
    /\ Forall (fun q => (0 <= q <= 1)%Q /\ (b = true -> q = 0%Q)) row.
Proof.
  intros H Hi.
  pose proof Hbuilt as Hbm; apply built_model in Hbm.
  destruct Hbm as (Hc & HS & Hl & Hscale).
  destruct (Hscale i Hi) as (ng & P & Hng & Hlen & HP & Hshape).
  destruct (@built_scale c m i Hbuilt Hi)
    as (ng' & red & fnd & P' & Hng' & HP' & HB).
  rewrite Hng in Hng'; injection Hng' as <-.
  rewrite HP in HP'; injection HP' as <-.
  unfold gather_step in H.
  rewrite (@get_some _ (ngrams m) i ng Hng) in H; cbn [bind OK] in H.
  destruct (index_str (last_syms (i + 1) ctx) ng) as [r|] eqn:Er;
    [|discriminate H].
  cbn [bind OK] in H.
  pose proof Er as Hrow; apply index_str_lt in Hrow.
  pose proof Hshape as Hsk; apply PTP_shape_skipn in Hsk.
  destruct Hsk as [Hsl Hsf].
  rewrite (@get_some _ (PTPs m) i P HP) in H; cbn [bind OK] in H.
  rewrite Hc in H.
  rewrite (@mapR_get _ r (length ng) Hrow Hsf) in H; cbn [bind OK] in H.
  destruct Hshape as [HPl HPf].
  rewrite (@get_ok _ P (n_s c) []) in H by lia; cbn [bind OK] in H.
  assert (Hcol : length (nth (n_s c) P []) = length ng).
  { rewrite Forall_forall in HPf; apply HPf, nth_In; lia. }
  rewrite (@get_ok _ (nth (n_s c) P []) r 0%Q) in H by lia;
    cbn [bind OK] in H.
  injection H as <-.
  exists (map (fun col => nth r col 0%Q) (skipn (n_s c + 1) P)),
    (Qeq_bool (nth r (nth (n_s c) P []) 0%Q) 0).
  split; [reflexivity|]; split; [rewrite length_map; exact Hsl|].
  assert (Erow : map (fun col => nth r col 0%Q) (skipn (n_s c + 1) P)
                 = map (fun j => relfreq_at (n_s c) P j r) (seq 0 (n_s c))).
  { rewrite (map_nth_seq (fun col => nth r col 0%Q) []
               (skipn (n_s c + 1) P)), Hsl.
    apply map_ext; intros j; rewrite nth_skipn; reflexivity. }
  rewrite Erow.
  apply Forall_map, Forall_forall; intros j Hj; apply in_seq in Hj.
  apply (@row_relfreqs c ng red P fnd r j HB HS Hrow); lia.
Qed.

Lemma gather_built (ctx : list ascii) (len a : nat)
  (st st' : list (list Q) * Z) :
  gather m ctx (seq a len) st = OK st' -> a + len <= n_p m ->
  exists rows bs,
    fst st' = fst st ++ rows
    /\ length rows = len
    /\ Forall2 (fun row b =>
                  length row = n_s c
                  /\ Forall (fun q => (0 <= q <= 1)%Q
                                      /\ (b = true -> q = 0%Q)) row)
         rows bs
    /\ (snd st' - snd st + Z.of_nat len
        = Z.of_nat (length (filter negb bs)))%Z.
Proof.
  revert a st; induction len as [|len IH]; intros a st H Hle.
  - simpl in H; injection H as <-.
    exists [], []; rewrite app_nil_r; repeat split; [constructor|].
    simpl; lia.
  - cbn [seq gather] in H.
    destruct (gather_step m ctx st a) as [e|st1] eqn:E1; [discriminate H|].
    cbn [bind] in H.
    apply gather_step_built in E1; [|lia].
    destruct E1 as (row & b & -> & Hrl & Hrow).
    apply IH in H; [|lia].
    destruct H as (rows & bs & Hf & Hl & HF & Hs).
    cbn [fst snd] in Hf, Hs.
    exists (row :: rows), (b :: bs).
    split; [rewrite Hf, <- app_assoc; reflexivity|].
    split; [simpl; lia|]; split; [constructor; auto|].
    cbn [filter]; destruct b; cbn [negb length]; lia.
Qed.

End Predict_built.

Lemma get_In (A : Type) (l : list A) (i : nat) (a : A) :
  get l i = OK a -> nth_error l i = Some a.
Proof.
  unfold get; destruct (nth_error l i); intros H;
    [injection H as <-; reflexivity | discriminate H].
Qed.

Lemma Qsum_bound (l : list Q) (q : Q) :
  Forall (fun r => (0 <= r)%Q) l -> In q l -> (q <= Qsum l)%Q.
Proof.
  induction 1 as [|r l Hr Hl IH]; intros Hin; [destruct Hin|].
  change (Qsum (r :: l)) with (r + Qsum l)%Q.
  destruct Hin as [->|Hin].
  - rewrite <- (Qplus_0_r q) at 1.
    apply Qplus_le_compat; [apply Qle_refl | apply Qsum_nonneg; exact Hl].
  - rewrite <- (Qplus_0_l q).
    apply Qplus_le_compat; [exact Hr | apply IH; exact Hin].
Qed.

(** X17: on a built model, what [Predict] returns is a vector of
    probabilities over the alphabet: one number for each symbol, each
    between 0 and 1 (the doubles of the averages); the predicted symbol
    is a symbol of the alphabet. *)
Theorem Predict_probabilities (c : Config) (m : Model)
  (predStart : option (list ascii)) (a : ascii) (probs : list Q) :
  BuildPTPs c = OK m ->
  Predict m predStart = OK (a, probs) ->
  length probs = n_s c
  /\ Forall (fun q => (0 <= q)%Q /\ (q <= 1)%Q) probs
  /\ In a (alpha c).
Proof.
  intros Hb H.
  pose proof Hb as Hbm; apply built_model in Hbm.
  destruct Hbm as (Hc & HS & _).
  unfold Predict in H.
  set (pw := match predStart with
             | None => (last_syms (n_p m) (sequence (conf m)), n_p m)
             | Some ps => (ps, Nat.min (length ps) (n_p m))
             end) in H.
  assert (Hw : 0 + snd pw <= n_p m) by (unfold pw; destruct predStart; simpl; lia).
  destruct (gather m (fst pw) (seq 0 (snd pw)) ([], Z.of_nat (snd pw)))
    as [e|gw] eqn:Eg; [discriminate H|].
  cbn [bind] in H.
  destruct (average (fst gw) (snd gw)) as [e|ap] eqn:Ea; [discriminate H|].
  cbn [bind] in H.
  destruct ap as [|q qs]; [discriminate H|].
  destruct (get (alpha (conf m)) _) as [e|a'] eqn:Eget; [discriminate H|].
  cbn [bind OK] in H; injection H as <- <-.
  apply (@gather_built c m Hb) in Eg; [|exact Hw].
  destruct Eg as (rows & bs & Hf & Hl & HF & Hs); cbn [fst snd app] in Hf, Hs.
  apply average_ok in Ea; destruct Ea as [Ea|[Hw0 Ea]]; [discriminate Ea|].
  rewrite Hf in Ea.
  assert (Hne : rows <> []) by (intros ->; discriminate Ea).
  assert (HFl : Forall (fun row => length row = n_s c) rows).
  { clear -HF; induction HF as [|row b rows bs [Hr _] _ IH];
      constructor; assumption. }
  replace (snd gw - Z.of_nat (snd pw) + Z.of_nat (snd pw))%Z with (snd gw)
    in Hs by lia.
  assert (Hpos : (0 < inject_Z (snd gw))%Q).
  { rewrite <- (Zlt_Qlt 0); lia. }
  rewrite Ea; split; [|split].
  - rewrite length_map; apply zip_star_length; assumption.
  - apply Forall_map, Forall_forall; intros col Hcol.
    apply (In_nth _ _ []) in Hcol; destruct Hcol as (j & Hj & <-).
    rewrite (@zip_star_length _ (n_s c) rows Hne HFl) in Hj.
    rewrite (@nth_zip_star _ 0%Q (n_s c) j rows Hne HFl Hj).
    assert (Hcolj : Forall2 (fun x b => (0 <= x <= 1)%Q /\ (b = true -> x = 0%Q))
                      (map (fun row => nth j row 0%Q) rows) bs).
    { clear -HF Hj; induction HF as [|row b rows bs [Hr Hrow] _ IH];
        cbn [map]; constructor; [|exact IH].
      rewrite Forall_forall in Hrow; apply Hrow, nth_In; lia. }
    destruct (@fsum_from_bound _ bs 0%Q 0%Z Hcolj) as [H0 H1];
      [lia | split; [apply Qle_refl | simpl; discriminate] |].
    fold (fsum (map (fun row => nth j row 0%Q) rows)) in H0, H1.
    apply and_comm, and_comm, fl64_unit; split.
    + apply Qle_shift_div_l; [exact Hpos | rewrite Qmult_0_l; exact H0].
    + apply Qle_shift_div_r; [exact Hpos|].
      rewrite Qmult_1_l; eapply Qle_trans; [exact H1|].
      rewrite <- Zle_Qle; lia.
  - apply get_In in Eget; apply nth_error_In in Eget.
    rewrite Hc in Eget; exact Eget.
Qed.

Lemma Predict_probabilities_witness :
  length [8406719304424925 # 18014398509481984; 5404319552844595 # 18014398509481984; 8406719304424925 # 36028797018963968] = n_s abc_config
  /\ Forall (fun q => (0 <= q)%Q /\ (q <= 1)%Q)
       [8406719304424925 # 18014398509481984; 5404319552844595 # 18014398509481984; 8406719304424925 # 36028797018963968]
  /\ In "a"%char (alpha abc_config).
Proof.
  apply (@Predict_probabilities abc_config abc_model None).
  - vm_compute; reflexivity.
  - vm_compute; reflexivity.
Defined.

Lemma Qmax_list_ge (q : Q) (l : list Q) :
  (q <= Qmax_list q l)%Q /\ forall r, In r l -> (r <= Qmax_list q l)%Q.
Proof.
  revert q; induction l as [|r l IH]; intros q.
  - split; [apply Qle_refl | intros r []].
  - cbn [Qmax_list].
    destruct (IH (if Qle_bool r q then q else r)) as [H1 H2].
    destruct (Qle_bool r q) eqn:E.
    + apply Qle_bool_iff in E; split; [exact H1|].
      intros x [<-|Hx]; [eapply Qle_trans; eassumption | apply H2, Hx].
    + assert (Hqr : (q <= r)%Q).
      { apply Qlt_le_weak, Qnot_le_lt; intros Hle.
        apply Qle_bool_iff in Hle; congruence. }
      split; [eapply Qle_trans; eassumption|].
      intros x [<-|Hx]; [exact H1 | apply H2, Hx].
Qed.

Lemma Qmax_list_in (q : Q) (l : list Q) :
  Qmax_list q l = q \/ In (Qmax_list q l) l.
Proof.
  revert q; induction l as [|r l IH]; intros q; [left; reflexivity|].
  cbn [Qmax_list].
  destruct (IH (if Qle_bool r q then q else r)) as [H|H].
  - rewrite H; destruct (Qle_bool r q); [left | right; left]; reflexivity.
  - right; right; exact H.
Qed.

Lemma index_Q_spec (M : Q) (l : list Q) :
  (exists r, In r l /\ (r == M)%Q) ->
  index_Q M l < length l
  /\ (nth (index_Q M l) l 0 == M)%Q
  /\ forall j, j < index_Q M l -> ~ (nth j l 0 == M)%Q.
Proof.
  induction l as [|r l IH]; intros (x & Hx & Ex); [destruct Hx|].
  cbn [index_Q]; destruct (Qeq_bool r M) eqn:E.
  - apply Qeq_bool_iff in E; simpl; repeat split; [lia | exact E|].
    intros j Hj; lia.
  - apply Qeq_bool_neq in E.
    destruct Hx as [->|Hx]; [contradiction|].
    destruct IH as (H1 & H2 & H3); [exists x; auto|].
    simpl; repeat split; [lia | exact H2|].
    intros [|j] Hj; [exact E | apply H3; lia].
Qed.

(** X18: the symbol that [Predict] returns is the symbol of the largest
    probability returned, the first one in the order of the alphabet
    when several probabilities are the largest. *)
Theorem Predict_argmax (m : Model) (predStart : option (list ascii))
  (a : ascii) (probs : list Q) :
  Predict m predStart = OK (a, probs) ->
  exists k,
    nth_error (alpha (conf m)) k = Some a
    /\ k < length probs
    /\ (forall j, j < length probs -> (nth j probs 0 <= nth k probs 0)%Q)
    /\ (forall j, j < k -> (nth j probs 0 < nth k probs 0)%Q).
Proof.
  unfold Predict; intros H.
  destruct (gather m _ _ _) as [e|gw]; [discriminate H|].
  cbn [bind] in H.
  destruct (average (fst gw) (snd gw)) as [e|ap]; [discriminate H|].
  cbn [bind] in H.
  destruct ap as [|q qs]; [discriminate H|].
  destruct (get (alpha (conf m)) _) as [e|a'] eqn:Eget; [discriminate H|].
  cbn [bind OK] in H; injection H as <- <-.
  set (M := Qmax_list q qs) in *.
  destruct (Qmax_list_ge q qs) as [Hq Hqs]; fold M in Hq, Hqs.
  assert (Hle : forall j, j < length (q :: qs) -> (nth j (q :: qs) 0 <= M)%Q).
  { intros [|j] Hj; [exact Hq|].
    cbn [nth]; apply Hqs, nth_In; simpl in Hj; lia. }
  destruct (@index_Q_spec M (q :: qs)) as (H1 & H2 & H3).
  { exists M; split; [|reflexivity].
    destruct (Qmax_list_in q qs) as [E|E]; fold M in E;
      [left; symmetry; exact E | right; exact E]. }
  exists (index_Q M (q :: qs)); split; [apply get_In; exact Eget|].
  split; [exact H1|]; split.
  - intros j Hj; rewrite H2; apply Hle; exact Hj.
  - intros j Hj; rewrite H2.
    assert (Hjl : (nth j (q :: qs) 0 <= M)%Q) by (apply Hle; lia).
    apply Qle_lteq in Hjl; destruct Hjl as [Hlt|Heq]; [exact Hlt|].
    exfalso; exact (H3 j Hj Heq).
Qed.

Lemma Predict_argmax_witness :
  exists k,
    nth_error (alpha (conf abc_model)) k = Some "a"%char
    /\ k < length [8406719304424925 # 18014398509481984;
     5404319552844595 # 18014398509481984;
     8406719304424925 # 36028797018963968]
    /\ (forall j, j < length [8406719304424925 # 18014398509481984;
     5404319552844595 # 18014398509481984;
     8406719304424925 # 36028797018963968] ->
          (nth j [8406719304424925 # 18014398509481984;
     5404319552844595 # 18014398509481984;
     8406719304424925 # 36028797018963968] 0
           <= nth k [8406719304424925 # 18014398509481984;
     5404319552844595 # 18014398509481984;
     8406719304424925 # 36028797018963968] 0)%Q)
    /\ (forall j, j < k ->
          (nth j [8406719304424925 # 18014398509481984;
     5404319552844595 # 18014398509481984;
     8406719304424925 # 36028797018963968] 0
           < nth k [8406719304424925 # 18014398509481984;
     5404319552844595 # 18014398509481984;
     8406719304424925 # 36028797018963968] 0)%Q).
Proof.
  apply (@Predict_argmax abc_model None).
  vm_compute; reflexivity.
Defined.

(** ** Predict: when it returns *)

Lemma last_syms_suffix (w i : nat) (ctx : list ascii) (Pr : ascii -> Prop) :
  i < w -> w <= length ctx ->
  Forall Pr (last_syms w ctx) ->
  length (last_syms (i + 1) ctx) = S i /\ Forall Pr (last_syms (i + 1) ctx).
Proof.
  intros Hi Hw HF; unfold last_syms in *.
  destruct (Nat.eqb_spec (i + 1) 0) as [E|_]; [lia|].
  destruct (Nat.eqb_spec w 0) as [E|_]; [lia|].
  split; [rewrite length_skipn; lia|].
  replace (length ctx - (i + 1)) with ((w - (i + 1)) + (length ctx - w))
    by lia.
  rewrite <- skipn_skipn.
  rewrite <- (firstn_skipn (w - (i + 1)) (skipn (length ctx - w) ctx)) in HF.
  apply Forall_app in HF; apply HF.
Qed.

Lemma average_nonzero (rows : list (list Q)) (w : Z) :
  w <> 0%Z ->
  average rows w
  = OK (map (fun col => fl64 (fsum col / inject_Z w)) (zip_star rows)).
Proof.
  intros Hw; unfold average.
  destruct (Z.eqb_spec w 0) as [E|_]; [contradiction|].
  induction (zip_star rows) as [|col cols IH]; [reflexivity|].
  cbn [mapR map bind OK]; rewrite IH; reflexivity.
Qed.

Section Predict_returns.

Variables (c : Config) (m : Model).

Hypothesis Hbuilt : BuildPTPs c = OK m.

Lemma gather_step_returns (ctx : list ascii) (st : list (list Q) * Z)
  (i : nat) :
  i < n_p m ->
  length (last_syms (i + 1) ctx) = S i ->
  Forall (fun x => In x (alpha c)) (last_syms (i + 1) ctx) ->
  exists st', gather_step m ctx st i = OK st'.
Proof.
  intros Hi Hlen Hal.
  pose proof Hbuilt as Hbm; apply built_model in Hbm.
  destruct Hbm as (Hc & HS & Hl & Hscale).
  destruct (Hscale i Hi) as (ng & P & Hng & _ & HP & Hshape).
  pose proof Hbuilt as Hinv; apply BuildPTPs_inv in Hinv.
  destruct Hinv as (st0 & Hrun & _ & _ & Engs & _).
  apply BuildPTPs_run_outcome in Hrun; destruct Hrun as (HiK & _).
  destruct (@ngramS_complete c HS i ltac:(lia)) as (ng' & Eng' & _ & Hall).
  assert (E : ng' = ng).
  { rewrite Engs, nth_error_firstn in Hng.
    destruct (Nat.ltb_spec i (n_p m)); [congruence | lia]. }
  subst ng'.
  destruct (@index_str_In (last_syms (i + 1) ctx) ng (Hall _ Hlen Hal))
    as [r Er].
  pose proof Er as Hrow; apply index_str_lt in Hrow.
  pose proof Hshape as Hsk; apply PTP_shape_skipn in Hsk.
  destruct Hsk as [Hsl Hsf].
  unfold gather_step.
  rewrite (@get_some _ (ngrams m) i ng Hng); cbn [bind OK].
  rewrite Er; cbn [bind OK].
  rewrite (@get_some _ (PTPs m) i P HP); cbn [bind OK]; rewrite Hc.
  rewrite (@mapR_get _ r (length ng) Hrow Hsf); cbn [bind OK].
  destruct Hshape as [HPl HPf].
  rewrite (@get_ok _ P (n_s c) []) by lia; cbn [bind OK].
  assert (Hcol : length (nth (n_s c) P []) = length ng).
  { rewrite Forall_forall in HPf; apply HPf, nth_In; lia. }
  rewrite (@get_ok _ (nth (n_s c) P []) r 0%Q) by lia; cbn [bind OK].
  eexists; reflexivity.
Qed.

Lemma gather_returns (ctx : list ascii) (len a : nat)
  (st : list (list Q) * Z) :
  a + len <= n_p m ->
  (forall i, a <= i < a + len ->
     length (last_syms (i + 1) ctx) = S i
     /\ Forall (fun x => In x (alpha c)) (last_syms (i + 1) ctx)) ->
  exists st', gather m ctx (seq a len) st = OK st'.
Proof.
  revert a st; induction len as [|len IH]; intros a st Hle Hctx.
  - exists st; reflexivity.
  - destruct (Hctx a ltac:(lia)) as [Hlen Hal].
    destruct (@gather_step_returns ctx st a ltac:(lia) Hlen Hal) as [st1 E1].
    cbn [seq gather]; rewrite E1; cbn [bind OK].
    apply IH; [lia|]; intros i Hi; apply Hctx; lia.
Qed.

End Predict_returns.

(** When the context has at least as many symbols as the scales
    consulted and the symbols consulted are in the alphabet, every
    lookup of [Predict] succeeds. *)
Lemma Predict_lookups (c : Config) (m : Model)
  (predStart : option (list ascii)) :
  BuildPTPs c = OK m ->
  let ctx := match predStart with
             | None => last_syms (n_p m) (sequence c)
             | Some ps => ps
             end in
  let w := match predStart with
           | None => n_p m
           | Some ps => Nat.min (length ps) (n_p m)
           end in
  1 <= w -> w <= length ctx ->
  Forall (fun x => In x (alpha c)) (last_syms w ctx) ->
  (exists a probs, Predict m predStart = OK (a, probs))
  \/ Predict m predStart = Err ZeroDivisionError.
Proof.
  intros Hb ctx w Hw1 Hwl Hal.
  pose proof Hb as Hbm; apply built_model in Hbm.
  destruct Hbm as (Hc & HS & _).
  assert (Hwn : 0 + w <= n_p m) by (unfold w; destruct predStart; lia).
  assert (E : (match predStart with
               | None => (last_syms (n_p m) (sequence (conf m)), n_p m)
               | Some ps => (ps, Nat.min (length ps) (n_p m))
               end) = (ctx, w)).
  { unfold ctx, w; rewrite Hc; destruct predStart; reflexivity. }
  unfold Predict; rewrite E; cbn [fst snd].
  destruct (@gather_returns c m Hb ctx w 0 ([], Z.of_nat w) Hwn) as [gw Eg].
  { intros i Hi; apply (@last_syms_suffix w i ctx); [lia | exact Hwl | exact Hal]. }
  rewrite Eg; cbn [bind OK].
  apply (@gather_built c m Hb) in Eg; [|exact Hwn].
  destruct Eg as (rows & bs & Hf & Hl & HF & _); cbn [fst app] in Hf.
  assert (HFl : Forall (fun row => length row = n_s c) rows).
  { clear -HF; induction HF as [|row b rows bs [Hr _] _ IH];
      constructor; assumption. }
  assert (Hne : rows <> []) by (intros ->; simpl in Hl; lia).
  rewrite Hf.
  destruct (Z.eq_dec (snd gw) 0) as [E0|E0].
  - right; rewrite E0.
    rewrite (@average_zero c rows); [reflexivity | lia | exact HS | exact HFl].
  - left; rewrite (average_nonzero rows E0); cbn [bind OK].
    set (probs := map (fun col => fl64 (fsum col / inject_Z (snd gw)))
                    (zip_star rows)).
    assert (Hlp : length probs = n_s c).
    { unfold probs; rewrite length_map; apply zip_star_length; assumption. }
    destruct probs as [|q qs] eqn:Ep; [simpl in Hlp; lia|].
    destruct (@index_Q_spec (Qmax_list q qs) (q :: qs)) as (H1 & _).
    { exists (Qmax_list q qs); split; [|reflexivity].
      destruct (Qmax_list_in q qs) as [Em|Em];
        [left; symmetry; exact Em | right; exact Em]. }
    rewrite (@get_ok _ (alpha (conf m)) _ zero)
      by (rewrite Hc; fold (n_s c); lia).
    cbn [bind OK]; eexists; eexists; reflexivity.
Qed.

(** X19: on a built model that retains a scale, every lookup of
    [Predict] succeeds, so that it returns or raises ZeroDivisionError
    and nothing else: for a context given by the caller that is not
    empty and whose symbols consulted (the last [min(len, n_p)]) are in
    the alphabet; and for the default context when the sequence has at
    least [n_p] symbols and its last [n_p] symbols are in the
    alphabet. *)
Theorem Predict_outcome (c : Config) (m : Model) :
  BuildPTPs c = OK m -> 1 <= n_p m ->
  (forall ps,
     ps <> [] ->
     Forall (fun x => In x (alpha c))
       (last_syms (Nat.min (length ps) (n_p m)) ps) ->
     (exists a probs, Predict m (Some ps) = OK (a, probs))
     \/ Predict m (Some ps) = Err ZeroDivisionError)
  /\ (n_p m <= n c ->
      Forall (fun x => In x (alpha c)) (last_syms (n_p m) (sequence c)) ->
      (exists a probs, Predict m None = OK (a, probs))
      \/ Predict m None = Err ZeroDivisionError).
Proof.
  intros Hb Hnp; split.
  - intros ps Hne Hal.
    assert (Hps : 1 <= length ps) by (destruct ps; [congruence | simpl; lia]).
    apply (@Predict_lookups c m (Some ps) Hb); [lia | lia | exact Hal].
  - intros Hn Hal.
    assert (Hlen : length (last_syms (n_p m) (sequence c)) = n_p m).
    { unfold last_syms, n in *.
      destruct (Nat.eqb_spec (n_p m) 0); [lia|].
      rewrite length_skipn; lia. }
    apply (@Predict_lookups c m None Hb); cbv zeta.
    + exact Hnp.
    + rewrite Hlen; apply le_n.
    + unfold last_syms at 1.
      destruct (Nat.eqb_spec (n_p m) 0); [lia|].
      rewrite Hlen, Nat.sub_diag; exact Hal.
Qed.

Lemma Predict_outcome_witness :
  (forall ps,
     ps <> [] ->
     Forall (fun x => In x (alpha abab_config))
       (last_syms (Nat.min (length ps) (n_p abab_model)) ps) ->
     (exists a probs, Predict abab_model (Some ps) = OK (a, probs))
     \/ Predict abab_model (Some ps) = Err ZeroDivisionError)
  /\ (n_p abab_model <= n abab_config ->
      Forall (fun x => In x (alpha abab_config))
        (last_syms (n_p abab_model) (sequence abab_config)) ->
      (exists a probs, Predict abab_model None = OK (a, probs))
      \/ Predict abab_model None = Err ZeroDivisionError).
Proof.
  apply (@Predict_outcome abab_config abab_model).
  - vm_compute; reflexivity.
  - vm_compute; apply le_S, le_n.
Defined.

(** ** Simulate: the memo and the outcome *)

Lemma simulate_loop_direct (m : Model) (irnds : list (nat * Q))
  (st : list ascii * list (list ascii * list Q)) :
  memo_sound m (snd st) ->
  simulate_loop m irnds st = simulate_direct m irnds (fst st).
Proof.
  revert st; induction irnds as [|[i rnd] irnds IH]; intros st Hm;
    [reflexivity|].
  cbn [simulate_loop simulate_direct].
  set (subSeq := last_syms (Nat.min i (n_p m)) (fst st)).
  destruct (lookup_str subSeq (snd st)) as [probs|] eqn:El.
  - destruct (Hm _ _ El) as [a Ea]; rewrite Ea; cbn [bind OK fst snd].
    destruct (simOne m rnd (cumsum probs)) as [e|b]; [reflexivity|].
    cbn [bind OK]; apply (IH (fst st ++ [b], snd st)); exact Hm.
  - destruct (Predict m (Some subSeq)) as [e|[a probs]] eqn:Ep;
      [reflexivity|].
    cbn [bind OK fst snd].
    destruct (simOne m rnd (cumsum probs)) as [e|b]; [reflexivity|].
    cbn [bind OK]; apply (IH (fst st ++ [b], (subSeq, probs) :: snd st)).
    cbn [snd]; intros k v Hk; cbn [lookup_str] in Hk.
    destruct (str_eqb subSeq k) eqn:Ek.
    + apply str_eqb_eq in Ek; subst k; injection Hk as <-.
      exists a; exact Ep.
    + apply Hm; exact Hk.
Qed.

Lemma memo_sound_nil (m : Model) : memo_sound m [].
Proof. intros k v Hk; discriminate Hk. Qed.

Lemma simulate_memo_eq (m : Model) (rnds : list Q) :
  Simulate m rnds = Simulate_direct m rnds.
Proof.
  unfold Simulate, Simulate_direct.
  destruct (Predict m None) as [e|sp]; [reflexivity|].
  cbn [bind].
  destruct (get rnds 0) as [e|rnd0]; [reflexivity|].
  cbn [bind].
  destruct (simOne m rnd0 (cumsum (snd sp))) as [e|a]; [reflexivity|].
  cbn [bind].
  apply (@simulate_loop_direct m _ ([a], [])), memo_sound_nil.
Qed.

(** X20: the memo [subSeqs] of [Simulate] changes nothing: at every
    pass of the loop a memo whose entries are what [Predict] returns for
    their keys is left so, and the result of the loop and of
    [Simulate], value or exception, is the one obtained by calling
    [Predict] at every pass. *)
Theorem Simulate_memo_transparent (m : Model) (rnds : list Q) :
  Simulate m rnds = Simulate_direct m rnds
  /\ forall irnds Sstar memo,
       memo_sound m memo ->
       simulate_loop m irnds (Sstar, memo) = simulate_direct m irnds Sstar.
Proof.
  split; [apply simulate_memo_eq|].
  intros irnds Sstar memo Hm.
  apply (@simulate_loop_direct m irnds (Sstar, memo)); exact Hm.
Qed.

Lemma Simulate_memo_transparent_witness :
  Simulate abab_model [1 # 2; 1 # 3; 9 # 10]
  = Simulate_direct abab_model [1 # 2; 1 # 3; 9 # 10].
Proof.
  apply (proj1 (@Simulate_memo_transparent abab_model
                  [1 # 2; 1 # 3; 9 # 10])).
Defined.

(** The lambda [simOne] returns a symbol or finds its selection empty. *)
Lemma simOne_outcome (m : Model) (rnd : Q) (prbs : list Q) :
  (exists b, simOne m rnd prbs = OK b) \/ simOne m rnd prbs = Err IndexError.
Proof.
  unfold simOne; destruct (filter _ _); [right | left; eexists]; reflexivity.
Qed.

Lemma last_syms_Forall (k : nat) (s : list ascii) (Pr : ascii -> Prop) :
  Forall Pr s -> Forall Pr (last_syms k s).
Proof.
  intros H; unfold last_syms; destruct (k =? 0); [exact H|].
  rewrite <- (firstn_skipn (length s - k) s) in H.
  apply Forall_app in H; apply H.
Qed.

Section Simulate_built.

Variables (c : Config) (m : Model).

Hypothesis Hbuilt : BuildPTPs c = OK m.
Hypothesis Hnp : 1 <= n_p m.

Lemma simulate_direct_outcome (irnds : list (nat * Q)) (Sstar : list ascii) :
  Sstar <> [] -> Forall (fun x => In x (alpha c)) Sstar ->
  Forall (fun ir : nat * Q => 1 <= fst ir) irnds ->
  (exists s, simulate_direct m irnds Sstar = OK s)
  \/ simulate_direct m irnds Sstar = Err ZeroDivisionError
  \/ simulate_direct m irnds Sstar = Err IndexError.
Proof.
  pose proof Hbuilt as Hbm; apply built_model in Hbm.
  destruct Hbm as (Hc & HS & _).
  revert Sstar; induction irnds as [|[i rnd] irnds IH]; intros Sstar Hne Hal Hr.
  - left; exists Sstar; reflexivity.
  - apply Forall_cons_iff in Hr; destruct Hr as [Hi Hr'].
    cbn [fst] in Hi.
    cbn [simulate_direct].
    set (subSeq := last_syms (Nat.min i (n_p m)) Sstar).
    assert (Hsl : 1 <= length subSeq).
    { unfold subSeq, last_syms.
      destruct (Nat.eqb_spec (Nat.min i (n_p m)) 0) as [E|_]; [lia|].
      rewrite length_skipn.
      assert (1 <= length Sstar) by (destruct Sstar; [congruence | simpl; lia]).
      lia. }
    destruct (@Predict_lookups c m (Some subSeq) Hbuilt) as [(a & probs & Ep)|Ep].
    + lia.
    + lia.
    + apply last_syms_Forall, last_syms_Forall; exact Hal.
    + rewrite Ep; cbn [bind OK snd].
      destruct (simOne_outcome m rnd (cumsum probs)) as [[b Eb]|Eb].
      * rewrite Eb; cbn [bind OK]; apply IH.
        -- intros E; apply app_eq_nil in E; destruct E; congruence.
        -- apply Forall_app; split; [exact Hal|].
           constructor; [|constructor].
           apply simOne_alphabet in Eb; rewrite Hc in Eb; exact Eb.
        -- exact Hr'.
      * right; right; rewrite Eb; reflexivity.
    + right; left; rewrite Ep; reflexivity.
Qed.

End Simulate_built.

(** X21: on a built model that retains a scale, for a sequence of at
    least [n_p] symbols whose last [n_p] symbols are in the alphabet,
    [Simulate(nstar)] returns [nstar] symbols of the alphabet, or raises
    ZeroDivisionError (the average of [Predict] on a context that no
    scale supports), or raises IndexError ([nstar] is 0, or a variate
    exceeds the last cumulated probability, which the rounding of the
    sums can leave below 1), and nothing else. *)
Theorem Simulate_outcome (c : Config) (m : Model) (rnds : list Q) :
  BuildPTPs c = OK m -> 1 <= n_p m -> n_p m <= n c ->
  Forall (fun x => In x (alpha c)) (last_syms (n_p m) (sequence c)) ->
  (exists s, Simulate m rnds = OK s
             /\ length s = length rnds
             /\ Forall (fun x => In x (alpha c)) s)
  \/ Simulate m rnds = Err ZeroDivisionError
  \/ Simulate m rnds = Err IndexError.
Proof.
  intros Hb Hnp Hn Hal.
  pose proof Hb as Hbm; apply built_model in Hbm.
  destruct Hbm as (Hc & HS & _).
  assert (Hout : (exists s, Simulate m rnds = OK s)
                 \/ Simulate m rnds = Err ZeroDivisionError
                 \/ Simulate m rnds = Err IndexError).
  { rewrite (@simulate_memo_eq m rnds).
    unfold Simulate_direct.
    assert (Hlen : length (last_syms (n_p m) (sequence c)) = n_p m).
    { unfold last_syms, n in *.
      destruct (Nat.eqb_spec (n_p m) 0); [lia|].
      rewrite length_skipn; lia. }
    destruct (@Predict_lookups c m None Hb) as [(a & probs & Ep)|Ep];
      cbv zeta.
    - exact Hnp.
    - rewrite Hlen; apply le_n.
    - unfold last_syms at 1.
      destruct (Nat.eqb_spec (n_p m) 0); [lia|].
      rewrite Hlen, Nat.sub_diag; exact Hal.
    - rewrite Ep; cbn [bind OK snd].
      destruct rnds as [|rnd0 rnds']; [right; right; reflexivity|].
      cbn [get nth_error bind OK tl length].
      destruct (simOne_outcome m rnd0 (cumsum probs)) as [[b Eb]|Eb].
      + rewrite Eb; cbn [bind OK].
        apply (@simulate_direct_outcome c m Hb Hnp).
        * discriminate.
        * constructor; [|constructor].
          apply simOne_alphabet in Eb; rewrite Hc in Eb; exact Eb.
        * apply Forall_forall; intros [i r] Hin; cbn [fst].
          apply in_combine_l, in_seq in Hin; lia.
      + right; right; rewrite Eb; reflexivity.
    - right; left; rewrite Ep; reflexivity. }
  destruct Hout as [[s Hs]|He]; [left | right; exact He].
  exists s; split; [exact Hs|].
  apply Simulate_length in Hs; rewrite Hc in Hs; apply Hs.
Qed.

Lemma Simulate_outcome_witness :
  let rnds := [1 # 2; 9007199254740991 # 9007199254740992] in
  (exists s, Simulate abc_model rnds = OK s
             /\ length s = length rnds
             /\ Forall (fun x => In x (alpha abc_config)) s)
  \/ Simulate abc_model rnds = Err ZeroDivisionError
  \/ Simulate abc_model rnds = Err IndexError.
Proof.
  apply (@Simulate_outcome abc_config abc_model).
  - vm_compute; reflexivity.
  - vm_compute; apply le_S, le_S, le_n.
  - vm_compute; lia.
  - apply forallb_mem_sym; reflexivity.
Defined.

(** Over the alphabet a, b, c, d, after a symbol followed once by a,
    four times by b, once by c and once by d, the probabilities are the
    doubles nearest to 1/7, 4/7, 1/7 and 1/7, which cumulate to
    [1 - 2^-52]: the largest double below 1 as variate selects no
    symbol. *)
Example Simulate_empty_selection :
  BuildPTPs sevenths_config = OK sevenths_model
  /\ n_p sevenths_model = 1
  /\ Simulate sevenths_model [9007199254740991 # 9007199254740992]
     = Err IndexError.
Proof. split; [|split]; vm_compute; reflexivity. Qed.

(** ** Distance: a distance *)

Lemma sum_abs_diff_nonneg (a b : list (list Q)) : (0 <= sum_abs_diff a b)%Q.
Proof.
  unfold sum_abs_diff; apply Qsum_nonneg, Forall_map, Forall_forall.
  intros rr _; apply Qsum_nonneg, Forall_map, Forall_forall.
  intros xy _; apply Qabs_nonneg.
Qed.

Lemma distance_loop_nonneg (A B : Model) (ks : list nat) (d r : Q) :
  distance_loop A B ks d = OK r -> (0 <= d)%Q -> (d <= r)%Q.
Proof.
  revert d; induction ks as [|k ks IH]; intros d H Hd.
  - simpl in H; injection H as <-; apply Qle_refl.
  - cbn [distance_loop] in H.
    destruct (distance_step A B d k) as [e|d1] eqn:E1; [discriminate H|].
    cbn [bind] in H.
    unfold distance_step in E1.
    destruct (rel_block A B A k) as [e|mine]; [discriminate E1|].
    destruct (rel_block A B B k) as [e|his]; [discriminate E1|].
    cbn [bind] in E1.
    destruct (shape_eqb his mine); [|discriminate E1].
    injection E1 as <-.
    assert (Hstep : (d <= d + sum_abs_diff his mine)%Q).
    { rewrite <- (Qplus_0_r d) at 1.
      apply Qplus_le_compat; [apply Qle_refl | apply sum_abs_diff_nonneg]. }
    eapply Qle_trans; [exact Hstep|].
    apply IH; [exact H|].
    eapply Qle_trans; [exact Hd | exact Hstep].
Qed.

Lemma map_combine_seq (A B C : Type) (f : A * B -> C) (da : A) (db : B)
  (la : list A) (lb : list B) (k : nat) :
  length la = k -> length lb = k ->
  map f (combine la lb)
  = map (fun i => f (nth i la da, nth i lb db)) (seq 0 k).
Proof.
  intros Ha Hb.
  rewrite (map_nth_seq f (da, db) (combine la lb)).
  rewrite length_combine, Ha, Hb, Nat.min_id.
  apply map_ext; intros i; rewrite combine_nth by congruence; reflexivity.
Qed.

(** The sum of absolute differences of two blocks of one shape, entry by
    entry. *)
Lemma sum_abs_diff_entries (rows cols : nat) (a b : list (list Q)) :
  block_shape rows cols a -> block_shape rows cols b ->
  (sum_abs_diff a b
   == Qsum (map (fun i =>
        Qsum (map (fun j => Qabs (nth j (nth i a []) 0 - nth j (nth i b []) 0))
                (seq 0 cols)))
        (seq 0 rows)))%Q.
Proof.
  intros [Ha Hfa] [Hb Hfb]; unfold sum_abs_diff.
  rewrite (@map_combine_seq _ _ _ _ [] [] a b rows Ha Hb).
  apply Qsum_ext; intros i Hi; apply in_seq in Hi; cbn [fst snd].
  rewrite Forall_forall in Hfa, Hfb.
  rewrite (@map_combine_seq _ _ _ _ 0%Q 0%Q (nth i a []) (nth i b []) cols).
  - reflexivity.
  - apply Hfa, nth_In; lia.
  - apply Hfb, nth_In; lia.
Qed.

Lemma nth_zeros (rows cols i j : nat) :
  nth j (nth i (zeros rows cols) []) 0%Q = 0%Q.
Proof.
  unfold zeros.
  destruct (Nat.lt_ge_cases i rows) as [Hi|Hi].
  - rewrite nth_repeat_lt by exact Hi.
    destruct (Nat.lt_ge_cases j cols) as [Hj|Hj].
    + apply nth_repeat_lt; exact Hj.
    + apply nth_overflow; rewrite repeat_length; exact Hj.
  - rewrite (nth_overflow _ []) by (rewrite repeat_length; exact Hi).
    destruct j; reflexivity.
Qed.

Lemma nth_embed (rows cols i j : nat) (a : list (list Q)) :
  i < rows -> j < cols ->
  nth j (nth i (embed rows cols a) []) 0%Q = nth j (nth i a []) 0%Q.
Proof.
  intros Hi Hj; unfold embed.
  rewrite (nth_indep _ [] (map (fun j0 => nth j0 (nth 0 a []) 0%Q) (seq 0 cols)))
    by (rewrite length_map, length_seq; exact Hi).
  rewrite (map_nth (fun i0 => map (fun j0 => nth j0 (nth i0 a []) 0%Q)
                                (seq 0 cols)) (seq 0 rows) 0 i).
  rewrite seq_nth by exact Hi; cbn [Nat.add].
  rewrite (nth_indep _ 0%Q (nth 0 (nth i a []) 0%Q))
    by (rewrite length_map, length_seq; exact Hj).
  rewrite (map_nth (fun j0 => nth j0 (nth i a []) 0%Q) (seq 0 cols) 0 j).
  rewrite seq_nth by exact Hj; reflexivity.
Qed.

(** The entries of the block of a built model are its relative
    frequencies. *)
Lemma rel_block_entries (self other who : Model) (cw : Config) (k : nat) :
  BuildPTPs cw = OK who ->
  n_s (conf who) <= Nat.max (n_s (conf self)) (n_s (conf other)) ->
  let Ns := Nat.max (n_s (conf self)) (n_s (conf other)) in
  exists b, rel_block self other who k = OK b
            /\ block_shape Ns (Ns ^ (k + 1)) b
            /\ forall i j, i < Ns -> j < Ns ^ (k + 1) ->
                 nth j (nth i b []) 0%Q = rel_entry who k i j.
Proof.
  intros Hb Hle Ns; fold Ns in Hle.
  destruct (@rel_block_built self other who cw k Hb Hle) as (b & Eb & Hshape).
  fold Ns in Hshape.
  exists b; split; [exact Eb|]; split; [exact Hshape|].
  intros i j Hi Hj; unfold rel_entry.
  unfold rel_block in Eb; fold Ns in Eb.
  destruct (nth_error (PTPs who) k) as [P|].
  - destruct (negb (forallb _ _)); [discriminate Eb|].
    destruct (n_s (conf who) <? Ns).
    + destruct (skipn (n_s (conf who) + 1) P) as [|r0 rest] eqn:Em.
      * injection Eb as <-; rewrite nth_zeros.
        destruct i, j; reflexivity.
      * destruct (_ && _); [|discriminate Eb].
        injection Eb as <-; apply nth_embed; assumption.
    + injection Eb as <-; reflexivity.
  - injection Eb as <-; apply nth_zeros.
Qed.

Lemma Qsum_all_zero (A : Type) (f : A -> Q) (l : list A) :
  (forall a, In a l -> (f a == 0)%Q) -> (Qsum (map f l) == 0)%Q.
Proof.
  intros H; rewrite (Qsum_ext f (fun _ => 0%Q) l H); apply Qsum_zero.
Qed.

Lemma Qsum_app (l1 l2 : list Q) : (Qsum (l1 ++ l2) == Qsum l1 + Qsum l2)%Q.
Proof.
  induction l1 as [|q l1 IH]; [cbn [app]; change (Qsum []) with 0%Q; ring|].
  cbn [app]; change (Qsum (q :: ?l)) with (q + Qsum l)%Q.
  rewrite IH; ring.
Qed.

Lemma Qsum_seq_extend (f : nat -> Q) (k k' : nat) :
  k <= k' ->
  (forall i, k <= i < k' -> (f i == 0)%Q) ->
  (Qsum (map f (seq 0 k')) == Qsum (map f (seq 0 k)))%Q.
Proof.
  intros Hle Hz.
  replace k' with (k + (k' - k)) by lia.
  rewrite seq_app, map_app, Qsum_app.
  rewrite (@Qsum_all_zero _ f (seq (0 + k) (k' - k))).
  - ring.
  - intros i Hi; apply in_seq in Hi; apply Hz; lia.
Qed.

(** Outside the matrices of a built model the relative frequencies are
    zero. *)
Lemma rel_entry_outside (cw : Config) (who : Model) (k i j : nat) :
  BuildPTPs cw = OK who ->
  n_p who <= k \/ n_s cw <= i \/ n_s cw ^ (k + 1) <= j ->
  rel_entry who k i j = 0%Q.
Proof.
  intros Hb Hout.
  apply built_model in Hb; destruct Hb as (Hc & HS & Hl & Hscale).
  unfold rel_entry.
  destruct (nth_error (PTPs who) k) as [P|] eqn:EP; [|reflexivity].
  assert (Hk : k < n_p who).
  { rewrite <- Hl; apply nth_error_Some; congruence. }
  destruct (Hscale k Hk) as (ng & P' & _ & Hlen & EP' & Hshape).
  rewrite EP in EP'; injection EP' as <-.
  rewrite Hc; rewrite Hlen in Hshape.
  apply PTP_shape_skipn in Hshape; destruct Hshape as [Hsl Hsf].
  replace (S k) with (k + 1) in Hsf by lia.
  destruct Hout as [Ho|[Ho|Ho]]; [lia | |].
  - rewrite (nth_overflow _ []) by lia; destruct j; reflexivity.
  - destruct (Nat.lt_ge_cases i (n_s cw)) as [Hi|Hi].
    + apply nth_overflow.
      rewrite Forall_forall in Hsf.
      rewrite (Hsf (nth i (skipn (n_s cw + 1) P) [])); [exact Ho|].
      apply nth_In; lia.
    + rewrite (nth_overflow _ []) by lia; destruct j; reflexivity.
Qed.

Section Distance_box.

Variables (ca cb : Config) (A B : Model).

Hypothesis HA : BuildPTPs ca = OK A.
Hypothesis HB : BuildPTPs cb = OK B.

Let Ns0 := Nat.max (n_s (conf A)) (n_s (conf B)).
Let Np0 := Nat.max (n_p A) (n_p B).

Lemma entry_diff_outside (k i j : nat) :
  Np0 <= k \/ Ns0 <= i \/ Ns0 ^ (k + 1) <= j ->
  (Qabs (rel_entry B k i j - rel_entry A k i j) == 0)%Q.
Proof.
  intros Hout.
  pose proof HA as HcA; apply built_model in HcA; destruct HcA as (HcA & _).
  pose proof HB as HcB; apply built_model in HcB; destruct HcB as (HcB & _).
  assert (HsA : n_s ca <= Ns0) by (unfold Ns0; rewrite HcA; lia).
  assert (HsB : n_s cb <= Ns0) by (unfold Ns0; rewrite HcB; lia).
  assert (HnA : n_p A <= Np0) by (unfold Np0; lia).
  assert (HnB : n_p B <= Np0) by (unfold Np0; lia).
  assert (HpA : n_s ca ^ (k + 1) <= Ns0 ^ (k + 1))
    by (apply Nat.pow_le_mono_l; exact HsA).
  assert (HpB : n_s cb ^ (k + 1) <= Ns0 ^ (k + 1))
    by (apply Nat.pow_le_mono_l; exact HsB).
  rewrite (@rel_entry_outside ca A k i j HA),
          (@rel_entry_outside cb B k i j HB).
  - reflexivity.
  - destruct Hout as [Ho|[Ho|Ho]]; [left | right; left | right; right]; lia.
  - destruct Hout as [Ho|[Ho|Ho]]; [left | right; left | right; right]; lia.
Qed.

Lemma box_distance_extend (Np Ns : nat) :
  Np0 <= Np -> Ns0 <= Ns ->
  (box_distance A B Np Ns == box_distance A B Np0 Ns0)%Q.
Proof.
  intros Hp Hs; unfold box_distance.
  assert (Hin : forall k,
            (Qsum (map (fun i =>
               Qsum (map (fun j =>
                            Qabs (rel_entry B k i j - rel_entry A k i j))
                       (seq 0 (Ns ^ (k + 1)))))
               (seq 0 Ns))
             == Qsum (map (fun i =>
               Qsum (map (fun j =>
                            Qabs (rel_entry B k i j - rel_entry A k i j))
                       (seq 0 (Ns0 ^ (k + 1)))))
               (seq 0 Ns0)))%Q).
  { intros k.
    rewrite (@Qsum_seq_extend _ Ns0 Ns Hs).
    - apply Qsum_ext; intros i Hi.
      apply Qsum_seq_extend; [apply Nat.pow_le_mono_l; exact Hs|].
      intros j Hj; apply entry_diff_outside; right; right; lia.
    - intros i Hi; apply Qsum_all_zero; intros j _.
      apply entry_diff_outside; right; left; lia. }
  rewrite (Qsum_ext _ _ _ (fun k _ => Hin k)).
  apply Qsum_seq_extend; [exact Hp|].
  intros k Hk; apply Qsum_all_zero; intros i _.
  apply Qsum_all_zero; intros j _.
  apply entry_diff_outside; left; lia.
Qed.

Lemma distance_loop_box (len a : nat) (d r : Q) :
  distance_loop A B (seq a len) d = OK r ->
  (r == d + Qsum (map (fun k =>
            Qsum (map (fun i =>
              Qsum (map (fun j =>
                           Qabs (rel_entry B k i j - rel_entry A k i j))
                      (seq 0 (Ns0 ^ (k + 1)))))
              (seq 0 Ns0)))
         (seq a len)))%Q.
Proof.
  revert a d; induction len as [|len IH]; intros a d H.
  - simpl in H; injection H as <-.
    cbn [seq map]; change (Qsum []) with 0%Q; ring.
  - cbn [seq distance_loop] in H.
    destruct (@rel_block_entries A B A ca a HA) as (mine & Em & Hm & Hme);
      [apply Nat.le_max_l|].
    destruct (@rel_block_entries A B B cb a HB) as (his & Eh & Hh & Hhe);
      [apply Nat.le_max_r|].
    fold Ns0 in Hm, Hme, Hh, Hhe.
    unfold distance_step in H; rewrite Em, Eh in H; cbn [bind OK] in H.
    rewrite (shape_eqb_blocks Hh Hm) in H; cbn [bind OK] in H.
    apply IH in H; rewrite H.
    cbn [seq map]; change (Qsum (?x :: ?t)) with (x + Qsum t)%Q.
    rewrite (sum_abs_diff_entries Hh Hm).
    rewrite (Qsum_ext
               (fun i => Qsum (map (fun j => Qabs (nth j (nth i his []) 0%Q
                                                   - nth j (nth i mine []) 0%Q))
                                 (seq 0 (Ns0 ^ (a + 1)))))
               (fun i => Qsum (map (fun j => Qabs (rel_entry B a i j
                                                   - rel_entry A a i j))
                                 (seq 0 (Ns0 ^ (a + 1)))))).
    + ring.
    + intros i Hi; apply in_seq in Hi.
      apply Qsum_ext; intros j Hj; apply in_seq in Hj.
      rewrite Hme, Hhe by lia; reflexivity.
Qed.

Lemma Distance_box (d : Q) :
  Distance A B = OK d -> (d == box_distance A B Np0 Ns0)%Q.
Proof.
  unfold Distance; fold Np0; intros H.
  apply distance_loop_box in H; rewrite H, Qplus_0_l; reflexivity.
Qed.

End Distance_box.

Lemma Qsum_zero_all (l : list Q) (q : Q) :
  Forall (fun r => (0 <= r)%Q) l -> (Qsum l == 0)%Q -> In q l -> (q == 0)%Q.
Proof.
  intros Hl Hs Hq; apply Qle_antisym.
  - rewrite <- Hs; apply Qsum_bound; assumption.
  - rewrite Forall_forall in Hl; apply Hl, Hq.
Qed.

Lemma Qabs_zero (x : Q) : (Qabs x == 0)%Q -> (x == 0)%Q.
Proof.
  intros H; apply Qle_antisym.
  - rewrite <- H; apply Qle_Qabs.
  - assert (Hn : (- x <= 0)%Q).
    { rewrite <- H, <- Qabs_opp; apply Qle_Qabs. }
    apply Qopp_le_compat in Hn.
    rewrite Qopp_involutive in Hn; exact Hn.
Qed.

Lemma box_distance_zero (A B : Model) (Np Ns : nat) :
  (box_distance A B Np Ns == 0)%Q ->
  forall k i j, k < Np -> i < Ns -> j < Ns ^ (k + 1) ->
    (rel_entry A k i j == rel_entry B k i j)%Q.
Proof.
  unfold box_distance; intros H k i j Hk Hi Hj.
  assert (Hnn : forall (f : nat -> Q) (l : list nat),
            (forall x, (0 <= f x)%Q) ->
            Forall (fun r => (0 <= r)%Q) (map f l)).
  { intros f l Hf; apply Forall_map, Forall_forall; intros x _; apply Hf. }
  assert (Hj0 : forall x y z, (0 <= Qabs (rel_entry B x y z
                                          - rel_entry A x y z))%Q)
    by (intros; apply Qabs_nonneg).
  assert (Hi0 : forall x y,
            (0 <= Qsum (map (fun z => Qabs (rel_entry B x y z
                                            - rel_entry A x y z))
                          (seq 0 (Ns ^ (x + 1)))))%Q).
  { intros x y; apply Qsum_nonneg, Hnn; intros z; apply Hj0. }
  eapply Qsum_zero_all in H.
  2:{ apply Hnn; intros x; apply Qsum_nonneg, Hnn; intros y; apply Hi0. }
  2:{ apply (in_map _ (seq 0 Np) k), in_seq; lia. }
  cbv beta in H; eapply Qsum_zero_all in H.
  2:{ apply Hnn; intros y; apply Hi0. }
  2:{ apply (in_map _ (seq 0 Ns) i), in_seq; lia. }
  cbv beta in H; eapply Qsum_zero_all in H.
  2:{ apply Hnn; intros z; apply Hj0. }
  2:{ apply (in_map _ (seq 0 (Ns ^ (k + 1))) j), in_seq; lia. }
  cbv beta in H; apply Qabs_zero in H.
  apply Qplus_inj_r with (z := (- rel_entry A k i j)%Q).
  rewrite Qplus_opp_r; symmetry; exact H.
Qed.

(** X23: the distance between two built models is never negative, and
    it is zero exactly when the two models have the same relative
    frequencies at every scale, symbol and ngram, a frequency outside a
    matrix or at a scale that is not retained counting as zero. *)
Theorem Distance_zero_iff (ca cb : Config) (A B : Model) (d : Q) :
  BuildPTPs ca = OK A -> BuildPTPs cb = OK B ->
  Distance A B = OK d ->
  (0 <= d)%Q
  /\ ((d == 0)%Q
      <-> forall k i j, (rel_entry A k i j == rel_entry B k i j)%Q).
Proof.
  intros HA HB H; split.
  - unfold Distance in H.
    apply distance_loop_nonneg in H; [exact H | apply Qle_refl].
  - pose proof (@Distance_box ca cb A B HA HB d H) as Hd.
    rewrite Hd; split.
    + intros Hz k i j.
      set (Np0 := Nat.max (n_p A) (n_p B)) in *.
      set (Ns0 := Nat.max (n_s (conf A)) (n_s (conf B))) in *.
      destruct (Nat.lt_ge_cases k Np0) as [Hk|Hk];
        [destruct (Nat.lt_ge_cases i Ns0) as [Hi|Hi];
         [destruct (Nat.lt_ge_cases j (Ns0 ^ (k + 1))) as [Hj|Hj]|]|].
      * apply (@box_distance_zero A B Np0 Ns0 Hz); assumption.
      * pose proof (@entry_diff_outside ca cb A B HA HB k i j) as Ho.
        apply Qabs_zero in Ho; [|right; right; exact Hj].
        apply Qplus_inj_r with (z := (- rel_entry A k i j)%Q).
        rewrite Qplus_opp_r; symmetry; exact Ho.
      * pose proof (@entry_diff_outside ca cb A B HA HB k i j) as Ho.
        apply Qabs_zero in Ho; [|right; left; exact Hi].
        apply Qplus_inj_r with (z := (- rel_entry A k i j)%Q).
        rewrite Qplus_opp_r; symmetry; exact Ho.
      * pose proof (@entry_diff_outside ca cb A B HA HB k i j) as Ho.
        apply Qabs_zero in Ho; [|left; exact Hk].
        apply Qplus_inj_r with (z := (- rel_entry A k i j)%Q).
        rewrite Qplus_opp_r; symmetry; exact Ho.
    + intros Heq; unfold box_distance.
      apply Qsum_all_zero; intros k _.
      apply Qsum_all_zero; intros i _.
      apply Qsum_all_zero; intros j _.
      rewrite (Heq k i j).
      setoid_replace (rel_entry B k i j - rel_entry B k i j)%Q with 0%Q
        by ring.
      reflexivity.
Qed.

Lemma Distance_zero_iff_witness :
  (0 <= distance_value (Distance abab_model degenerate_model))%Q
  /\ ((distance_value (Distance abab_model degenerate_model) == 0)%Q
      <-> forall k i j,
            (rel_entry abab_model k i j == rel_entry degenerate_model k i j)%Q).
Proof.
  apply (@Distance_zero_iff abab_config degenerate_config
           abab_model degenerate_model);
    vm_compute; reflexivity.
Defined.

(** ** BuildPTPs: the ratios never exceed 1/S *)

(** Reading the strings back from a numpy array can only identify
    some of them. *)
Lemma distinct_map_le (f : list ascii -> list ascii) (l : list (list ascii)) :
  length (distinct_strs (map f l)) <= length (distinct_strs l).
Proof.
  rewrite <- (length_map f (distinct_strs l)).
  apply NoDup_incl_length; [apply distinct_strs_NoDup|].
  intros v Hv; apply (proj1 (distinct_strs_In _ _)) in Hv.
  apply in_map_iff in Hv; destruct Hv as (u & <- & Hu).
  apply in_map, distinct_strs_In; exact Hu.
Qed.

Section BuildPTPs_observed.

Variable c : Config.

Hypothesis Hnul : ~ In zero (sequence c).

Let K := Z.to_nat (maxn_p c).
Let ngramS := MakenGrams_all (alpha c) (maxn_p c).

Lemma unique_size_patterns (a : nat) (fnd : list (list ascii)) :
  (forall u, In u fnd -> In (removelast u) (all_patterns (alpha c) a)) ->
  unique_size (map (@removelast ascii) fnd) <= n_s c ^ a.
Proof.
  intros H; unfold unique_size.
  eapply Nat.le_trans; [apply distinct_map_le|].
  unfold n_s; rewrite <- all_patterns_length.
  apply NoDup_incl_length; [apply distinct_strs_NoDup|].
  intros g Hg; apply (proj1 (distinct_strs_In _ _)) in Hg.
  apply in_map_iff in Hg; destruct Hg as (u & <- & Hu).
  apply H; exact Hu.
Qed.

Lemma BuildPTPs_loop_observed (len a : nat) (st st' : build_state) :
  BuildPTPs_loop c ngramS (seq a len) st = OK st' ->
  a + len <= K ->
  length (bs_PTPs st) = a ->
  length (Observed (bs_sparsT st)) = K ->
  (forall u, In u (bs_fnd st) ->
     In (removelast u) (all_patterns (alpha c) a)) ->
  (forall j, j < a ->
     (0 <= nth j (Observed (bs_sparsT st)) 0 <= Z.of_nat (n_s c ^ j))%Z) ->
  forall j, j < length (bs_PTPs st') ->
    (0 <= nth j (Observed (bs_sparsT st')) 0 <= Z.of_nat (n_s c ^ j))%Z.
Proof.
  revert a st; induction len as [|len IH];
    intros a st Hrun Hle Hl HO Hfnd Hobs.
  - simpl in Hrun; injection Hrun as <-; rewrite Hl; exact Hobs.
  - cbn [seq BuildPTPs_loop] in Hrun.
    destruct (Z.eqb (nth a (Possible (bs_sparsT st)) 0%Z) 0); [discriminate|].
    pose proof (@unique_size_patterns a (bs_fnd st) Hfnd) as Hu.
    set (obs := Z.of_nat (unique_size (map (@removelast ascii) (bs_fnd st))))
      in *.
    assert (Hstep : forall j, j < S a ->
              (0 <= nth j (set_nth a obs (Observed (bs_sparsT st))) 0
               <= Z.of_nat (n_s c ^ j))%Z).
    { intros j Hj; destruct (Nat.eq_dec j a) as [->|Hne].
      - rewrite set_nth_same by lia; unfold obs; lia.
      - rewrite set_nth_other by lia; apply Hobs; lia. }
    destruct (ratio_ltb _ (t_np c)).
    + injection Hrun as <-; cbn [bs_PTPs bs_sparsT Observed]; rewrite Hl.
      intros j Hj; apply Hstep; lia.
    + destruct (nth_error ngramS a) as [ng|] eqn:Eng; [|discriminate].
      cbn [bind OK] in Hrun.
      destruct (BuildPTP c ng (Some (bs_fnd st))) as [e|[P fnd']] eqn:EP;
        [discriminate|].
      cbn [bind fst snd] in Hrun.
      refine (IH (S a) _ Hrun _ _ _ _ _);
        cbn [bs_PTPs bs_fnd bs_sparsT Observed].
      * lia.
      * rewrite length_app; simpl; lia.
      * rewrite set_nth_length; exact HO.
      * intros u Hu'.
        apply BuildPTP_inv in EP; destruct EP as (counts & Hc & _).
        apply BuildPTP_counts_items in Hc.
        destruct Hc as (items & Hfold & Hitems & _).
        change fnd' with (snd (counts, fnd')) in Hu'.
        rewrite Hfold in Hu'; apply search_fold_found_inv in Hu'.
        destruct Hu' as [[]|(i & g & x & Hi & Hx & ->)].
        apply followers_sequence in Hx.
        rewrite (np_str_sequence c x Hnul Hx), removelast_last.
        apply Hitems, nth_error_In in Hi.
        assert (Hnth := @MakenGrams_all_nth (alpha c) (maxn_p c) (S a)).
        replace (S a - 1) with a in Hnth by lia.
        specialize (Hnth ltac:(lia) ltac:(lia)); fold ngramS in Hnth.
        apply (nth_error_nth _ _ []) in Eng; rewrite Eng in Hnth.
        rewrite Hnth in Hi.
        destruct (Nat.eqb_spec (S a) 1) as [E1|E1].
        -- rewrite E1; exact Hi.
        -- apply (proj1 (in_all_patterns_sorted _ _ _)) in Hi; exact Hi.
      * exact Hstep.
Qed.

End BuildPTPs_observed.

(** X24: in the sparsity table of a built model the observed count of
    row [i] is at most [S^i], so that no ratio exceeds the double
    nearest to [1/S]: the patterns counted for the length [i+1] are the
    prefixes of length [i] of the patterns found, while the possible
    count is [S^(i+1)]. *)
Theorem BuildPTPs_ratio_bound (c : Config) (m : Model) (i : nat) :
  BuildPTPs c = OK m -> i < n_p m ->
  (nth i (Observed (sparsities m)) 0 <= Z.of_nat (n_s c ^ i))%Z
  /\ (nth i (SI (sparsities m)) 0
      <= fl64 (1 / inject_Z (Z.of_nat (n_s c))))%Q.
Proof.
  intros H Hi.
  pose proof H as Hbm; apply built_model in Hbm; destruct Hbm as (_ & HS & _).
  apply BuildPTPs_inv in H; destruct H as (st & Hrun & _ & _ & _ & HSp).
  destruct (in_dec ascii_dec zero (sequence c)) as [Hz|Hnul].
  { destruct (BuildPTPs_run_nul _ Hrun Hz) as [E _]; lia. }
  pose proof Hrun as Hloop; apply BuildPTPs_run_loop in Hloop.
  pose proof Hrun as Hout; apply BuildPTPs_run_outcome in Hout.
  destruct Hout as (HiK & Hl & HlS & HlO & HlP & _ & _).
  assert (Hobs : (0 <= nth i (Observed (bs_sparsT st)) 0
                  <= Z.of_nat (n_s c ^ i))%Z).
  { apply (@BuildPTPs_loop_observed c Hnul (Z.to_nat (maxn_p c)) 0 _ st Hloop);
      cbn [bs_PTPs bs_fnd bs_sparsT]; try lia.
    - reflexivity.
    - unfold initial_sparsT; cbn [Observed]; apply repeat_length.
    - intros u Hu; apply in_map_iff in Hu; destruct Hu as (x & <- & _).
      unfold np_str; destruct (sym_eqb x zero); left; reflexivity. }
  pose proof Hloop as Htab.
  apply (@BuildPTPs_loop_table c _ (Z.to_nat (maxn_p c)) 0) in Htab;
    cbn [bs_PTPs bs_sparsT bs_fnd] in *;
    try reflexivity; try lia;
    try (unfold initial_sparsT; cbn [SI Observed]; apply repeat_length).
  2:{ split; [intros j Hj; lia | intros Hj; lia]. }
  rewrite Hl in Htab; destruct Htab as [Hr _].
  apply BuildPTPs_loop_outcome in Hloop;
    cbn [bs_PTPs bs_sparsT bs_fnd] in *;
    try reflexivity; try lia;
    try (unfold initial_sparsT; cbn [SI]; apply repeat_length).
  2:{ intros k P HP; destruct k; discriminate HP. }
  destruct Hloop as (_ & _ & HP & _).
  rewrite HSp; cbn [Observed Possible SI].
  rewrite !nth_firstn_lt by lia.
  split; [apply Hobs|].
  rewrite (Hr i Hi), HP; unfold initial_sparsT; cbn [Possible].
  rewrite (nth_indep (map (fun k => Z.of_nat (n_s c ^ k))
                        (seq 1 (Z.to_nat (maxn_p c))))
             0%Z (Z.of_nat (n_s c ^ 0)))
    by (rewrite length_map, length_seq; lia).
  rewrite (map_nth (fun k => Z.of_nat (n_s c ^ k))), seq_nth by lia.
  assert (Hpos : (0 < Z.of_nat (n_s c))%Z) by lia.
  assert (Hpow : (0 < Z.of_nat (n_s c ^ (1 + i)))%Z).
  { assert (n_s c ^ (1 + i) <> 0) by (apply Nat.pow_nonzero; lia); lia. }
  apply fl64_mono.
  { apply Qle_shift_div_l; [rewrite <- (Zlt_Qlt 0); exact Hpow|].
    rewrite Qmult_0_l, <- (Zle_Qle 0); apply Hobs. }
  apply Qle_shift_div_r; [rewrite <- (Zlt_Qlt 0); exact Hpow|].
  assert (E : (1 / inject_Z (Z.of_nat (n_s c))
               * inject_Z (Z.of_nat (n_s c ^ (1 + i)))
               == inject_Z (Z.of_nat (n_s c ^ i)))%Q).
  { cbn [Nat.add Nat.pow]; rewrite Nat2Z.inj_mul, inject_Z_mult.
    field; intros E0.
    assert (Hq : (0 < inject_Z (Z.of_nat (n_s c)))%Q)
      by (rewrite <- (Zlt_Qlt 0); exact Hpos).
    rewrite E0 in Hq; discriminate Hq. }
  rewrite E, <- Zle_Qle; apply Hobs.
Qed.

Lemma BuildPTPs_ratio_bound_witness :
  (nth 1 (Observed (sparsities abab_model)) 0
   <= Z.of_nat (n_s abab_config ^ 1))%Z
  /\ (nth 1 (SI (sparsities abab_model)) 0
      <= fl64 (1 / inject_Z (Z.of_nat (n_s abab_config))))%Q.
Proof.
  apply (@BuildPTPs_ratio_bound abab_config abab_model 1).
  - vm_compute; reflexivity.
  - vm_compute; apply le_n.
Defined.

(** ** Predict: only the last symbols matter *)

Lemma last_syms_app (k : nat) (pre ctx : list ascii) :
  1 <= k -> k <= length ctx ->
  last_syms k (pre ++ ctx) = last_syms k ctx.
Proof.
  intros Hk Hle; unfold last_syms.
  destruct (Nat.eqb_spec k 0) as [E|_]; [lia|].
  rewrite length_app, skipn_app.
  replace (length pre + length ctx - k - length pre) with (length ctx - k)
    by lia.
  rewrite skipn_all2 by lia; reflexivity.
Qed.

Lemma gather_step_ext (m : Model) (ctx1 ctx2 : list ascii)
  (st : list (list Q) * Z) (i : nat) :
  last_syms (i + 1) ctx1 = last_syms (i + 1) ctx2 ->
  gather_step m ctx1 st i = gather_step m ctx2 st i.
Proof. intros E; unfold gather_step; rewrite E; reflexivity. Qed.

Lemma gather_ext (m : Model) (ctx1 ctx2 : list ascii) (idxs : list nat)
  (st : list (list Q) * Z) :
  (forall i, In i idxs -> last_syms (i + 1) ctx1 = last_syms (i + 1) ctx2) ->
  gather m ctx1 idxs st = gather m ctx2 idxs st.
Proof.
  revert st; induction idxs as [|i idxs IH]; intros st H; [reflexivity|].
  cbn [gather].
  rewrite (@gather_step_ext m ctx1 ctx2 st i) by (apply H; left; reflexivity).
  destruct (gather_step m ctx2 st i) as [e|st1]; [reflexivity|].
  cbn [bind]; apply IH; intros j Hj; apply H; right; exact Hj.
Qed.

(** X25: [Predict] reads only the last [n_p] symbols of the context it
    is given: for every model, symbols put before a context of at least
    [n_p] symbols change nothing in the result, value or exception. *)
Theorem Predict_context_suffix (m : Model) (pre ctx : list ascii) :
  n_p m <= length ctx ->
  Predict m (Some (pre ++ ctx)) = Predict m (Some ctx).
Proof.
  intros Hle; unfold Predict; cbn [fst snd].
  rewrite length_app.
  replace (Nat.min (length pre + length ctx) (n_p m)) with (n_p m) by lia.
  replace (Nat.min (length ctx) (n_p m)) with (n_p m) by lia.
  rewrite (@gather_ext m (pre ++ ctx) ctx (seq 0 (n_p m))); [reflexivity|].
  intros i Hi; apply in_seq in Hi.
  apply last_syms_app; lia.
Qed.

Lemma Predict_context_suffix_witness :
  Predict abab_model (Some (["b"; "b"; "a"] ++ ["b"; "a"]))%char
  = Predict abab_model (Some ["b"; "a"]%char).
Proof.
  apply (@Predict_context_suffix abab_model ["b"; "b"; "a"]%char
           ["b"; "a"]%char).
  vm_compute; apply le_n.
Defined.
